(** * Keke web client: playback controller, sprite cache and progress stream

    A shallow embedding of the browser client of the Keke solver
    front end:

    - [static/js/game-visualization.js] (module [GameVisualization]): the
      sprite cache [loadSprite], the level decoder [parseAsciiMap], the
      renderer [drawMap] and the playback controller
      ([displayPrecomputedStep], [showGameView], [toggleSolutionPlayback],
      the interval callback, [cleanup], [getState]), and the start-up
      functions [preloadSprites] and [drawEmptyMap];
    - the page script ([script.js]): the click handler of the solve
      button, the handlers of the progress [EventSource] ([onmessage],
      [onerror]) and [setStatus]; the callbacks and the click handlers
      of the buttons of the game view; the level-set filter of the
      leaderboard.  Number formatting, the building of table rows and
      the sorting of the leaderboard (floating point, DOM) are left
      out or kept abstract.

    Modelling conventions.

    - JavaScript strings are [string]s (8-bit characters instead of
      UTF-16 code units); a value that may be [undefined] or [null] is an
      [option].
    - The module-level variables of [GameVisualization] are the fields
      of the record [World]; every function is a computation in the
      monad [M], which threads the world and records whether a call
      completes or throws (an [async] function that rejects).
    - Everything the module does to its surroundings (canvas calls,
      image downloads, HTTP requests, callback invocations) is appended,
      in order, to the field [trace].  Console output is not modelled.
    - An [async] function is run to completion, its [await]s resolving
      in program order.  Two functions are also given in halves, cut at
      an [await], so that what happens in between can be expressed:
      [loadSprite] ([loadSprite_start], [loadSprite_settle]) and
      [showGameView] ([showGameView_request], [showGameView_response]).
    - What the network does is an input: [decodes] tells which image
      downloads succeed, [Response] and [SaveResult] how the two HTTP
      requests end. *)

From Stdlib Require Import ZArith List String Ascii Bool Lia.
From stdpp Require Import base gmap strings list fin_maps.

Import ListNotations.
Local Open Scope string_scope.
Local Open Scope Z_scope.

(** ** JavaScript string helpers *)

Module JsString.

(** [WhiteSpace] and [LineTerminator] code points below 256: the
    characters removed by [String.prototype.trim]. *)
Definition is_whitespace (a : ascii) : bool :=
  let n := nat_of_ascii a in
  (Nat.eqb n 9 || Nat.eqb n 10 || Nat.eqb n 11 || Nat.eqb n 12
   || Nat.eqb n 13 || Nat.eqb n 32 || Nat.eqb n 160)%bool.

Definition newline : ascii := ascii_of_nat 10.

Definition is_empty (s : string) : bool :=
  match s with EmptyString => true | String _ _ => false end.

Fixpoint trimStart (s : string) : string :=
  match s with
  | EmptyString => EmptyString
  | String a s' => if is_whitespace a then trimStart s' else s
  end.

Fixpoint trimEnd (s : string) : string :=
  match s with
  | EmptyString => EmptyString
  | String a s' =>
      let t := trimEnd s' in
      if (is_whitespace a && is_empty t)%bool then EmptyString
      else String a t
  end.

(** [s.trim()] *)
Definition trim (s : string) : string := trimEnd (trimStart s).

(** [s.split(sep)] for a one-character separator: always at least
    one piece, [''.split('\n')] is [['']]. *)
Fixpoint split (sep : ascii) (s : string) : list string :=
  match s with
  | EmptyString => [EmptyString]
  | String a s' =>
      if Ascii.eqb a sep then EmptyString :: split sep s'
      else match split sep s' with
           | [] => [String a EmptyString]
           | piece :: rest => String a piece :: rest
           end
  end.

(** [s.split('')]: one string per character. *)
Fixpoint chars (s : string) : list string :=
  match s with
  | EmptyString => []
  | String a s' => String a EmptyString :: chars s'
  end.

(** [pieces.join(sep)] *)
Fixpoint join (sep : string) (pieces : list string) : string :=
  match pieces with
  | [] => EmptyString
  | [p] => p
  | p :: rest => p ++ sep ++ join sep rest
  end.

(** [s.endsWith(suffix)] *)
Definition endsWith (s suffix : string) : bool :=
  let n := String.length s in
  let k := String.length suffix in
  (Nat.leb k n && String.eqb (substring (n - k) k s) suffix)%bool.

Fixpoint all_whitespace (s : string) : bool :=
  match s with
  | EmptyString => true
  | String a s' => (is_whitespace a && all_whitespace s')%bool
  end.

Definition first_char (s : string) : option ascii :=
  match s with EmptyString => None | String a _ => Some a end.

Fixpoint last_char (s : string) : option ascii :=
  match s with
  | EmptyString => None
  | String a EmptyString => Some a
  | String _ s' => last_char s'
  end.

Fixpoint count_char (c : ascii) (s : string) : nat :=
  match s with
  | EmptyString => O
  | String a s' => ((if Ascii.eqb a c then 1 else 0) + count_char c s')%nat
  end.

Definition starts_with_whitespace (s : string) : bool :=
  match first_char s with Some a => is_whitespace a | None => false end.

Definition ends_with_whitespace (s : string) : bool :=
  match last_char s with Some a => is_whitespace a | None => false end.

End JsString.

(** ** MapDecoder: [parseAsciiMap] *)

Module MapDecoder.
Import JsString.

(** A grid is an array of rows, a row an array of one-character
    strings.  Rows need not have the same length. *)
Definition Grid : Type := list (list string).

(** [function parseAsciiMap(asciiMap)]; [None] is an absent
    ([undefined] or [null]) argument, which like the empty string is
    falsy. *)
Definition parseAsciiMap (asciiMap : option string) : Grid :=
  match asciiMap with
  | None => []
  | Some text =>
      if is_empty text then []
      else map chars (split newline (trim text))
  end.

(** A cell as the decoder makes them: exactly one character, and not
    the line separator. *)
Definition is_symbol (cell : string) : bool :=
  match cell with
  | String a EmptyString => negb (Ascii.eqb a newline)
  | _ => false
  end.

(** The text a grid stands for: the cells of a row glued together,
    rows separated by line feeds. *)
Definition unparse (g : Grid) : string :=
  join (String newline EmptyString) (map (join EmptyString) g).

End MapDecoder.

(** ** The [GameVisualization] module *)

Module GameVisualization.
Import JsString MapDecoder.

Definition TILE_SIZE : Z := 20.
Definition SPRITE_BASE_PATH : string := "/static/img/".

(** The object literal [MAP_SPRITES], in source order. *)
Definition MAP_SPRITES_entries : list (string * string) :=
  [ ("_", "border.png"); (" ", "empty.png"); (".", "floor_obj.png");
    ("b", "baba_obj.png"); ("B", "baba_word.png");
    ("s", "skull_obj.png"); ("S", "skull_word.png");
    ("f", "flag_obj.png"); ("F", "flag_word.png");
    ("o", "floor_obj.png"); ("O", "floor_word.png");
    ("a", "grass_obj.png"); ("A", "grass_word.png");
    ("l", "lava_obj.png"); ("L", "lava_word.png");
    ("r", "rock_obj.png"); ("R", "rock_word.png");
    ("w", "wall_obj.png"); ("W", "wall_word.png");
    ("k", "keke_obj.png"); ("K", "keke_word.png");
    ("g", "goop_obj.png"); ("G", "goop_word.png");
    ("v", "love_obj.png"); ("V", "love_word.png");
    ("1", "is_word.png"); ("2", "you_word.png"); ("3", "win_word.png");
    ("4", "kill_word.png"); ("5", "push_word.png");
    ("6", "stop_word.png"); ("7", "move_word.png");
    ("8", "hot_word.png"); ("9", "melt_word.png");
    ("0", "sink_word.png") ].

Definition MAP_SPRITES : gmap string string :=
  list_to_map MAP_SPRITES_entries.
Arguments MAP_SPRITES : simpl never.

(** Keys in [for (const key in MAP_SPRITES)] order: integer-like keys
    ascending, then the others in insertion order. *)
Definition MAP_SPRITES_keys : list string :=
  ["0"; "1"; "2"; "3"; "4"; "5"; "6"; "7"; "8"; "9"]
  ++ filter (fun k => negb (existsb (String.eqb k)
              ["0"; "1"; "2"; "3"; "4"; "5"; "6"; "7"; "8"; "9"]))
            (map fst MAP_SPRITES_entries).

(** An [Image] element, identified by the URL assigned to [img.src]. *)
Record Image : Type := { src : string }.

(** One element of [data.states]. *)
Record Snapshot : Type := { move : option string; ascii_map : option string }.

(** The [callbacks] bag: which of the optional function properties
    are present. *)
Record Callbacks : Type := {
  onStepUpdate : bool;
  onSolutionReady : bool;
  onNoSolution : bool;
  onPlaybackEnd : bool
}.

(** What the arrow function given to [setInterval] captures. *)
Record Closure : Type := { maxStepIndex : Z; timerCallbacks : Callbacks }.

(** Effects on the surroundings, in the order they happen. *)
Inductive Event : Type :=
| ImageLoad (url : string)                 (* img.src = imgSrc *)
| CanvasResize (width height : Z)          (* canvas.width/height = ... *)
| ClearRect                                (* ctx.clearRect(0,0,w,h) *)
| FillText (x2 y2 : Z)                     (* the "no data" message; doubled coordinates *)
| DrawImage (img : Image) (x y : Z)        (* ctx.drawImage(img,x,y,TILE,TILE) *)
| FillRect (x y : Z)                       (* the fallback tile *)
| FetchStates (ascii : option string) (solution : list string)
| SaveSolution (levelId : string) (totalSteps : Z)
| LocalStorageSet (levelId : string)
| StepUpdate (stepIndex total : Z)         (* callbacks.onStepUpdate(i, n) *)
| SolutionReady (moves : Z)                (* callbacks.onSolutionReady(n) *)
| NoSolution                               (* callbacks.onNoSolution() *)
| PlaybackEnd.                             (* callbacks.onPlaybackEnd() *)

(** The module-level variables, the canvas size, the browser's table
    of active intervals, and the trace. *)
Record World : Type := {
  SPRITE_IMAGES : gmap string Image;
  currentSolution : list string;
  currentStepIndex : Z;
  solutionPlayerInterval : option positive;
  precomputedStates : list Snapshot;
  canvasWidth : Z;
  canvasHeight : Z;
  timers : gmap positive Closure;
  trace : list Event
}.

Definition set_SPRITE_IMAGES (f : gmap string Image -> gmap string Image) (w : World) : World :=
  {| SPRITE_IMAGES := f (SPRITE_IMAGES w); currentSolution := currentSolution w;
     currentStepIndex := currentStepIndex w;
     solutionPlayerInterval := solutionPlayerInterval w;
     precomputedStates := precomputedStates w;
     canvasWidth := canvasWidth w; canvasHeight := canvasHeight w;
     timers := timers w; trace := trace w |}.

Definition set_currentSolution (v : list string) (w : World) : World :=
  {| SPRITE_IMAGES := SPRITE_IMAGES w; currentSolution := v;
     currentStepIndex := currentStepIndex w;
     solutionPlayerInterval := solutionPlayerInterval w;
     precomputedStates := precomputedStates w;
     canvasWidth := canvasWidth w; canvasHeight := canvasHeight w;
     timers := timers w; trace := trace w |}.

Definition set_currentStepIndex (v : Z) (w : World) : World :=
  {| SPRITE_IMAGES := SPRITE_IMAGES w; currentSolution := currentSolution w;
     currentStepIndex := v;
     solutionPlayerInterval := solutionPlayerInterval w;
     precomputedStates := precomputedStates w;
     canvasWidth := canvasWidth w; canvasHeight := canvasHeight w;
     timers := timers w; trace := trace w |}.

Definition set_solutionPlayerInterval (v : option positive) (w : World) : World :=
  {| SPRITE_IMAGES := SPRITE_IMAGES w; currentSolution := currentSolution w;
     currentStepIndex := currentStepIndex w;
     solutionPlayerInterval := v;
     precomputedStates := precomputedStates w;
     canvasWidth := canvasWidth w; canvasHeight := canvasHeight w;
     timers := timers w; trace := trace w |}.

Definition set_precomputedStates (v : list Snapshot) (w : World) : World :=
  {| SPRITE_IMAGES := SPRITE_IMAGES w; currentSolution := currentSolution w;
     currentStepIndex := currentStepIndex w;
     solutionPlayerInterval := solutionPlayerInterval w;
     precomputedStates := v;
     canvasWidth := canvasWidth w; canvasHeight := canvasHeight w;
     timers := timers w; trace := trace w |}.

Definition set_canvasSize (width height : Z) (w : World) : World :=
  {| SPRITE_IMAGES := SPRITE_IMAGES w; currentSolution := currentSolution w;
     currentStepIndex := currentStepIndex w;
     solutionPlayerInterval := solutionPlayerInterval w;
     precomputedStates := precomputedStates w;
     canvasWidth := width; canvasHeight := height;
     timers := timers w; trace := trace w |}.

Definition set_timers (f : gmap positive Closure -> gmap positive Closure) (w : World) : World :=
  {| SPRITE_IMAGES := SPRITE_IMAGES w; currentSolution := currentSolution w;
     currentStepIndex := currentStepIndex w;
     solutionPlayerInterval := solutionPlayerInterval w;
     precomputedStates := precomputedStates w;
     canvasWidth := canvasWidth w; canvasHeight := canvasHeight w;
     timers := f (timers w); trace := trace w |}.

Definition add_event (e : Event) (w : World) : World :=
  {| SPRITE_IMAGES := SPRITE_IMAGES w; currentSolution := currentSolution w;
     currentStepIndex := currentStepIndex w;
     solutionPlayerInterval := solutionPlayerInterval w;
     precomputedStates := precomputedStates w;
     canvasWidth := canvasWidth w; canvasHeight := canvasHeight w;
     timers := timers w; trace := trace w ++ [e] |}.

(** The module right after its script has been evaluated. *)
Definition initialWorld : World :=
  {| SPRITE_IMAGES := ∅; currentSolution := []; currentStepIndex := -1;
     solutionPlayerInterval := None; precomputedStates := [];
     canvasWidth := 300; canvasHeight := 150;
     timers := ∅; trace := [] |}.

(** *** The monad of module functions *)

Inductive Outcome (A : Type) : Type :=
| Ok (a : A)
| Throw.
Arguments Ok {A} a.
Arguments Throw {A}.

Definition M (A : Type) : Type := World -> Outcome A * World.

Definition ret {A} (a : A) : M A := fun w => (Ok a, w).

Definition bind {A B} (c : M A) (k : A -> M B) : M B :=
  fun w => match c w with
           | (Ok a, w') => k a w'
           | (Throw, w') => (Throw, w')
           end.

Definition throw {A} : M A := fun w => (Throw, w).

(** [try { body } catch (error) { handler }] *)
Definition try_catch {A} (body handler : M A) : M A :=
  fun w => match body w with
           | (Ok a, w') => (Ok a, w')
           | (Throw, w') => handler w'
           end.

(** A call to an [async] function whose promise is dropped: a
    rejection does not reach the caller. *)
Definition detached (c : M unit) : M unit :=
  fun w => (Ok tt, snd (c w)).

Definition get : M World := fun w => (Ok w, w).
Definition modify (f : World -> World) : M unit := fun w => (Ok tt, f w).
Definition emit (e : Event) : M unit := modify (add_event e).
Definition when (b : bool) (c : M unit) : M unit := if b then c else ret tt.

Declare Scope js_scope.
Delimit Scope js_scope with js.
Notation "x <- c ;; k" := (bind c (fun x => k))
  (at level 100, c at next level, right associativity) : js_scope.
Notation "c ;;; k" := (bind c (fun _ => k))
  (at level 100, right associativity) : js_scope.
Local Open Scope js_scope.

Fixpoint forEach {A} (l : list A) (body : A -> M unit) : M unit :=
  match l with
  | [] => ret tt
  | x :: l' => body x ;;; forEach l' body
  end.

Definition len {A} (l : list A) : Z := Z.of_nat (length l).

(** *** AssetCache: [loadSprite] *)

(** Property key of a possibly [undefined] value. *)
Definition key (v : option string) : string :=
  match v with Some s => s | None => "undefined" end.

Definition imageLoads (t : list Event) : list string :=
  omap (fun e => match e with ImageLoad u => Some u | _ => None end) t.

(** Where [loadSprite] stands when it first gives up control. *)
Inductive LoadStep : Type :=
| Returned (result : option Image)   (* resolved without downloading *)
| Suspended (img : Image).           (* waiting at [await img.decode()] *)

(** [loadSprite] up to its [await]: the cache test, the guard for
    unmapped names, the URL, [new Image()] and [img.src = imgSrc].
    Calling [endsWith] on [undefined] throws. *)
Definition loadSprite_start (spriteName : option string) : M LoadStep :=
  w <- get ;;
  match SPRITE_IMAGES w !! key spriteName with
  | Some img => ret (Returned (Some img))
  | None =>
      match MAP_SPRITES !! key spriteName, spriteName with
      | None, None => throw
      | None, Some name =>
          if negb (endsWith name ".png") then ret (Returned None)
          else
            let imgSrc := SPRITE_BASE_PATH ++ name in
            emit (ImageLoad imgSrc) ;;; ret (Suspended {| src := imgSrc |})
      | Some file, None => throw
      | Some file, Some name =>
          let imgSrc := if endsWith name ".png" then SPRITE_BASE_PATH ++ name
                        else SPRITE_BASE_PATH ++ file in
          emit (ImageLoad imgSrc) ;;; ret (Suspended {| src := imgSrc |})
      end
  end.

(** [loadSprite] after its [await]: [decoded] tells whether
    [img.decode()] fulfilled or rejected. *)
Definition loadSprite_settle (spriteName : option string) (img : Image)
    (decoded : bool) : M (option Image) :=
  if decoded then
    modify (set_SPRITE_IMAGES (insert (key spriteName) img)) ;;; ret (Some img)
  else ret None.

(** [preloadSprites] up to [await Promise.all(promises)]: every
    [loadSprite] call runs to its own [await] before any settles. *)
Definition preloadSprites_start : M (list LoadStep) :=
  (fix go (ks : list string) : M (list LoadStep) :=
     match ks with
     | [] => ret []
     | k :: ks' =>
         st <- loadSprite_start (MAP_SPRITES !! k) ;;
         rest <- go ks' ;;
         ret (st :: rest)
     end) MAP_SPRITES_keys.

Section Network.
(** [decodes n url]: whether the [n]-th image download of the page,
    of [url], decodes. *)
Variable decodes : nat -> string -> bool.

(** [async function loadSprite(spriteName)], awaited by its caller. *)
Definition loadSprite (spriteName : option string) : M (option Image) :=
  step <- loadSprite_start spriteName ;;
  match step with
  | Returned result => ret result
  | Suspended img =>
      w <- get ;;
      loadSprite_settle spriteName img
        (decodes (length (imageLoads (trace w))) (src img))
  end.

(** *** Renderer: [drawMap] *)

(** [mapArray[r][c]], for [r] below [mapArray.length]. *)
Definition cellAt (mapArray : Grid) (r c : nat) : option string :=
  match mapArray !! r with
  | Some row => row !! c
  | None => None
  end.

(** The body of the inner loop. *)
Definition drawTile (mapArray : Grid) (r c : nat) : M unit :=
  let char := cellAt mapArray r c in
  spriteImg <- loadSprite char ;;
  match spriteImg with
  | Some img =>
      emit (DrawImage img (Z.of_nat c * TILE_SIZE) (Z.of_nat r * TILE_SIZE))
  | None =>
      emit (FillRect (Z.of_nat c * TILE_SIZE) (Z.of_nat r * TILE_SIZE))
  end.

(** [async function drawMap(mapArray, canvas)] *)
Definition drawMap (mapArray : Grid) : M unit :=
  match mapArray with
  | [] =>
      w <- get ;;
      emit ClearRect ;;;
      emit (FillText (canvasWidth w) (canvasHeight w))
  | row0 :: _ =>
      let numRows := length mapArray in
      let numCols := length row0 in
      modify (set_canvasSize (Z.of_nat numCols * TILE_SIZE)
                             (Z.of_nat numRows * TILE_SIZE)) ;;;
      emit (CanvasResize (Z.of_nat numCols * TILE_SIZE)
                         (Z.of_nat numRows * TILE_SIZE)) ;;;
      emit ClearRect ;;;
      forEach (seq 0 numRows) (fun r =>
        forEach (seq 0 numCols) (fun c => drawTile mapArray r c))
  end.

(** *** PlaybackController *)

(** [async function displayPrecomputedStep(stepIndex, callbacks, canvas)] *)
Definition displayPrecomputedStep (stepIndex : Z) (callbacks : Callbacks) : M unit :=
  w <- get ;;
  let states := precomputedStates w in
  if len states =? 0 then ret tt
  else if (stepIndex <? 0) || (stepIndex >=? len states) then ret tt
  else
    match states !! Z.to_nat stepIndex with
    | None => throw                    (* [state.move] of [undefined] *)
    | Some state =>
        modify (set_currentStepIndex stepIndex) ;;;
        let mapArray := parseAsciiMap (ascii_map state) in
        drawMap mapArray ;;;
        w' <- get ;;
        when (onStepUpdate callbacks)
             (emit (StepUpdate stepIndex (len (precomputedStates w') - 1)))
    end.

(** [displayStep: async function(stepIndex, callbacks = {}, canvas)] *)
Definition displayStep (stepIndex : Z) (callbacks : Callbacks) : M unit :=
  displayPrecomputedStep stepIndex callbacks.

(** [clearInterval(handle)]; clearing [null] does nothing. *)
Definition clearInterval (handle : option positive) : M unit :=
  match handle with
  | Some id => modify (set_timers (delete id))
  | None => ret tt
  end.

(** [setInterval(callback, speed)]: the browser picks a handle that
    no active timer has; handles are positive, hence truthy. *)
Definition setInterval (callback : Closure) : M positive :=
  w <- get ;;
  let id := fresh (dom (timers w)) in
  modify (set_timers (insert id callback)) ;;; ret id.

(** The statement repeated in [init], [showGameView] and [cleanup]:
    [if (solutionPlayerInterval) { clearInterval(...); ... = null; }] *)
Definition stopPlayer : M unit :=
  w <- get ;;
  match solutionPlayerInterval w with
  | Some id =>
      clearInterval (Some id) ;;;
      modify (set_solutionPlayerInterval None)
  | None => ret tt
  end.

(** [init: function(config)] *)
Definition init : M unit :=
  modify (set_currentSolution []) ;;;
  modify (set_currentStepIndex (-1)) ;;;
  stopPlayer.

(** [cleanup: function()] *)
Definition cleanup : M unit :=
  stopPlayer ;;;
  modify (set_currentSolution []) ;;;
  modify (set_currentStepIndex (-1)) ;;;
  modify (set_precomputedStates []).

(** The value returned by [getState()]. *)
Record PlayerState : Type := {
  isPlaying : bool;
  currentStep : Z;
  totalSteps : Z;
  hasSolution : bool
}.

Definition getState (w : World) : PlayerState :=
  let total := if 0 <? len (precomputedStates w)
               then len (precomputedStates w) - 1
               else len (currentSolution w) in
  {| isPlaying := match solutionPlayerInterval w with
                  | Some _ => true | None => false end;
     currentStep := currentStepIndex w;
     totalSteps := total;
     hasSolution := 0 <? total |}.

(** The arrow function passed to [setInterval]; [displayPrecomputedStep]
    is called without [await]. *)
Definition intervalCallback (cl : Closure) : M unit :=
  w <- get ;;
  if currentStepIndex w <? maxStepIndex cl then
    let nextStep := currentStepIndex w + 1 in
    detached (displayPrecomputedStep nextStep (timerCallbacks cl))
  else
    clearInterval (solutionPlayerInterval w) ;;;
    modify (set_solutionPlayerInterval None) ;;;
    when (onPlaybackEnd (timerCallbacks cl)) (emit PlaybackEnd).

(** One firing of the interval [id]; a cleared interval does not fire. *)
Definition tick (id : positive) : M unit :=
  w <- get ;;
  match timers w !! id with
  | Some cl => intervalCallback cl
  | None => ret tt
  end.

(** [toggleSolutionPlayback: function(callbacks = {}, canvas, speed = 300)] *)
Definition toggleSolutionPlayback (callbacks : Callbacks) : M bool :=
  w <- get ;;
  match solutionPlayerInterval w with
  | Some id =>
      clearInterval (Some id) ;;;
      modify (set_solutionPlayerInterval None) ;;;
      ret false
  | None =>
      let maxIndex := if 0 <? len (precomputedStates w)
                      then len (precomputedStates w) - 1
                      else len (currentSolution w) - 1 in
      if maxIndex <? 0 then ret false
      else
        when (currentStepIndex w >=? maxIndex)
             (modify (set_currentStepIndex (-1))) ;;;
        id <- setInterval {| maxStepIndex := maxIndex;
                             timerCallbacks := callbacks |} ;;
        modify (set_solutionPlayerInterval (Some id)) ;;;
        ret true
  end.

(** The [solution] argument of [showGameView]. *)
Inductive Solution : Type :=
| SolutionArray (moves : list string)
| SolutionString (text : string)
| SolutionAbsent                       (* null, undefined, 0, false *)
| SolutionOther (asString : string).   (* anything else, by String(solution) *)

Definition toSolutionArray (solution : Solution) : list string :=
  match solution with
  | SolutionArray moves => moves
  | SolutionString text => chars text
  | SolutionAbsent => []
  | SolutionOther text => chars text
  end.

(** What comes back from [/generate_game_states]: every way of not
    getting a success body (rejected fetch, HTTP error, status other
    than success) ends in the same [throw]. *)
Inductive Response : Type :=
| Failure
| Success (states : list Snapshot).

(** How the POST to [/save_solution] ends. *)
Inductive SaveResult : Type :=
| Saved
| SaveRefused                          (* response not ok *)
| SaveUnreachable (stored : bool).     (* fetch rejected; localStorage result *)

(** [async function saveStepByStepSolution(states, levelId)]; the
    time stamp in the file name is left out. *)
Definition saveStepByStepSolution (states : list Snapshot) (levelId : string)
    (result : SaveResult) : M unit :=
  if len states =? 0 then ret tt
  else
    emit (SaveSolution levelId (len states - 1)) ;;;
    match result with
    | Saved | SaveRefused => ret tt
    | SaveUnreachable _ => emit (LocalStorageSet levelId)
    end.

(** [showGameView] up to [await fetch(...)]. *)
Definition showGameView_request (asciiMap : option string)
    (solution : Solution) : M (list string) :=
  stopPlayer ;;;
  modify (set_currentStepIndex (-1)) ;;;
  modify (set_precomputedStates []) ;;;
  let solutionArray := toSolutionArray solution in
  emit (FetchStates asciiMap solutionArray) ;;;
  ret solutionArray.

(** The fallback used twice: draw the initial map, report no solution. *)
Definition showInitialMap (asciiMap : option string) (callbacks : Callbacks) : M unit :=
  drawMap (parseAsciiMap asciiMap) ;;;
  when (onNoSolution callbacks) (emit NoSolution).

(** [showGameView] from the arrival of the response. *)
Definition showGameView_response (levelId : string) (asciiMap : option string)
    (solutionArray : list string) (callbacks : Callbacks)
    (response : Response) (saving : SaveResult) : M unit :=
  try_catch
    (match response with
     | Failure => throw
     | Success states =>
         modify (set_precomputedStates states) ;;;
         modify (set_currentSolution solutionArray) ;;;
         when (1 <? len states)
              (saveStepByStepSolution states levelId saving) ;;;
         if 0 <? len states then
           modify (set_currentStepIndex 0) ;;;
           displayPrecomputedStep 0 callbacks ;;;
           w <- get ;;
           when ((1 <? len (precomputedStates w)) && onSolutionReady callbacks)
                (emit (SolutionReady (len (precomputedStates w) - 1)))
         else showInitialMap asciiMap callbacks
     end)
    (showInitialMap asciiMap callbacks).

(** [showGameView: async function(levelId, asciiMap, solution, canvas, callbacks = {})] *)
Definition showGameView (levelId : string) (asciiMap : option string)
    (solution : Solution) (callbacks : Callbacks)
    (response : Response) (saving : SaveResult) : M unit :=
  solutionArray <- showGameView_request asciiMap solution ;;
  showGameView_response levelId asciiMap solutionArray callbacks response saving.

End Network.

End GameVisualization.

(** ** The page script: progress stream of a batch solve *)

Module ProgressStream.

(** What the page script needs from number formatting and from the
    DOM rendering of reports.  These parts compute with floating
    point ([toFixed], percentages) and build table rows; the stream
    handlers only pass values through them. *)
Class Rendering : Type := {
  Number : Type;
  Level : Type;
  Row : Type;
  Report : Type;
  Metrics : Type;
  numberToString : Number -> string;
  barWidth : Number -> Number -> string;     (* `${(current/total)*100}%` *)
  barColor : Number -> Number -> string;     (* the three colour bands *)
  from_cache : Report -> bool;               (* truthiness of report.from_cache *)
  levels : Report -> option (list Level);    (* report.levels when truthy *)
  levelRow : Level -> Row;                   (* one row built by displayLevels *)
  placeholderRow : Row;                      (* the "nothing to show" row *)
  blankMetrics : Metrics;                    (* every metric set to '-' *)
  reportMetrics : Report -> Metrics          (* what updateMetrics writes *)
}.

Section Page.
Context {R : Rendering}.

(** [JSON.parse(event.data)] *)
Record ProgressData : Type := {
  status : option string;
  current : Number;
  total : Number;
  report : option Report;
  error : option string
}.

(** The page: the elements the handlers write, the variable
    [progressEventSource], and the browser's open [EventSource]
    connections with the URLs ever opened. *)
Record PageState : Type := {
  statusMessage : string;
  loadingIndicatorShown : bool;
  solveBtnDisabled : bool;
  progressContainerShown : bool;
  gameViewShown : bool;
  progressText : string;
  progressBarWidth : string;
  progressBarColor : string;
  levelsBody : list Row;
  metrics : Metrics;
  progressEventSource : option positive;
  connections : gset positive;
  opened : list string;
  alerts : list string
}.

(** Template-literal rendering of a possibly absent string. *)
Definition interpolate (v : option string) : string :=
  match v with Some s => s | None => "undefined" end.

(** [function setStatus(message, isLoading)] *)
Definition setStatus (message : string) (isLoading : bool)
    (p : PageState) : PageState :=
  {| statusMessage := message;
     loadingIndicatorShown := isLoading;
     solveBtnDisabled := isLoading;
     progressContainerShown :=
       if isLoading then progressContainerShown p else false;
     gameViewShown := gameViewShown p;
     progressText := progressText p;
     progressBarWidth := progressBarWidth p;
     progressBarColor := progressBarColor p;
     levelsBody := levelsBody p; metrics := metrics p;
     progressEventSource := progressEventSource p;
     connections := connections p; opened := opened p;
     alerts := alerts p |}.

(** [function updateProgressBar(current, total)] *)
Definition updateProgressBar (cur tot : Number) (p : PageState) : PageState :=
  {| statusMessage := statusMessage p;
     loadingIndicatorShown := loadingIndicatorShown p;
     solveBtnDisabled := solveBtnDisabled p;
     progressContainerShown := true;
     gameViewShown := gameViewShown p;
     progressText := numberToString cur ++ "/" ++ numberToString tot;
     progressBarWidth := barWidth cur tot;
     progressBarColor := barColor cur tot;
     levelsBody := levelsBody p; metrics := metrics p;
     progressEventSource := progressEventSource p;
     connections := connections p; opened := opened p;
     alerts := alerts p |}.

Definition set_statusMessage (html : string) (p : PageState) : PageState :=
  {| statusMessage := html;
     loadingIndicatorShown := loadingIndicatorShown p;
     solveBtnDisabled := solveBtnDisabled p;
     progressContainerShown := progressContainerShown p;
     gameViewShown := gameViewShown p;
     progressText := progressText p;
     progressBarWidth := progressBarWidth p;
     progressBarColor := progressBarColor p;
     levelsBody := levelsBody p; metrics := metrics p;
     progressEventSource := progressEventSource p;
     connections := connections p; opened := opened p;
     alerts := alerts p |}.

(** Writes to the results table and to the six metric elements. *)
Definition set_results (rows : list Row) (m : Metrics) (p : PageState) : PageState :=
  {| statusMessage := statusMessage p;
     loadingIndicatorShown := loadingIndicatorShown p;
     solveBtnDisabled := solveBtnDisabled p;
     progressContainerShown := progressContainerShown p;
     gameViewShown := gameViewShown p;
     progressText := progressText p;
     progressBarWidth := progressBarWidth p;
     progressBarColor := progressBarColor p;
     levelsBody := rows; metrics := m;
     progressEventSource := progressEventSource p;
     connections := connections p; opened := opened p;
     alerts := alerts p |}.

(** Rows written by [displayLevels(levels)], which first empties
    the table. *)
Definition displayLevels (ls : list Level) : list Row :=
  match ls with
  | [] => [placeholderRow]
  | _ :: _ => map levelRow ls
  end.

(** [alert(message)] *)
Definition alert (message : string) (p : PageState) : PageState :=
  {| statusMessage := statusMessage p;
     loadingIndicatorShown := loadingIndicatorShown p;
     solveBtnDisabled := solveBtnDisabled p;
     progressContainerShown := progressContainerShown p;
     gameViewShown := gameViewShown p;
     progressText := progressText p;
     progressBarWidth := progressBarWidth p;
     progressBarColor := progressBarColor p;
     levelsBody := levelsBody p; metrics := metrics p;
     progressEventSource := progressEventSource p;
     connections := connections p; opened := opened p;
     alerts := alerts p ++ [message] |}.

(** [progressEventSource.close(); progressEventSource = null;]
    Calling [close] on [null] throws: [None]. *)
Definition closeStream (p : PageState) : option PageState :=
  match progressEventSource p with
  | None => None
  | Some id =>
      Some {| statusMessage := statusMessage p;
              loadingIndicatorShown := loadingIndicatorShown p;
              solveBtnDisabled := solveBtnDisabled p;
              progressContainerShown := progressContainerShown p;
              gameViewShown := gameViewShown p;
              progressText := progressText p;
              progressBarWidth := progressBarWidth p;
              progressBarColor := progressBarColor p;
              levelsBody := levelsBody p; metrics := metrics p;
              progressEventSource := None;
              connections := connections p ∖ {[id]};
              opened := opened p;
              alerts := alerts p |}
  end.

(** [progressEventSource = new EventSource(`/progress/${sessionId}`)] *)
Definition openStream (sessionId : string) (p : PageState) : PageState :=
  let id := fresh (connections p) in
  {| statusMessage := statusMessage p;
     loadingIndicatorShown := loadingIndicatorShown p;
     solveBtnDisabled := solveBtnDisabled p;
     progressContainerShown := progressContainerShown p;
     gameViewShown := gameViewShown p;
     progressText := progressText p;
     progressBarWidth := progressBarWidth p;
     progressBarColor := progressBarColor p;
     levelsBody := levelsBody p; metrics := metrics p;
     progressEventSource := Some id;
     connections := connections p ∪ {[id]};
     opened := opened p ++ ["/progress/" ++ sessionId];
     alerts := alerts p |}.

(** The click handler of the solve button up to its [await fetch]:
    without an agent or a level set it only alerts; otherwise an
    existing stream is closed, table and metrics are blanked, and the
    request is sent. *)
Definition solveClick_request (agentId levelSetId : string) (useCache : bool)
    (p : PageState) : PageState :=
  if (JsString.is_empty agentId || JsString.is_empty levelSetId)%bool
  then alert "Seleziona un agente e un set di livelli." p
  else
    let p1 := match closeStream p with Some p' => p' | None => p end in
    let p2 := setStatus ("Avvio risoluzione con " ++ agentId ++ " su "
                         ++ levelSetId
                         ++ (if useCache then " (con cache)" else "") ++ "...")
                        true p1 in
    let p3 := set_results [] blankMetrics p2 in
    {| statusMessage := statusMessage p3;
       loadingIndicatorShown := loadingIndicatorShown p3;
       solveBtnDisabled := solveBtnDisabled p3;
       progressContainerShown := true;
       gameViewShown := false;
       progressText := progressText p3;
       progressBarWidth := progressBarWidth p3;
       progressBarColor := progressBarColor p3;
       levelsBody := levelsBody p3; metrics := metrics p3;
       progressEventSource := progressEventSource p3;
       connections := connections p3; opened := opened p3;
       alerts := alerts p3 |}.

(** The same handler after the response: with a session id the
    stream is opened; any failure is shown and alerted. *)
Definition solveClick_response (response : string + string) (p : PageState)
    : PageState :=
  match response with
  | inl sessionId => openStream sessionId p
  | inr message =>
      alert ("Si è verificato un errore: " ++ message)
            (setStatus ("Errore: " ++ message) false p)
  end.

(** [progressEventSource.onmessage = (event) => { ... }] *)
Definition onmessage (progressData : ProgressData) (p : PageState)
    : option PageState :=
  if bool_decide (status progressData = Some "completed") then
    p1 ← closeStream p;
    Some (setStatus "Risoluzione completata." false p1)
  else if bool_decide (status progressData = Some "error") then
    p1 ← closeStream p;
    let p2 := setStatus ("Errore: " ++ interpolate (error progressData))
                        false p1 in
    Some (alert ("Si è verificato un errore: "
                 ++ interpolate (error progressData)) p2)
  else
    let cur := current progressData in
    let tot := total progressData in
    let fromCache := match report progressData with
                     | Some r => from_cache r | None => false end in
    let p1 := updateProgressBar cur tot p in
    let counts := numberToString cur ++ "/" ++ numberToString tot in
    let p2 := if fromCache
              then setStatus ("Caricamento risultato dalla cache: "
                              ++ counts ++ "...") true p1
              else setStatus ("Elaborazione livello " ++ counts ++ "...")
                             true p1 in
    match report progressData with
    | Some r =>
        match levels r with
        | Some ls =>
            let p3 := set_results (displayLevels ls) (reportMetrics r) p2 in
            Some (if fromCache
                  then set_statusMessage
                         ("Risultati caricati dalla cache: " ++ counts
                          ++ " <span class='from-cache'>(dalla cache)</span>") p3
                  else p3)
        | None => Some p2
        end
    | None => Some p2
    end.

(** [progressEventSource.onerror = (error) => { ... }] *)
Definition onerror (p : PageState) : option PageState :=
  p1 ← closeStream p;
  Some (setStatus "Errore nella connessione col server. Riprova." false p1).

End Page.

End ProgressStream.

(** * Vocabulary of the properties *)

Module Observations.
Import JsString MapDecoder GameVisualization.

(** Canvas calls and image downloads, as opposed to callbacks and
    HTTP requests. *)
Definition is_canvas_event (e : Event) : bool :=
  match e with
  | ImageLoad _ | CanvasResize _ _ | ClearRect | FillText _ _
  | DrawImage _ _ _ | FillRect _ _ => true
  | _ => false
  end.

(** Invocations of a function of the [callbacks] bag. *)
Definition is_notification (e : Event) : bool :=
  match e with
  | StepUpdate _ _ | SolutionReady _ | NoSolution | PlaybackEnd => true
  | _ => false
  end.

(** A tile put on the canvas, sprite or fallback, with its position. *)
Definition tile_position (e : Event) : option (Z * Z) :=
  match e with
  | DrawImage _ x y | FillRect x y => Some (x, y)
  | _ => None
  end.

(** What a call adds to the trace. *)
Definition new_events {A} (c : M A) (w : World) : list Event :=
  drop (length (trace w)) (trace (snd (c w))).

Definition notifications {A} (c : M A) (w : World) : list Event :=
  List.filter is_notification (new_events c w).

Definition downloads {A} (c : M A) (w : World) : list string :=
  imageLoads (new_events c w).

Definition allCallbacks : Callbacks :=
  {| onStepUpdate := true; onSolutionReady := true;
     onNoSolution := true; onPlaybackEnd := true |}.

(** [N], the number of moves of the loaded session: the last valid
    step index; [-1] when no session is loaded. *)
Definition lastIndex (w : World) : Z := len (precomputedStates w) - 1.

Definition in_range (w : World) : Prop :=
  0 <= currentStepIndex w <= lastIndex w.

(** No row is shorter than the first one. *)
Definition covers_first_row (g : Grid) : Prop :=
  match g with
  | [] => True
  | row0 :: _ => Forall (fun row => (length row0 <= length row)%nat) g
  end.

(** The positions [drawMap] visits: row by row, the columns of the
    first row. *)
Definition tile_positions (g : Grid) : list (Z * Z) :=
  match g with
  | [] => []
  | row0 :: _ =>
      flat_map (fun r => map (fun c => (Z.of_nat c * TILE_SIZE,
                                        Z.of_nat r * TILE_SIZE))
                             (seq 0 (length row0)))
               (seq 0 (length g))
  end.

(** The controller part of the world is the same in [w] and [w'], and
    [w'] has the events [evs] more, all of them canvas events. *)
Definition renders (w w' : World) (evs : list Event) : Prop :=
  currentSolution w' = currentSolution w
  /\ currentStepIndex w' = currentStepIndex w
  /\ solutionPlayerInterval w' = solutionPlayerInterval w
  /\ precomputedStates w' = precomputedStates w
  /\ timers w' = timers w
  /\ trace w' = (trace w ++ evs)%list
  /\ forallb is_canvas_event evs = true.

(** A computation that only renders, whatever its outcome, and that
    puts tiles at the positions [tiles] when it does not throw. *)
Definition draws {A} (c : M A) (tiles : list (Z * Z)) : Prop :=
  forall w, exists evs,
    renders w (snd (c w)) evs
    /\ (fst (c w) <> Throw -> omap tile_position evs = tiles).

(** [maxStepIndex] as [toggleSolutionPlayback] computes it. *)
Definition playbackLimit (w : World) : Z :=
  if 0 <? len (precomputedStates w)
  then len (precomputedStates w) - 1
  else len (currentSolution w) - 1.

(** The cache has no entry under the key of [undefined]. *)
Definition no_undefined_entry (w : World) : Prop :=
  SPRITE_IMAGES w !! "undefined" = None.

(** The browser's active intervals are exactly the one the module
    holds a handle of, if any. *)
Definition no_leaked_timer (w : World) : Prop :=
  dom (timers w) = match solutionPlayerInterval w with
                   | Some id => {[ id ]}
                   | None => ∅
                   end.

(** There is something to play: [maxStepIndex] of
    [toggleSolutionPlayback] is not negative. *)
Definition playable (w : World) : Prop :=
  precomputedStates w <> [] \/ currentSolution w <> [].

(** The world [toggleSolutionPlayback] leaves when it starts playback:
    rewound if it stood at or past the limit, with a new interval whose
    handle is stored. *)
Definition started (callbacks : Callbacks) (w : World) : World :=
  let id := fresh (dom (timers w)) in
  set_solutionPlayerInterval (Some id)
    (set_timers (insert id {| maxStepIndex := playbackLimit w;
                              timerCallbacks := callbacks |})
       (if currentStepIndex w >=? playbackLimit w
        then set_currentStepIndex (-1) w else w)).

(** The world [displayPrecomputedStep] leaves for a valid index whose
    snapshot is [state]: the index stored, the decoded map drawn, and
    the step reported if drawing came to its end. *)
Definition displayed (decodes : nat -> string -> bool) (stepIndex : Z)
    (callbacks : Callbacks) (state : Snapshot) (w : World) : Outcome unit * World :=
  let drawn := drawMap decodes (parseAsciiMap (ascii_map state))
                 (set_currentStepIndex stepIndex w) in
  match fst drawn with
  | Ok _ =>
      (Ok tt, if onStepUpdate callbacks
              then add_event (StepUpdate stepIndex (lastIndex w)) (snd drawn)
              else snd drawn)
  | Throw => (Throw, snd drawn)
  end.

(** The requests [saveStepByStepSolution] makes for a session of
    [moves] moves. *)
Definition save_requests (levelId : string) (moves : Z) (saving : SaveResult)
    : list Event :=
  SaveSolution levelId moves
  :: match saving with
     | SaveUnreachable _ => [LocalStorageSet levelId]
     | Saved | SaveRefused => []
     end.

(** Calls a page makes on a shown session. *)
Inductive Step : Type :=
| DisplayStep (stepIndex : Z) (callbacks : Callbacks)
| Tick (id : positive)
| Toggle (callbacks : Callbacks).

Definition step (decodes : nat -> string -> bool) (s : Step) (w : World) : World :=
  match s with
  | DisplayStep i callbacks => snd (displayStep decodes i callbacks w)
  | Tick id => snd (tick decodes id w)
  | Toggle callbacks => snd (toggleSolutionPlayback callbacks w)
  end.

Definition steps (decodes : nat -> string -> bool) (l : list Step) (w : World) : World :=
  fold_left (fun w s => step decodes s w) l w.

(** The step starts playback from a world standing at its last step:
    the case in which [toggleSolutionPlayback] rewinds. *)
Definition rewinds (s : Step) (w : World) : bool :=
  match s, solutionPlayerInterval w with
  | Toggle _, None => currentStepIndex w >=? playbackLimit w
  | _, _ => false
  end.

(** No step of the run rewinds. *)
Fixpoint never_rewinds (decodes : nat -> string -> bool) (l : list Step)
    (w : World) : bool :=
  match l with
  | [] => true
  | s :: l' => negb (rewinds s w) && never_rewinds decodes l' (step decodes s w)
  end.

(** A computation that leaves the interval table and the stored
    handle alone. *)
Definition keeps_timers {A} (c : M A) : Prop :=
  forall w, timers (snd (c w)) = timers w
            /\ solutionPlayerInterval (snd (c w)) = solutionPlayerInterval w.

(** Everything that can happen to the module: calls of its public
    functions, the arrival of a [showGameView] response, and the
    firing of an interval. *)
Inductive Call : Type :=
| Init
| ShowRequest (asciiMap : option string) (solution : Solution)
| ShowResponse (levelId : string) (asciiMap : option string)
    (solutionArray : list string) (callbacks : Callbacks)
    (response : Response) (saving : SaveResult)
| Session (s : Step)
| Cleanup.

Definition call (decodes : nat -> string -> bool) (c : Call) (w : World) : World :=
  match c with
  | Init => snd (init w)
  | ShowRequest asciiMap solution =>
      snd (showGameView_request asciiMap solution w)
  | ShowResponse levelId asciiMap solutionArray callbacks response saving =>
      snd (showGameView_response decodes levelId asciiMap solutionArray
             callbacks response saving w)
  | Session s => step decodes s w
  | Cleanup => snd (cleanup w)
  end.

(** The worlds the module can be in. *)
Inductive reachable (decodes : nat -> string -> bool) : World -> Prop :=
| reachable_initial : reachable decodes initialWorld
| reachable_call (c : Call) (w : World) :
    reachable decodes w -> reachable decodes (call decodes c w).

(** *** Concrete inputs *)

Definition line_feed : string := String newline EmptyString.

(** Every download succeeds. *)
Definition online : nat -> string -> bool := fun _ _ => true.
(** Every download fails. *)
Definition offline : nat -> string -> bool := fun _ _ => false.

Definition babaImage : Image := {| src := "/static/img/baba_obj.png" |}.

(** A two-by-two level whose last row ends in an empty tile. *)
Definition levelEndingInSpace : string := "bb" ++ line_feed ++ "b ".

Definition initialSnapshot : Snapshot :=
  {| move := None; ascii_map := Some ("b.f" ++ line_feed ++ "___") |}.
Definition afterRight : Snapshot :=
  {| move := Some "r"; ascii_map := Some (".bf" ++ line_feed ++ "___") |}.

(** A session of one move has been shown. *)
Definition oneMoveShown : World :=
  snd (showGameView online "lvl1" (ascii_map initialSnapshot)
         (SolutionArray ["r"]) allCallbacks
         (Success [initialSnapshot; afterRight]) Saved initialWorld).

(** ... and its last step displayed. *)
Definition atLastStep : World :=
  snd (displayStep online 1 allCallbacks oneMoveShown).

(** A second [showGameView] is waiting for its response when the
    play button is clicked; the response then carries no states. *)
Definition playingNothing : World :=
  let w1 := snd (showGameView_request (Some "b") SolutionAbsent oneMoveShown) in
  let w2 := snd (toggleSolutionPlayback allCallbacks w1) in
  snd (showGameView_response online "lvl2" (Some "b") [] allCallbacks
         (Success []) Saved w2).

(** *** Statements of the specification that the code does not satisfy,
    as they are worded *)

(** Two calls for a name whose first call has to download start one
    download between them. *)
Definition coalescing : Prop :=
  forall (w : World) (spriteName : option string) (img : Image),
    fst (loadSprite_start spriteName w) = Ok (Suspended img) ->
    length (downloads (bind (loadSprite_start spriteName)
                            (fun _ => loadSprite_start spriteName)) w) = 1%nat.

(** After a download has failed, later calls for the name return
    [null] and download nothing. *)
Definition failure_remembered : Prop :=
  forall (w : World) (spriteName : option string) (img : Image),
    fst (loadSprite_start spriteName w) = Ok (Suspended img) ->
    let failed := snd (bind (loadSprite_start spriteName)
                            (fun _ => loadSprite_settle spriteName img false) w) in
    loadSprite_start spriteName failed = (Ok (Returned None), failed).

(** A response with one state only is reported as "no solution". *)
Definition single_state_reported : Prop :=
  forall (decodes : nat -> string -> bool) (w : World) (levelId : string)
         (asciiMap : option string) (solutionArray : list string)
         (state : Snapshot) (saving : SaveResult),
    In NoSolution
       (notifications (showGameView_response decodes levelId asciiMap
                         solutionArray allCallbacks (Success [state]) saving) w).

(** Once in range, the step index is in range after any further calls. *)
Definition index_stays_in_range : Prop :=
  forall (decodes : nat -> string -> bool) (w : World) (calls : list Step),
    in_range w -> in_range (steps decodes calls w).

(** Two toggles give back the playing flag, whatever the state. *)
Definition toggle_twice_restores : Prop :=
  forall (w : World) (callbacks : Callbacks),
    no_leaked_timer w ->
    isPlaying (getState (snd (bind (toggleSolutionPlayback callbacks)
                                   (fun _ => toggleSolutionPlayback callbacks) w)))
    = isPlaying (getState w).

End Observations.

(** ** Vocabulary for the progress stream *)

Module StreamObservations.
Import ProgressStream.

Section Stopped.
Context {R : Rendering}.

(** From [p] to [p']: the stream [id] is closed and forgotten, nothing
    was opened in its place, [message] is the status text, the loading
    indicator is hidden, and the results table and the metrics are
    what they were. *)
Definition stopped_with (p p' : PageState) (id : positive) (message : string) : Prop :=
  progressEventSource p' = None
  /\ connections p' = connections p ∖ {[ id ]}
  /\ opened p' = opened p
  /\ statusMessage p' = message
  /\ loadingIndicatorShown p' = false
  /\ levelsBody p' = levelsBody p
  /\ metrics p' = metrics p.

End Stopped.

(** A rendering without content, to run the handlers on. *)
Definition plainRendering : Rendering :=
  {| Number := Z; Level := string; Row := string; Report := list string;
     Metrics := string;
     numberToString := fun _ => "n";
     barWidth := fun _ _ => "w";
     barColor := fun _ _ => "c";
     from_cache := fun _ => false;
     levels := fun r => Some r;
     levelRow := fun l => l;
     placeholderRow := "none";
     blankMetrics := "-";
     reportMetrics := fun _ => "m" |}.

(** A page in the middle of a batch solve: one row shown, the stream
    [1] open. *)
Definition solving : @PageState plainRendering :=
  @Build_PageState plainRendering
    "Elaborazione livello n/n..." true true true false "n/n" "w" "c"
    ["level 1"] "m" (Some 1%positive) {[ 1%positive ]}
    ["/progress/abc"] [].

Definition errorEvent : @ProgressData plainRendering :=
  @Build_ProgressData plainRendering
    (Some "error") 0 0 None (Some "solver crashed").

End StreamObservations.

(** * More of the two scripts *)

(** ** [GameVisualization]: preloading and the empty canvas *)

Module Startup.
Import JsString MapDecoder GameVisualization.
Local Open Scope js_scope.

(** The arguments of the [loadSprite] calls of [preloadSprites]:
    [MAP_SPRITES[key]] for every key, that is, file names. *)
Definition preloadedNames : list (option string) :=
  map (fun k => MAP_SPRITES !! k) MAP_SPRITES_keys.

(** The loop of [preloadSprites]: each call runs to its [await], and
    is kept with its argument. *)
Fixpoint startCalls (names : list (option string))
    : M (list (option string * LoadStep)) :=
  match names with
  | [] => ret []
  | name :: rest =>
      step <- loadSprite_start name ;;
      calls <- startCalls rest ;;
      ret ((name, step) :: calls)
  end.

(** The waiting calls settle, here in the order they were made;
    [decoded i] tells whether the image of call [i] decodes. *)
Fixpoint settleCalls (decoded : nat -> bool) (i : nat)
    (calls : list (option string * LoadStep)) : M unit :=
  match calls with
  | [] => ret tt
  | (name, step) :: rest =>
      match step with
      | Returned _ => ret tt
      | Suspended img =>
          _ <- loadSprite_settle name img (decoded i) ;; ret tt
      end ;;;
      settleCalls decoded (S i) rest
  end.

(** [preloadSprites: async function()] *)
Definition preloadSprites (decoded : nat -> bool) : M unit :=
  calls <- startCalls preloadedNames ;;
  settleCalls decoded 0 calls.

(** [drawEmptyMap: function(canvas)] *)
Definition drawEmptyMap : M unit :=
  w <- get ;;
  emit ClearRect ;;;
  emit (FillText (canvasWidth w) (canvasHeight w)).

End Startup.

(** ** The page script: the buttons of the game view *)

Module PageControls.
Import JsString MapDecoder GameVisualization.
Local Open Scope js_scope.

(** [visualizationCallbacks]: all four functions are given. *)
Definition visualizationCallbacks : Callbacks :=
  {| onStepUpdate := true; onSolutionReady := true;
     onNoSolution := true; onPlaybackEnd := true |}.

(** The three buttons of the game view, and the label of the play
    button. *)
Record Buttons : Type := {
  prevDisabled : bool;
  nextDisabled : bool;
  playDisabled : bool;
  playShowsPause : bool     (* "Pausa Soluzione" rather than "Avvia Soluzione" *)
}.

(** What the four functions of [visualizationCallbacks] do to the
    buttons when the module invokes them; [playing] is
    [GameVisualization.getState().isPlaying] at that time. *)
Definition notify (playing : bool) (e : Event) (b : Buttons) : Buttons :=
  match e with
  | StepUpdate currentStep totalSteps =>
      {| prevDisabled := currentStep =? 0;
         nextDisabled := currentStep =? totalSteps;
         playDisabled := playDisabled b;
         playShowsPause := playing |}
  | SolutionReady totalSteps =>
      {| prevDisabled := true;
         nextDisabled := totalSteps <=? 1;
         playDisabled := false;
         playShowsPause := playShowsPause b |}
  | NoSolution =>
      {| prevDisabled := true;
         nextDisabled := true;
         playDisabled := true;
         playShowsPause := playShowsPause b |}
  | PlaybackEnd =>
      {| prevDisabled := prevDisabled b;
         nextDisabled := nextDisabled b;
         playDisabled := playDisabled b;
         playShowsPause := false |}
  | _ => b
  end.

(** The click handler of [prevStepBtn]; the promise of [displayStep]
    is dropped. *)
Definition prevStepClick (decodes : nat -> string -> bool) : M unit :=
  w <- get ;;
  let state := getState w in
  if 0 <? currentStep state then
    detached (displayStep decodes (currentStep state - 1) visualizationCallbacks)
  else ret tt.

(** The click handler of [nextStepBtn]. *)
Definition nextStepClick (decodes : nat -> string -> bool) : M unit :=
  w <- get ;;
  let state := getState w in
  if hasSolution state && (currentStep state <? totalSteps state) then
    detached (displayStep decodes (currentStep state + 1) visualizationCallbacks)
  else ret tt.

(** The click handler of [playSolutionBtn]: the result is the new
    label, [true] for "Pausa Soluzione". *)
Definition playClick : M bool :=
  toggleSolutionPlayback visualizationCallbacks.

(** The click handler of [closeGameViewBtn]. *)
Definition closeClick : M unit := cleanup.

End PageControls.

(** ** The page script: a batch solve from click to completion *)

Module SolveSession.
Import ProgressStream.

Section Page.
Context {R : Rendering}.

(** The click handler of [solveBtn] from the click to the answer of
    [/solve_level_set]: without an agent or a level set it returns
    after its alert, before any request. *)
Definition solveClick (agentId levelSetId : string) (useCache : bool)
    (response : string + string) (p : PageState) : PageState :=
  if (JsString.is_empty agentId || JsString.is_empty levelSetId)%bool
  then solveClick_request agentId levelSetId useCache p
  else solveClick_response response
         (solveClick_request agentId levelSetId useCache p).

(** What happens to the page during batch solves: clicks on the
    solve button (with the answer of the server), and the events of an
    open stream. *)
Inductive PageEvent : Type :=
| SolveClick (agentId levelSetId : string) (useCache : bool)
    (response : string + string)
| Message (progressData : ProgressData)
| StreamError.

(** The handler run for an event; [None] when it throws.  The
    browser delivers stream events only while a connection is open. *)
Definition handle (e : PageEvent) (p : PageState) : option PageState :=
  match e with
  | SolveClick agentId levelSetId useCache response =>
      Some (solveClick agentId levelSetId useCache response p)
  | Message progressData =>
      if decide (connections p = ∅) then Some p else onmessage progressData p
  | StreamError =>
      if decide (connections p = ∅) then Some p else onerror p
  end.





End Page.

End SolveSession.

(** Events to run the handlers on. *)
Module SolveExamples.
Import ProgressStream StreamObservations SolveSession.



End SolveExamples.

(** ** The leaderboard: the level-set filter *)

Module Leaderboard.

Section Table.
(** An entry of [data.leaderboard]; the filter reads its [level_set],
    a string, only. *)
Variable Item : Type.
Variable level_set : Item -> string.

(** [[...new Set(values)]]: the values in the order of their first
    appearance. *)
Definition unique (values : list string) : list string :=
  fold_left (fun seen v => if bool_decide (v ∈ seen) then seen
                           else (seen ++ [v])%list)
            values [].

(** [updateFilters]: the values of the options [levelSetFilter] is
    given, "all" first. *)
Definition updateFilters (leaderboardData : list Item) : list string :=
  "all" :: unique (map level_set leaderboardData).

(** The filter step of [applyFilters], before sorting. *)
Definition filterRows (selectedLevelSet : string) (leaderboardData : list Item)
    : list Item :=
  List.filter (fun item =>
                 if String.eqb selectedLevelSet "all" then true
                 else String.eqb (level_set item) selectedLevelSet)
              leaderboardData.

End Table.

End Leaderboard.

(** ** Vocabulary for the further properties *)

Module Coverage.
Import JsString MapDecoder GameVisualization Observations Startup PageControls.

(** A computation that keeps the property [P] of the world, whatever
    its outcome. *)
Definition preserves (P : World -> Prop) {A} (c : M A) : Prop :=
  forall w, P w -> P (snd (c w)).

(** A property of the world that neither the trace nor the fields of
    the controller and of the canvas bear on: it speaks of the sprite
    cache only. *)
Definition cache_property (P : World -> Prop) : Prop :=
  forall w w', SPRITE_IMAGES w' = SPRITE_IMAGES w -> P w -> P w'.

(** The URL [loadSprite] downloads for a name. *)
Definition sprite_url (name : string) : string :=
  if endsWith name ".png" then SPRITE_BASE_PATH ++ name
  else SPRITE_BASE_PATH ++ default "" (MAP_SPRITES !! name).

(** Every cache entry sits under a name that is mapped or is a file
    name, and holds the image of that name's URL. *)
Definition cache_consistent (w : World) : Prop :=
  forall (name : string) (img : Image),
    SPRITE_IMAGES w !! name = Some img ->
    (is_Some (MAP_SPRITES !! name) \/ endsWith name ".png" = true)
    /\ src img = sprite_url name.

(** [P] survives the storing of an image under a name that is
    mapped or is a file name, when the image is that of the name's
    URL. *)
Definition insert_stable (P : World -> Prop) : Prop :=
  forall (w : World) (name : string) (img : Image),
    P w ->
    is_Some (MAP_SPRITES !! name) \/ endsWith name ".png" = true ->
    src img = sprite_url name ->
    P (set_SPRITE_IMAGES (insert name img) w).

(** A call of [preloadSprites] that waits does so for the image of
    its name's URL, the name being mapped or a file name. *)
Definition well_started (started : option string * LoadStep) : Prop :=
  match started with
  | (_, Returned _) => True
  | (spriteName, Suspended img) =>
      exists name, spriteName = Some name
                   /\ (is_Some (MAP_SPRITES !! name) \/ endsWith name ".png" = true)
                   /\ src img = sprite_url name
  end.

(** An argument of [loadSprite] that is a file name. *)
Definition is_file (name : option string) : Prop :=
  exists file, name = Some file /\ endsWith file ".png" = true.


(** What the page does with the module: the calls of [Call], the
    preloading at start-up and the empty canvas. *)
Inductive Action : Type :=
| ModuleCall (c : Call)
| Preload (decoded : nat -> bool)
| DrawEmpty.

Definition act (decodes : nat -> string -> bool) (a : Action) (w : World) : World :=
  match a with
  | ModuleCall c => call decodes c w
  | Preload decoded => snd (preloadSprites decoded w)
  | DrawEmpty => snd (drawEmptyMap w)
  end.

Definition acts (decodes : nat -> string -> bool) (l : list Action) (w : World) : World :=
  fold_left (fun w a => act decodes a w) l w.

(** [n] firings of the interval [id] in a row. *)
Definition ticks (decodes : nat -> string -> bool) (id : positive) (n : nat)
    (w : World) : World :=
  Nat.iter n (fun w => snd (tick decodes id w)) w.



(** Requests and callbacks, as opposed to canvas calls and downloads. *)
Definition is_message (e : Event) : bool := negb (is_canvas_event e).

(** The world after a click on "previous", on "next". *)
Definition afterPrev (decodes : nat -> string -> bool) (w : World) : World :=
  snd (prevStepClick decodes w).
Definition afterNext (decodes : nat -> string -> bool) (w : World) : World :=
  snd (nextStepClick decodes w).

(** The buttons after a call that leaves the interval alone: the
    callbacks it has invoked, applied in order. *)
Definition buttonsAfter {A} (c : M A) (w : World) (b : Buttons) : Buttons :=
  fold_left (fun b e => notify (isPlaying (getState w)) e b)
            (notifications c w) b.

(** *** Concrete inputs *)

(** The session of one move while it plays. *)
Definition playingSession : World :=
  snd (toggleSolutionPlayback allCallbacks oneMoveShown).

(** A second level has been asked for and its states are awaited. *)
Definition awaitingStates : World :=
  snd (showGameView_request (Some "b") SolutionAbsent oneMoveShown).

Definition smallGrid : Grid := [["b"; "."]; ["_"; "_"]].

Definition allDisabled : Buttons :=
  {| prevDisabled := true; nextDisabled := true; playDisabled := true;
     playShowsPause := false |}.

(** Some row is shorter than the first one, as a test. *)
Definition has_short_row (g : Grid) : bool :=
  match g with
  | [] => false
  | row0 :: _ => existsb (fun row => Nat.ltb (length row) (length row0)) g
  end.

End Coverage.

(** * Properties *)

Local Open Scope list_scope.

(** ** The decoder *)

Section DecoderFacts.
Import JsString MapDecoder.

Lemma append_cons (a : ascii) (s t : string) :
  (String a s ++ t)%string = String a (s ++ t)%string.
Proof. reflexivity. Qed.

Lemma append_nil (t : string) : ("" ++ t)%string = t.
Proof. reflexivity. Qed.

Lemma trimStart_prefix (s : string) :
  exists pre, s = (pre ++ trimStart s)%string /\ all_whitespace pre = true.
Proof.
  induction s as [|a s [pre [Hs Hpre]]]; simpl.
  - exists ""%string. split; reflexivity.
  - destruct (is_whitespace a) eqn:Ha.
    + exists (String a pre). rewrite append_cons. simpl.
      rewrite Ha, Hpre. split; [|reflexivity].
      now rewrite <- Hs.
    + exists ""%string. split; reflexivity.
Qed.

Lemma trimStart_first (s : string) : starts_with_whitespace (trimStart s) = false.
Proof.
  unfold starts_with_whitespace.
  induction s as [|a s IH]; simpl; [reflexivity|].
  destruct (is_whitespace a) eqn:Ha; [exact IH | simpl; exact Ha].
Qed.

Lemma is_empty_true (s : string) : is_empty s = true -> s = ""%string.
Proof. destruct s; simpl; [reflexivity | discriminate]. Qed.

Lemma trimEnd_suffix (s : string) :
  exists post, s = (trimEnd s ++ post)%string /\ all_whitespace post = true.
Proof.
  induction s as [|a s [post [Hs Hpost]]]; simpl.
  - exists ""%string. split; reflexivity.
  - destruct (is_whitespace a && is_empty (trimEnd s))%bool eqn:Hc.
    + apply andb_true_iff in Hc as [Ha He].
      apply is_empty_true in He. rewrite He, append_nil in Hs.
      exists (String a s). rewrite append_nil. simpl. split; [reflexivity|].
      rewrite Ha. simpl. now rewrite Hs.
    + exists post. rewrite append_cons. split; [now rewrite <- Hs | exact Hpost].
Qed.

Lemma trimEnd_last (s : string) : ends_with_whitespace (trimEnd s) = false.
Proof.
  unfold ends_with_whitespace.
  induction s as [|a s IH]; simpl; [reflexivity|].
  destruct (is_whitespace a && is_empty (trimEnd s))%bool eqn:Hc;
    [reflexivity|].
  destruct (trimEnd s) as [|b t] eqn:Ht.
  - simpl in *. rewrite andb_true_r in Hc. exact Hc.
  - exact IH.
Qed.

Lemma trimEnd_first (s : string) :
  starts_with_whitespace s = false ->
  starts_with_whitespace (trimEnd s) = false.
Proof.
  unfold starts_with_whitespace.
  destruct s as [|a s]; simpl; [reflexivity|].
  intros Ha. rewrite Ha. simpl. exact Ha.
Qed.

Lemma trim_decomposition (s : string) :
  exists pre post, s = (pre ++ trim s ++ post)%string
                   /\ all_whitespace pre = true /\ all_whitespace post = true.
Proof.
  destruct (trimStart_prefix s) as [pre [Hs Hpre]].
  destruct (trimEnd_suffix (trimStart s)) as [post [Ht Hpost]].
  exists pre, post. unfold trim. rewrite <- Ht. auto.
Qed.

Lemma split_nonempty (sep : ascii) (s : string) : split sep s <> [].
Proof.
  destruct s as [|a s]; simpl; [discriminate|].
  destruct (Ascii.eqb a sep); [discriminate|].
  destruct (split sep s); discriminate.
Qed.

Lemma join_split (sep : ascii) (s : string) :
  join (String sep EmptyString) (split sep s) = s.
Proof.
  induction s as [|a s IH]; simpl; [reflexivity|].
  destruct (Ascii.eqb a sep) eqn:Ha.
  - apply Ascii.eqb_eq in Ha. subst a.
    destruct (split sep s) as [|p rest] eqn:Hsp.
    + now apply split_nonempty in Hsp.
    + simpl in *. rewrite IH. reflexivity.
  - destruct (split sep s) as [|p rest] eqn:Hsp.
    + now apply split_nonempty in Hsp.
    + destruct rest as [|q rest]; simpl in *;
        rewrite ?append_cons; now rewrite <- IH.
Qed.

Lemma length_split (sep : ascii) (s : string) :
  length (split sep s) = S (count_char sep s).
Proof.
  induction s as [|a s IH]; simpl; [reflexivity|].
  destruct (Ascii.eqb a sep); simpl.
  - now rewrite IH.
  - destruct (split sep s) as [|p rest] eqn:Hsp; simpl in *; lia.
Qed.

Lemma split_pieces (sep : ascii) (s : string) :
  Forall (fun piece => count_char sep piece = O) (split sep s).
Proof.
  induction s as [|a s IH]; simpl.
  - constructor; [reflexivity | constructor].
  - destruct (Ascii.eqb a sep) eqn:Ha.
    + constructor; [reflexivity | exact IH].
    + destruct (split sep s) as [|p rest].
      * constructor; [simpl; now rewrite Ha | constructor].
      * inversion IH as [|? ? Hp Hrest]; subst.
        constructor; [simpl; now rewrite Ha, Hp | exact Hrest].
Qed.

Lemma join_chars (s : string) : join EmptyString (chars s) = s.
Proof.
  induction s as [|a s IH]; simpl; [reflexivity|].
  destruct s as [|b s]; [reflexivity|].
  simpl in *. rewrite IH. reflexivity.
Qed.

Lemma length_chars (s : string) : length (chars s) = String.length s.
Proof. induction s as [|a s IH]; simpl; [reflexivity | now rewrite IH]. Qed.

Lemma chars_symbols (s : string) :
  count_char newline s = O -> forallb is_symbol (chars s) = true.
Proof.
  induction s as [|a s IH]; simpl; [reflexivity|].
  destruct (Ascii.eqb a newline); simpl; [discriminate | exact IH].
Qed.

Lemma unparse_lines (pieces : list string) :
  unparse (map chars pieces) = join (String newline EmptyString) pieces.
Proof.
  unfold unparse. f_equal.
  induction pieces as [|p ps IH]; simpl; [reflexivity|].
  now rewrite join_chars, IH.
Qed.

Lemma lines_symbols (pieces : list string) :
  Forall (fun piece => count_char newline piece = O) pieces ->
  forallb (forallb is_symbol) (map chars pieces) = true.
Proof.
  induction 1 as [|p ps Hp _ IH]; simpl; [reflexivity|].
  now rewrite chars_symbols, IH.
Qed.

(** C9.  [parseAsciiMap] is a total function of its argument alone:
    it has no access to the world and no effect on it, so equal
    texts give equal grids.  An absent or empty text decodes to the
    empty grid.  For any other text the decoder drops exactly a
    whitespace prefix and a whitespace suffix, the result neither
    starts nor ends with whitespace, and the grid holds that trimmed
    text line by line and character by character: writing the cells
    back, rows separated by line feeds, gives the trimmed text, there
    is one row per line, each row is as long as its line (ragged
    rows are kept as they are), and every cell is one character other
    than the line feed. *)
Theorem parseAsciiMap_pure_total (asciiMap : option string) :
  (forall other, other = asciiMap -> parseAsciiMap other = parseAsciiMap asciiMap)
  /\ match asciiMap with
     | None => parseAsciiMap asciiMap = []
     | Some text =>
         if is_empty text then parseAsciiMap asciiMap = []
         else
           (exists pre post,
               text = (pre ++ trim text ++ post)%string
               /\ all_whitespace pre = true /\ all_whitespace post = true)
           /\ starts_with_whitespace (trim text) = false
           /\ ends_with_whitespace (trim text) = false
           /\ unparse (parseAsciiMap asciiMap) = trim text
           /\ length (parseAsciiMap asciiMap)
              = S (count_char newline (trim text))
           /\ map (@length string) (parseAsciiMap asciiMap)
              = map String.length (split newline (trim text))
           /\ forallb (forallb is_symbol) (parseAsciiMap asciiMap) = true
     end.
Proof.
  split; [intros other ->; reflexivity|].
  destruct asciiMap as [text|]; [|reflexivity].
  unfold parseAsciiMap.
  destruct (is_empty text) eqn:He; [reflexivity|].
  split; [apply trim_decomposition|].
  split; [unfold trim; apply trimEnd_first, trimStart_first|].
  split; [unfold trim; apply trimEnd_last|].
  split; [rewrite unparse_lines; apply join_split|].
  split; [rewrite length_map; apply length_split|].
  split; [|apply lines_symbols, split_pieces].
  rewrite map_map. apply map_ext. intros piece. apply length_chars.
Qed.

End DecoderFacts.

(** ** The renderer *)

Section RendererFacts.
Import JsString MapDecoder GameVisualization Observations.
Local Open Scope js_scope.

Lemma bind_ret {A B} (a : A) (k : A -> M B) (w : World) :
  bind (ret a) k w = k a w.
Proof. reflexivity. Qed.

Lemma bind_get {B} (k : World -> M B) (w : World) : bind get k w = k w w.
Proof. reflexivity. Qed.

Lemma bind_modify {B} (f : World -> World) (k : unit -> M B) (w : World) :
  bind (modify f) k w = k tt (f w).
Proof. reflexivity. Qed.

Lemma bind_emit {B} (e : Event) (k : unit -> M B) (w : World) :
  bind (emit e) k w = k tt (add_event e w).
Proof. reflexivity. Qed.

Lemma bind_assoc {A B C} (c : M A) (k : A -> M B) (h : B -> M C) (w : World) :
  bind (bind c k) h w = bind c (fun a => bind (k a) h) w.
Proof. unfold bind. destruct (c w) as [[a|] w1]; reflexivity. Qed.

Lemma renders_refl (w : World) : renders w w [].
Proof. unfold renders. rewrite app_nil_r. repeat split. Qed.

Lemma renders_trans (w w1 w2 : World) (e1 e2 : list Event) :
  renders w w1 e1 -> renders w1 w2 e2 -> renders w w2 (e1 ++ e2).
Proof.
  intros (A1 & A2 & A3 & A4 & A5 & A6 & A7) (B1 & B2 & B3 & B4 & B5 & B6 & B7).
  unfold renders.
  rewrite B1, B2, B3, B4, B5, B6, A6, forallb_app, A7, B7, app_assoc.
  repeat split; assumption.
Qed.

Lemma renders_new_events {A} (c : M A) (w : World) (evs : list Event) :
  renders w (snd (c w)) evs -> new_events c w = evs.
Proof.
  intros (_ & _ & _ & _ & _ & Ht & _). unfold new_events.
  rewrite Ht. apply drop_app_length.
Qed.

Lemma omap_tiles_app (e1 e2 : list Event) :
  omap tile_position (e1 ++ e2)
  = (omap tile_position e1 ++ omap tile_position e2)%list.
Proof. apply omap_app. Qed.

Lemma draws_ret {A} (a : A) : draws (ret a) [].
Proof. intros w. exists []. split; [apply renders_refl | reflexivity]. Qed.

Lemma draws_throw {A} : draws (@throw A) [].
Proof. intros w. exists []. split; [apply renders_refl | reflexivity]. Qed.

Lemma draws_get : draws get [].
Proof. intros w. exists []. split; [apply renders_refl | reflexivity]. Qed.

Lemma draws_bind {A B} (c : M A) (k : A -> M B) (t1 t2 t : list (Z * Z)) :
  draws c t1 -> (forall a, draws (k a) t2) -> t = (t1 ++ t2)%list ->
  draws (bind c k) t.
Proof.
  intros Hc Hk -> w. unfold bind.
  destruct (Hc w) as [e1 [H1 T1]].
  destruct (c w) as [[a|] w1]; simpl in H1, T1.
  - destruct (Hk a w1) as [e2 [H2 T2]]. exists (e1 ++ e2)%list.
    split; [eapply renders_trans; eassumption|].
    intros Hok. rewrite omap_tiles_app, T1, T2; [reflexivity | exact Hok | discriminate].
  - exists e1. split; [exact H1 | intros Hok; now elim Hok].
Qed.

Lemma draws_after {A B} (c : M A) (k : A -> M B) (t : list (Z * Z)) :
  draws c [] -> (forall a, draws (k a) t) -> draws (bind c k) t.
Proof. intros Hc Hk. eapply draws_bind; [exact Hc | exact Hk | reflexivity]. Qed.

Lemma draws_emit (e : Event) :
  is_canvas_event e = true -> draws (emit e) (omap tile_position [e]).
Proof.
  intros He w. exists [e]. split; [|reflexivity].
  unfold renders. simpl. rewrite He. repeat split.
Qed.

Lemma draws_cache (f : gmap string Image -> gmap string Image) :
  draws (modify (set_SPRITE_IMAGES f)) [].
Proof.
  intros w. exists []. split; [|reflexivity].
  unfold renders. simpl. rewrite app_nil_r. repeat split.
Qed.

Lemma draws_resize (width height : Z) :
  draws (modify (set_canvasSize width height)) [].
Proof.
  intros w. exists []. split; [|reflexivity].
  unfold renders. simpl. rewrite app_nil_r. repeat split.
Qed.

Lemma draws_forEach {A} (l : list A) (body : A -> M unit) (f : A -> list (Z * Z)) :
  (forall x, draws (body x) (f x)) -> draws (forEach l body) (flat_map f l).
Proof.
  intros Hb. induction l as [|x l IH]; simpl.
  - apply draws_ret.
  - eapply draws_bind; [apply Hb | intros _; exact IH | reflexivity].
Qed.

Lemma draws_loadSprite_start (spriteName : option string) :
  draws (loadSprite_start spriteName) [].
Proof.
  unfold loadSprite_start.
  eapply draws_bind; [apply draws_get | | reflexivity]. intros w.
  destruct (SPRITE_IMAGES w !! key spriteName); [apply draws_ret|].
  destruct (MAP_SPRITES !! key spriteName), spriteName as [name|];
    try apply draws_throw.
  - eapply draws_bind;
      [now apply draws_emit | intros _; apply draws_ret | reflexivity].
  - destruct (negb (endsWith name ".png")); [apply draws_ret|].
    eapply draws_bind;
      [now apply draws_emit | intros _; apply draws_ret | reflexivity].
Qed.

Lemma draws_loadSprite_settle (spriteName : option string) (img : Image)
    (decoded : bool) :
  draws (loadSprite_settle spriteName img decoded) [].
Proof.
  unfold loadSprite_settle. destruct decoded; [|apply draws_ret].
  eapply draws_bind;
    [apply draws_cache | intros _; apply draws_ret | reflexivity].
Qed.

Lemma draws_loadSprite decodes (spriteName : option string) :
  draws (loadSprite decodes spriteName) [].
Proof.
  unfold loadSprite.
  eapply draws_bind; [apply draws_loadSprite_start | | reflexivity].
  intros [result|img]; [apply draws_ret|].
  eapply draws_bind; [apply draws_get | | reflexivity].
  intros w. apply draws_loadSprite_settle.
Qed.

Lemma draws_drawTile decodes (g : Grid) (r c : nat) :
  draws (drawTile decodes g r c)
        [(Z.of_nat c * TILE_SIZE, Z.of_nat r * TILE_SIZE)].
Proof.
  unfold drawTile.
  eapply draws_bind; [apply draws_loadSprite | | reflexivity].
  intros [img|]; now apply draws_emit.
Qed.

Lemma draws_drawMap decodes (g : Grid) :
  draws (drawMap decodes g) (tile_positions g).
Proof.
  unfold drawMap, tile_positions. destruct g as [|row0 rows].
  - apply draws_after; [apply draws_get|]. intros w.
    apply draws_after; [exact (draws_emit ClearRect eq_refl)|]. intros _.
    exact (draws_emit (FillText _ _) eq_refl).
  - cbv zeta.
    apply draws_after; [apply draws_resize|]. intros _.
    apply draws_after; [exact (draws_emit (CanvasResize _ _) eq_refl)|]. intros _.
    apply draws_after; [exact (draws_emit ClearRect eq_refl)|]. intros _.
    apply (draws_forEach _ _
             (fun r => map (fun c => (Z.of_nat c * TILE_SIZE,
                                      Z.of_nat r * TILE_SIZE))
                           (seq 0 (length row0)))).
    intros r.
    replace (map (fun c => (Z.of_nat c * TILE_SIZE, Z.of_nat r * TILE_SIZE))
                 (seq 0 (length row0)))
      with (flat_map (fun c => [(Z.of_nat c * TILE_SIZE, Z.of_nat r * TILE_SIZE)])
                     (seq 0 (length row0))).
    + apply draws_forEach. intros c. apply draws_drawTile.
    + induction (seq 0 (length row0)) as [|c cs IH]; simpl;
        [reflexivity | now rewrite IH].
Qed.

(** *** Completion *)

Lemma forEach_completes {A} (l : list A) (body : A -> M unit) :
  (forall x w, In x l -> fst (body x w) = Ok tt) ->
  forall w, fst (forEach l body w) = Ok tt.
Proof.
  induction l as [|x l IH]; intros Hb w; simpl; [reflexivity|].
  unfold bind. specialize (Hb x w (or_introl eq_refl)) as Hx.
  destruct (body x w) as [[[]|] w1]; simpl in Hx; [|discriminate].
  apply IH. intros y w' Hy. apply Hb. now right.
Qed.

Lemma loadSprite_start_named (name : string) (w : World) :
  exists step, fst (loadSprite_start (Some name) w) = Ok step.
Proof.
  unfold loadSprite_start, bind, get. cbv beta iota delta [key].
  destruct (SPRITE_IMAGES w !! name); [eexists; reflexivity|].
  destruct (MAP_SPRITES !! name); [eexists; reflexivity|].
  destruct (negb (endsWith name ".png")); eexists; reflexivity.
Qed.

Lemma loadSprite_named decodes (name : string) (w : World) :
  exists result, fst (loadSprite decodes (Some name) w) = Ok result.
Proof.
  unfold loadSprite, bind.
  destruct (loadSprite_start_named name w) as [step Hs].
  destruct (loadSprite_start (Some name) w) as [[st|] w1]; simpl in Hs;
    [|discriminate].
  destruct st as [result|img]; [eexists; reflexivity|].
  unfold get, loadSprite_settle.
  destruct (decodes _ _); eexists; reflexivity.
Qed.

Lemma drawTile_completes decodes (g : Grid) (r c : nat) (w : World) :
  is_Some (cellAt g r c) -> fst (drawTile decodes g r c w) = Ok tt.
Proof.
  intros [name Hcell]. unfold drawTile, bind. rewrite Hcell.
  destruct (loadSprite_named decodes name w) as [result Hr].
  destruct (loadSprite decodes (Some name) w) as [[res|] w1]; simpl in Hr;
    [|discriminate].
  destruct res; reflexivity.
Qed.

Lemma covered_cell (g : Grid) (row0 : list string) (rows : list (list string))
    (r c : nat) :
  g = row0 :: rows -> covers_first_row g ->
  (r < length g)%nat -> (c < length row0)%nat ->
  is_Some (cellAt g r c).
Proof.
  intros -> Hcov Hr Hc. unfold covers_first_row in Hcov.
  unfold cellAt.
  match goal with
  | |- is_Some (match ?x with _ => _ end) => destruct x as [row|] eqn:Hrow
  end.
  - apply lookup_lt_is_Some_2.
    rewrite Forall_forall in Hcov.
    assert (row ∈ row0 :: rows) as Hin.
    { eapply list_elem_of_lookup_2. exact Hrow. }
    specialize (Hcov row Hin). lia.
  - apply lookup_ge_None_1 in Hrow. lia.
Qed.

(** A grid none of whose rows is shorter than the first is drawn to
    the end. *)
Lemma drawMap_completes decodes (g : Grid) (w : World) :
  covers_first_row g -> fst (drawMap decodes g w) = Ok tt.
Proof.
  intros Hcov. destruct g as [|row0 rows] eqn:Hg; [reflexivity|].
  unfold drawMap. cbv zeta. rewrite bind_modify, !bind_emit.
  apply forEach_completes. intros r w1 Hr.
  apply forEach_completes. intros c w2 Hc.
  apply drawTile_completes.
  apply in_seq in Hr. apply in_seq in Hc.
  eapply covered_cell; [reflexivity | exact Hcov | lia | lia].
Qed.

End RendererFacts.


(** ** The playback controller *)

Section PlaybackFacts.
Import JsString MapDecoder GameVisualization Observations.
Local Open Scope js_scope.

Lemma geb_false (a b : Z) : (a >=? b) = false <-> a < b.
Proof. rewrite Z.geb_leb. apply Z.leb_gt. Qed.

Lemma geb_true (a b : Z) : (a >=? b) = true <-> b <= a.
Proof. rewrite Z.geb_leb. apply Z.leb_le. Qed.

(** Either the index is out of range and nothing happens, or the
    snapshot at that index is displayed. *)
Lemma displayPrecomputedStep_cases decodes (w : World) (i : Z) (cbs : Callbacks) :
  (~ (0 <= i <= lastIndex w)
   /\ displayPrecomputedStep decodes i cbs w = (Ok tt, w))
  \/ (0 <= i <= lastIndex w
      /\ exists state,
          precomputedStates w !! Z.to_nat i = Some state
          /\ displayPrecomputedStep decodes i cbs w = displayed decodes i cbs state w).
Proof.
  unfold displayPrecomputedStep. rewrite bind_get. unfold lastIndex.
  destruct (len (precomputedStates w) =? 0) eqn:E0.
  { left. apply Z.eqb_eq in E0. split; [lia | reflexivity]. }
  destruct ((i <? 0) || (i >=? len (precomputedStates w))) eqn:E1.
  { left. split; [|reflexivity]. apply orb_true_iff in E1 as [E|E].
    - apply Z.ltb_lt in E. lia.
    - apply geb_true in E. lia. }
  apply orb_false_iff in E1 as [Ea Eb].
  apply Z.ltb_ge in Ea. apply geb_false in Eb.
  right. split; [lia|].
  destruct (precomputedStates w !! Z.to_nat i) as [state|] eqn:Hs.
  2:{ apply lookup_ge_None_1 in Hs. unfold len in Eb. lia. }
  exists state. split; [reflexivity|].
  rewrite bind_modify. unfold displayed, bind at 1.
  destruct (draws_drawMap decodes (parseAsciiMap (ascii_map state))
              (set_currentStepIndex i w)) as [evs [Hr _]].
  destruct (drawMap decodes (parseAsciiMap (ascii_map state))
              (set_currentStepIndex i w)) as [[[]|] wd]; [|reflexivity].
  cbn [fst snd] in *. rewrite bind_get.
  destruct Hr as (_ & _ & _ & Hst & _). rewrite Hst.
  unfold when, lastIndex. destruct (onStepUpdate cbs); reflexivity.
Qed.

Lemma displayed_frame decodes (i : Z) (cbs : Callbacks) (state : Snapshot) (w : World) :
  let shown := snd (displayed decodes i cbs state w) in
  currentStepIndex shown = i
  /\ precomputedStates shown = precomputedStates w
  /\ currentSolution shown = currentSolution w
  /\ solutionPlayerInterval shown = solutionPlayerInterval w
  /\ timers shown = timers w.
Proof.
  unfold displayed.
  destruct (draws_drawMap decodes (parseAsciiMap (ascii_map state))
              (set_currentStepIndex i w)) as [evs [Hr _]].
  destruct Hr as (H1 & H2 & H3 & H4 & H5 & _).
  destruct (fst (drawMap decodes (parseAsciiMap (ascii_map state))
                   (set_currentStepIndex i w))) as [[]|];
    [destruct (onStepUpdate cbs)|]; cbn [snd]; cbn; auto.
Qed.

Lemma in_range_of (w w' : World) (i : Z) :
  currentStepIndex w' = i -> precomputedStates w' = precomputedStates w ->
  0 <= i <= lastIndex w -> in_range w'.
Proof. unfold in_range, lastIndex. intros -> ->. trivial. Qed.

Lemma display_in_range decodes (w : World) (i : Z) (cbs : Callbacks) :
  in_range w -> in_range (snd (displayPrecomputedStep decodes i cbs w)).
Proof.
  intros Hw.
  destruct (displayPrecomputedStep_cases decodes w i cbs)
    as [[_ ->]|[Hi [state [_ ->]]]]; [exact Hw|].
  destruct (displayed_frame decodes i cbs state w) as (H1 & H2 & _).
  eapply in_range_of; eassumption.
Qed.

Lemma playable_limit (w : World) : playable w <-> 0 <= playbackLimit w.
Proof.
  unfold playable, playbackLimit, len.
  destruct (Z.ltb_spec 0 (Z.of_nat (length (precomputedStates w)))) as [Hp|Hn].
  - split; [lia|]. intros _. left. intros E. rewrite E in Hp. cbn in Hp. lia.
  - assert (precomputedStates w = []) as ->.
    { destruct (precomputedStates w); [reflexivity|].
      rewrite length_cons in Hn. lia. }
    destruct (currentSolution w) as [|m l'].
    + cbn [length Z.of_nat]. split; [intros [H|H]; congruence | lia].
    + rewrite length_cons. split; [lia | intros _; right; discriminate].
Qed.

Lemma classic_playable (w : World) : playable w \/ ~ playable w.
Proof.
  unfold playable.
  destruct (precomputedStates w); [|left; left; discriminate].
  destruct (currentSolution w); [|left; right; discriminate].
  right. intros [H|H]; congruence.
Qed.

Lemma toggle_pauses (w : World) (cbs : Callbacks) (id : positive) :
  solutionPlayerInterval w = Some id ->
  toggleSolutionPlayback cbs w
  = (Ok false, set_solutionPlayerInterval None (set_timers (delete id) w)).
Proof.
  intros H. unfold toggleSolutionPlayback. rewrite bind_get, H. reflexivity.
Qed.

Lemma toggle_nothing_to_play (w : World) (cbs : Callbacks) :
  solutionPlayerInterval w = None -> ~ playable w ->
  toggleSolutionPlayback cbs w = (Ok false, w).
Proof.
  intros H Hn. unfold toggleSolutionPlayback. rewrite bind_get, H.
  fold (playbackLimit w).
  destruct (playbackLimit w <? 0) eqn:E; [reflexivity|].
  apply Z.ltb_ge in E. apply playable_limit in E. contradiction.
Qed.

Lemma toggle_starts (w : World) (cbs : Callbacks) :
  solutionPlayerInterval w = None -> playable w ->
  toggleSolutionPlayback cbs w = (Ok true, started cbs w).
Proof.
  intros H Hp. unfold toggleSolutionPlayback. rewrite bind_get, H.
  fold (playbackLimit w).
  apply playable_limit in Hp.
  destruct (playbackLimit w <? 0) eqn:E; [apply Z.ltb_lt in E; lia|].
  unfold started, when.
  destruct (currentStepIndex w >=? playbackLimit w); reflexivity.
Qed.

(** C7.  A step index below [0] or above [N] (any index at all when no
    session is loaded, [N] being [-1] then) is rejected: the call
    completes and the world is the same, so the step index is unchanged
    and nothing was drawn or reported. *)
Theorem displayStep_rejects_out_of_range decodes (w : World) (stepIndex : Z)
    (callbacks : Callbacks) :
  stepIndex < 0 \/ lastIndex w < stepIndex ->
  displayStep decodes stepIndex callbacks w = (Ok tt, w)
  /\ currentStepIndex (snd (displayStep decodes stepIndex callbacks w))
     = currentStepIndex w
  /\ new_events (displayStep decodes stepIndex callbacks) w = [].
Proof.
  intros Hout. unfold displayStep.
  destruct (displayPrecomputedStep_cases decodes w stepIndex callbacks)
    as [[_ Heq]|[Hin _]]; [|lia].
  unfold new_events. rewrite Heq. cbn [snd].
  repeat split. apply drop_all.
Qed.

Lemma playbackLimit_session (w : World) :
  precomputedStates w <> [] -> playbackLimit w = lastIndex w.
Proof.
  intros Hne. unfold playbackLimit, lastIndex, len.
  destruct (precomputedStates w) as [|s l]; [congruence|].
  rewrite length_cons.
  destruct (Z.ltb_spec 0 (Z.of_nat (S (length l)))); [reflexivity | lia].
Qed.

Lemma tick_cleared decodes (w : World) (id : positive) :
  timers w !! id = None -> tick decodes id w = (Ok tt, w).
Proof. intros H. unfold tick. rewrite bind_get, H. reflexivity. Qed.

Lemma tick_advances decodes (w : World) (id : positive) (cl : Closure) :
  timers w !! id = Some cl -> currentStepIndex w < maxStepIndex cl ->
  tick decodes id w
  = (Ok tt, snd (displayPrecomputedStep decodes (currentStepIndex w + 1)
                   (timerCallbacks cl) w)).
Proof.
  intros H Hlt. unfold tick. rewrite bind_get, H.
  unfold intervalCallback. rewrite bind_get.
  destruct (Z.ltb_spec (currentStepIndex w) (maxStepIndex cl)); [|lia].
  reflexivity.
Qed.

Lemma tick_ends decodes (w : World) (id : positive) (cl : Closure) :
  timers w !! id = Some cl -> maxStepIndex cl <= currentStepIndex w ->
  exists stopped,
    tick decodes id w = (Ok tt, stopped)
    /\ currentStepIndex stopped = currentStepIndex w
    /\ precomputedStates stopped = precomputedStates w
    /\ solutionPlayerInterval stopped = None.
Proof.
  intros H Hge. unfold tick. rewrite bind_get, H.
  unfold intervalCallback. rewrite bind_get.
  destruct (Z.ltb_spec (currentStepIndex w) (maxStepIndex cl)); [lia|].
  unfold clearInterval, when.
  destruct (solutionPlayerInterval w), (onPlaybackEnd (timerCallbacks cl));
    eexists; (split; [reflexivity | repeat split]).
Qed.

(** C5.  A session of [N] moves stands at its last step and nothing
    is playing.  Toggling playback returns [true], rewinds the step
    index to [-1] and starts an interval that remembers [N]; when that
    interval first fires it displays snapshot [0]: the step index
    becomes [0] (not [N+1]) and the world has changed (not a no-op). *)
Theorem replay_restarts_at_first_step decodes (w : World) (callbacks : Callbacks)
    (first : Snapshot) (rest : list Snapshot) :
  precomputedStates w = first :: rest ->
  currentStepIndex w = lastIndex w ->
  solutionPlayerInterval w = None ->
  exists id playing,
    toggleSolutionPlayback callbacks w = (Ok true, playing)
    /\ currentStepIndex playing = -1
    /\ solutionPlayerInterval playing = Some id
    /\ timers playing !! id = Some {| maxStepIndex := lastIndex w;
                                      timerCallbacks := callbacks |}
    /\ tick decodes id playing
       = (Ok tt, snd (displayed decodes 0 callbacks first playing))
    /\ currentStepIndex (snd (tick decodes id playing)) = 0
    /\ snd (tick decodes id playing) <> playing.
Proof.
  intros Hst Hidx Hnone.
  assert (Hne : precomputedStates w <> []) by (rewrite Hst; discriminate).
  pose proof (playbackLimit_session w Hne) as Hlim.
  assert (Hpos : 0 <= lastIndex w).
  { unfold lastIndex, len. rewrite Hst, length_cons. lia. }
  set (id := fresh (dom (timers w))).
  set (cl := {| maxStepIndex := lastIndex w; timerCallbacks := callbacks |}).
  set (playing := set_solutionPlayerInterval (Some id)
                    (set_timers (insert id cl) (set_currentStepIndex (-1) w))).
  assert (Hstart : started callbacks w = playing).
  { unfold started. rewrite Hlim, Hidx.
    destruct (lastIndex w >=? lastIndex w) eqn:E; [reflexivity|].
    apply geb_false in E. lia. }
  assert (Hlook : timers playing !! id = Some cl).
  { unfold playing. cbn [timers set_solutionPlayerInterval set_timers].
    apply lookup_insert_eq. }
  assert (Htick : tick decodes id playing
                  = (Ok tt, snd (displayed decodes 0 callbacks first playing))).
  { rewrite (tick_advances decodes playing id cl Hlook);
      [|unfold playing, cl; cbn [currentStepIndex maxStepIndex
          set_solutionPlayerInterval set_timers set_currentStepIndex]; lia].
    f_equal.
    destruct (displayPrecomputedStep_cases decodes playing
                (currentStepIndex playing + 1) (timerCallbacks cl))
      as [[Hout _]|[_ [state [Hs Heq]]]].
    - exfalso. apply Hout. unfold lastIndex in *. cbn. lia.
    - rewrite Heq. cbn in Hs. rewrite Hst in Hs. cbn in Hs.
      injection Hs as <-. reflexivity. }
  exists id, playing.
  split; [rewrite <- Hstart; apply toggle_starts; [exact Hnone | now left]|].
  split; [reflexivity|]. split; [reflexivity|]. split; [exact Hlook|].
  split; [exact Htick|].
  rewrite Htick. cbn [snd].
  destruct (displayed_frame decodes 0 callbacks first playing) as (H0 & _).
  split; [exact H0|].
  intros Heq. rewrite Heq in H0. cbn in H0. discriminate.
Qed.

(** C6, amended.  Take a world without leaked intervals in which, if
    an interval is active, there is something to play.  Two toggles in
    a row complete and give back the playing flag, and no interval is
    leaked.  Starting paused: the second call returns [false] and no
    interval is left; the first returns [true] exactly when there is
    something to play, and then the interval it started, the only
    active one, is the one the second call cleared.  Starting playing:
    the first call returns [false] and leaves no interval, the second
    returns [true]. *)
Theorem toggle_twice_restores_playable (w : World) (first second : Callbacks) :
  no_leaked_timer w ->
  (isPlaying (getState w) = true -> playable w) ->
  exists r1 w1 r2 w2,
    toggleSolutionPlayback first w = (Ok r1, w1)
    /\ toggleSolutionPlayback second w1 = (Ok r2, w2)
    /\ isPlaying (getState w2) = isPlaying (getState w)
    /\ no_leaked_timer w2
    /\ (if isPlaying (getState w)
        then r1 = false /\ timers w1 = ∅ /\ r2 = true
        else r2 = false /\ timers w2 = ∅
             /\ (r1 = true <-> playable w)
             /\ (r1 = true ->
                 exists id, solutionPlayerInterval w1 = Some id
                            /\ dom (timers w1) = {[ id ]}
                            /\ timers w2 = delete id (timers w1))).
Proof.
  intros Hleak Hplay. unfold no_leaked_timer in Hleak.
  destruct (solutionPlayerInterval w) as [id|] eqn:Hh.
  - (* playing *)
    assert (Hp : playable w) by (apply Hplay; unfold getState; cbn; now rewrite Hh).
    set (w1 := set_solutionPlayerInterval None (set_timers (delete id) w)).
    assert (Ht1 : timers w1 = ∅).
    { unfold w1. cbn [timers set_solutionPlayerInterval set_timers].
      apply dom_empty_inv_L. rewrite dom_delete_L, Hleak.
      apply difference_diag_L. }
    assert (Hp1 : playable w1) by exact Hp.
    exists false, w1, true, (started second w1).
    split; [now apply toggle_pauses|].
    split; [now apply toggle_starts|].
    split; [unfold getState; cbn; now rewrite Hh|].
    split.
    + unfold no_leaked_timer, started.
      cbn [timers solutionPlayerInterval set_solutionPlayerInterval set_timers].
      destruct (currentStepIndex w1 >=? playbackLimit w1);
        cbn [timers set_currentStepIndex]; rewrite Ht1, insert_empty;
        apply dom_singleton_L.
    + unfold getState at 1. cbn [isPlaying]. rewrite Hh. auto.
  - (* paused *)
    assert (Ht : timers w = ∅) by (now apply dom_empty_inv_L).
    destruct (classic_playable w) as [Hp|Hn].
    + set (id := fresh (dom (timers w))).
      assert (Hs : solutionPlayerInterval (started first w) = Some id) by reflexivity.
      assert (Hts : timers (started first w)
                    = <[id := {| maxStepIndex := playbackLimit w;
                                 timerCallbacks := first |}]> (timers w)).
      { unfold started.
        cbn [timers set_solutionPlayerInterval set_timers].
        destruct (currentStepIndex w >=? playbackLimit w); reflexivity. }
      exists true, (started first w), false,
        (set_solutionPlayerInterval None (set_timers (delete id) (started first w))).
      split; [now apply toggle_starts|].
      split; [now apply toggle_pauses|].
      split; [unfold getState; cbn; now rewrite Hh|].
      assert (Hd : delete id (timers (started first w)) = ∅).
      { rewrite Hts, Ht, delete_insert_eq. apply delete_empty. }
      split.
      { unfold no_leaked_timer.
        cbn [timers solutionPlayerInterval set_solutionPlayerInterval set_timers].
        rewrite Hd. apply dom_empty_L. }
      unfold getState at 1. cbn [isPlaying]. rewrite Hh.
      split; [reflexivity|].
      split; [exact Hd|].
      split; [tauto|].
      intros _. exists id. split; [exact Hs|].
      split; [rewrite Hts, Ht, insert_empty; apply dom_singleton_L | reflexivity].
    + exists false, w, false, w.
      split; [now apply toggle_nothing_to_play|].
      split; [now apply toggle_nothing_to_play|].
      split; [reflexivity|].
      split; [unfold no_leaked_timer; now rewrite Hh|].
      unfold getState at 1. cbn [isPlaying]. rewrite Hh.
      split; [reflexivity|]. split; [exact Ht|].
      split; [split; [discriminate | contradiction] | discriminate].
Qed.

(** *** The step index stays in range *)

Lemma in_range_session (w : World) : in_range w -> precomputedStates w <> [].
Proof.
  unfold in_range, lastIndex, len. intros H E. rewrite E in H. cbn in H. lia.
Qed.

Lemma step_in_range decodes (s : Step) (w : World) :
  in_range w -> rewinds s w = false -> in_range (step decodes s w).
Proof.
  intros Hw Hr. destruct s as [i cbs|id|cbs]; cbn [step].
  - apply display_in_range. exact Hw.
  - destruct (timers w !! id) as [cl|] eqn:Hl.
    + destruct (Z.lt_ge_cases (currentStepIndex w) (maxStepIndex cl)) as [Hlt|Hge].
      * rewrite (tick_advances decodes w id cl Hl Hlt). cbn [snd].
        apply display_in_range. exact Hw.
      * destruct (tick_ends decodes w id cl Hl Hge) as [stopped (-> & H1 & H2 & _)].
        cbn [snd]. eapply in_range_of; [exact H1 | exact H2 | exact Hw].
    + rewrite (tick_cleared decodes w id Hl). exact Hw.
  - unfold rewinds in Hr.
    destruct (solutionPlayerInterval w) as [id|] eqn:Hh.
    + rewrite (toggle_pauses w cbs id Hh). exact Hw.
    + apply geb_false in Hr.
      rewrite (toggle_starts w cbs Hh); [|left; now apply in_range_session].
      cbn [snd]. unfold started.
      destruct (currentStepIndex w >=? playbackLimit w) eqn:E;
        [apply geb_true in E; lia | exact Hw].
Qed.

Lemma steps_in_range decodes (calls : list Step) (w : World) :
  in_range w -> never_rewinds decodes calls w = true ->
  in_range (steps decodes calls w).
Proof.
  revert w. induction calls as [|s calls IH]; intros w Hw Hn; [exact Hw|].
  cbn [never_rewinds] in Hn. apply andb_true_iff in Hn as [Hs Hrest].
  apply negb_true_iff in Hs.
  cbn [steps fold_left]. apply IH; [now apply step_in_range | exact Hrest].
Qed.

(** *** Displaying a snapshot that can be drawn *)

Lemma displayed_completes decodes (i : Z) (cbs : Callbacks) (state : Snapshot)
    (w : World) :
  covers_first_row (parseAsciiMap (ascii_map state)) ->
  exists shown evs,
    displayed decodes i cbs state w = (Ok tt, shown)
    /\ evs = new_events (drawMap decodes (parseAsciiMap (ascii_map state)))
                        (set_currentStepIndex i w)
    /\ trace shown
       = trace w ++ evs
         ++ (if onStepUpdate cbs then [StepUpdate i (lastIndex w)] else [])
    /\ forallb is_canvas_event evs = true
    /\ omap tile_position evs = tile_positions (parseAsciiMap (ascii_map state)).
Proof.
  intros Hcov. unfold displayed.
  pose proof (drawMap_completes decodes _ (set_currentStepIndex i w) Hcov) as Hok.
  destruct (draws_drawMap decodes (parseAsciiMap (ascii_map state))
              (set_currentStepIndex i w)) as [evs [Hr Ht]].
  pose proof (renders_new_events _ _ _ Hr) as Hnew.
  rewrite Hok in *.
  destruct Hr as (_ & _ & _ & _ & _ & Htr & Hcanvas).
  cbn [trace set_currentStepIndex] in Htr.
  eexists. exists evs.
  split; [reflexivity|]. split; [now rewrite Hnew|].
  split; [|split; [exact Hcanvas | apply Ht; discriminate]].
  destruct (onStepUpdate cbs); cbn [trace add_event].
  - rewrite Htr. now rewrite app_assoc.
  - rewrite Htr. now rewrite app_nil_r.
Qed.

(** C8, amended.  For a valid step index [i] of a loaded session
    whose snapshot decodes to a grid with no row shorter than the
    first, [displayStep] completes: it has stored [i] as the current
    index, drawn the decoded map of snapshot [i] (a tile at every
    position of the grid, canvas events only) and then, if the callback
    is present, reported [(i, N)].  The index is then in [0..N] and
    stays there through any further calls (display requests, timer
    ticks, toggles) among which no toggle starts playback from the
    last step. *)
Theorem displayStep_shows_valid_index decodes (w : World) (i : Z)
    (callbacks : Callbacks) (state : Snapshot) :
  0 <= i <= lastIndex w ->
  precomputedStates w !! Z.to_nat i = Some state ->
  covers_first_row (parseAsciiMap (ascii_map state)) ->
  exists shown evs,
    displayStep decodes i callbacks w = (Ok tt, shown)
    /\ currentStepIndex shown = i
    /\ precomputedStates shown = precomputedStates w
    /\ evs = new_events (drawMap decodes (parseAsciiMap (ascii_map state)))
                        (set_currentStepIndex i w)
    /\ trace shown
       = trace w ++ evs
         ++ (if onStepUpdate callbacks then [StepUpdate i (lastIndex w)] else [])
    /\ forallb is_canvas_event evs = true
    /\ omap tile_position evs = tile_positions (parseAsciiMap (ascii_map state))
    /\ in_range shown
    /\ forall calls, never_rewinds decodes calls shown = true ->
                     in_range (steps decodes calls shown).
Proof.
  intros Hi Hs Hcov. unfold displayStep.
  destruct (displayPrecomputedStep_cases decodes w i callbacks)
    as [[Hout _]|[_ [state' [Hs' Heq]]]]; [contradiction|].
  rewrite Hs in Hs'. injection Hs' as <-.
  destruct (displayed_completes decodes i callbacks state w Hcov)
    as (shown & evs & Hd & Hevs & Htr & Hcanvas & Htiles).
  destruct (displayed_frame decodes i callbacks state w) as (F1 & F2 & _).
  rewrite Hd in F1, F2. cbn [snd] in F1, F2.
  assert (Hrange : in_range shown) by (eapply in_range_of; eassumption).
  exists shown, evs. rewrite Heq.
  repeat (split; [assumption|]).
  intros calls. now apply steps_in_range.
Qed.

(** *** Showing a session *)

Lemma save_completes (states : list Snapshot) (levelId : string)
    (saving : SaveResult) (w : World) :
  states <> [] ->
  exists w',
    saveStepByStepSolution states levelId saving w = (Ok tt, w')
    /\ precomputedStates w' = precomputedStates w
    /\ trace w' = trace w ++ save_requests levelId (len states - 1) saving.
Proof.
  intros Hne. unfold saveStepByStepSolution, save_requests.
  destruct (Z.eqb_spec (len states) 0) as [E|_].
  { destruct states; [congruence|]. unfold len in E. rewrite length_cons in E. lia. }
  rewrite bind_emit.
  destruct saving; eexists; (split; [reflexivity|]); split;
    try reflexivity; cbn [trace add_event]; now rewrite <- app_assoc.
Qed.

Lemma filter_notifications_canvas (evs : list Event) :
  forallb is_canvas_event evs = true -> List.filter is_notification evs = [].
Proof.
  induction evs as [|e evs IH]; [reflexivity|].
  cbn [forallb List.filter]. intros H. apply andb_true_iff in H as [He Hrest].
  destruct e; cbn in He; try discriminate; cbn; auto.
Qed.

(** C3, amended.  A success response carries [N+1] states, the first
    of which decodes to a grid with no row shorter than its first.
    [showGameView] then completes with the states stored and the step
    index [0]; in this order it sends the save request (only when
    [N > 0]), draws the first snapshot (a tile at every position), and
    invokes the callbacks that are present: "step update" with
    [(0, N)], then "solution ready" with [N] when [N > 0].  When
    [N = 0] nothing follows the step update.  "No solution" is not
    invoked for any [N]. *)
Theorem showGameView_reports_solution decodes (w : World) (levelId : string)
    (asciiMap : option string) (solutionArray : list string)
    (callbacks : Callbacks) (first : Snapshot) (rest : list Snapshot)
    (saving : SaveResult) :
  covers_first_row (parseAsciiMap (ascii_map first)) ->
  let call := showGameView_response decodes levelId asciiMap solutionArray
                callbacks (Success (first :: rest)) saving in
  let N := len rest in
  let reports :=
    (if onStepUpdate callbacks then [StepUpdate 0 N] else [])
    ++ (if (0 <? N) && onSolutionReady callbacks then [SolutionReady N] else []) in
  exists shown evs,
    call w = (Ok tt, shown)
    /\ precomputedStates shown = first :: rest
    /\ currentStepIndex shown = 0
    /\ new_events call w
       = (if 0 <? N then save_requests levelId N saving else [])
         ++ evs ++ reports
    /\ forallb is_canvas_event evs = true
    /\ omap tile_position evs = tile_positions (parseAsciiMap (ascii_map first))
    /\ notifications call w = reports
    /\ ~ In NoSolution (new_events call w).
Proof.
  intros Hcov call N reports.
  set (states := first :: rest).
  assert (Hlen : len states = N + 1).
  { unfold len, states, N, len. rewrite length_cons. lia. }
  assert (HN : 0 <= N) by (unfold N, len; lia).
  set (w1 := set_currentSolution solutionArray (set_precomputedStates states w)).
  (* the save request *)
  assert (Hsave : exists w2,
             when (1 <? len states) (saveStepByStepSolution states levelId saving) w1
             = (Ok tt, w2)
             /\ precomputedStates w2 = states
             /\ trace w2 = trace w
                           ++ (if 0 <? N then save_requests levelId N saving else [])).
  { replace (1 <? len states) with (0 <? N)
      by (rewrite Hlen; destruct (Z.ltb_spec 0 N), (Z.ltb_spec 1 (N + 1)); lia).
    destruct (0 <? N); cbn [when].
    - destruct (save_completes states levelId saving w1) as (w2 & E & F & T);
        [discriminate|].
      exists w2. split; [exact E|]. split; [exact F|].
      rewrite T. replace (len states - 1) with N by lia. reflexivity.
    - exists w1. split; [reflexivity|]. split; [reflexivity|].
      cbn [trace w1 set_currentSolution set_precomputedStates].
      now rewrite app_nil_r. }
  destruct Hsave as (w2 & Esave & Fsave & Tsave).
  set (w3 := set_currentStepIndex 0 w2).
  assert (Hlast : lastIndex w3 = N).
  { unfold lastIndex, w3. cbn [precomputedStates set_currentStepIndex].
    rewrite Fsave. lia. }
  (* the first snapshot *)
  destruct (displayPrecomputedStep_cases decodes w3 0 callbacks)
    as [[Hout _]|[_ [state [Hs Heq]]]]; [rewrite Hlast in Hout; lia|].
  assert (state = first) as ->.
  { unfold w3 in Hs. cbn [precomputedStates set_currentStepIndex] in Hs.
    rewrite Fsave in Hs. unfold states in Hs.
    change ((first :: rest) !! Z.to_nat 0) with (Some first) in Hs. congruence. }
  destruct (displayed_completes decodes 0 callbacks first w3 Hcov)
    as (shown0 & evs & Hd & _ & Htr & Hcanvas & Htiles).
  destruct (displayed_frame decodes 0 callbacks first w3) as (F1 & F2 & _).
  rewrite Hd in F1, F2. cbn [snd] in F1, F2.
  rewrite Hlast in Htr.
  assert (Fstates : precomputedStates shown0 = states).
  { rewrite F2. unfold w3. cbn [precomputedStates set_currentStepIndex]. exact Fsave. }
  (* the call *)
  set (ready := (0 <? N) && onSolutionReady callbacks).
  set (shown := if ready then add_event (SolutionReady N) shown0 else shown0).
  assert (Hcall : call w = (Ok tt, shown)).
  { unfold call, showGameView_response, try_catch.
    rewrite !bind_modify. fold states. fold w1.
    unfold bind at 1. rewrite Esave.
    replace (0 <? len states) with true
      by (rewrite Hlen; destruct (Z.ltb_spec 0 (N + 1)); [reflexivity | lia]).
    rewrite bind_modify. fold w3.
    unfold bind at 1. rewrite Heq, Hd. rewrite bind_get, Fstates.
    replace (1 <? len states) with (0 <? N)
      by (rewrite Hlen; destruct (Z.ltb_spec 0 N), (Z.ltb_spec 1 (N + 1)); lia).
    replace (len states - 1) with N by lia.
    fold ready. unfold shown, when. destruct ready; reflexivity. }
  assert (Htrace : trace shown
                   = trace w
                     ++ ((if 0 <? N then save_requests levelId N saving else [])
                         ++ evs ++ reports)).
  { unfold shown, reports. fold ready.
    destruct ready; cbn [trace add_event]; rewrite Htr;
      unfold w3; cbn [trace set_currentStepIndex]; rewrite Tsave;
      rewrite <- ?app_assoc; rewrite ?app_nil_r; reflexivity. }
  assert (Hnew : new_events call w
                 = (if 0 <? N then save_requests levelId N saving else [])
                   ++ evs ++ reports).
  { unfold new_events. rewrite Hcall. cbn [snd]. rewrite Htrace.
    apply drop_app_length. }
  assert (Hsavenote : List.filter is_notification
                        (if 0 <? N then save_requests levelId N saving else []) = []).
  { destruct (0 <? N); [|reflexivity]. destruct saving; reflexivity. }
  assert (Hreports : List.filter is_notification reports = reports).
  { unfold reports.
    destruct (onStepUpdate callbacks), ((0 <? N) && onSolutionReady callbacks);
      reflexivity. }
  assert (Hnotes : notifications call w = reports).
  { unfold notifications. rewrite Hnew, !List.filter_app, Hsavenote,
      (filter_notifications_canvas evs Hcanvas), Hreports. reflexivity. }
  exists shown, evs.
  split; [exact Hcall|].
  split; [unfold shown; destruct ready; exact Fstates|].
  split; [unfold shown; destruct ready; exact F1|].
  split; [exact Hnew|]. split; [exact Hcanvas|]. split; [exact Htiles|].
  split; [exact Hnotes|].
  intros Hin.
  assert (In NoSolution (notifications call w)) as Hin'.
  { unfold notifications. apply List.filter_In. split; [exact Hin | reflexivity]. }
  rewrite Hnotes in Hin'. unfold reports in Hin'.
  destruct (onStepUpdate callbacks), ((0 <? N) && onSolutionReady callbacks);
    cbn in Hin'; intuition discriminate.
Qed.

End PlaybackFacts.

(** ** Intervals over the life of the module *)

Section TimerFacts.
Import JsString MapDecoder GameVisualization Observations.
Local Open Scope js_scope.

Lemma keeps_ret {A} (a : A) : keeps_timers (ret a).
Proof. intros w. split; reflexivity. Qed.

Lemma keeps_throw {A} : keeps_timers (@throw A).
Proof. intros w. split; reflexivity. Qed.

Lemma keeps_get : keeps_timers get.
Proof. intros w. split; reflexivity. Qed.

Lemma keeps_emit (e : Event) : keeps_timers (emit e).
Proof. intros w. split; reflexivity. Qed.

Lemma keeps_bind {A B} (c : M A) (k : A -> M B) :
  keeps_timers c -> (forall a, keeps_timers (k a)) -> keeps_timers (bind c k).
Proof.
  intros Hc Hk w. unfold bind. destruct (Hc w) as [H1 H2].
  destruct (c w) as [[a|] w1]; cbn [snd] in *; [|auto].
  destruct (Hk a w1) as [H3 H4]. rewrite H3, H4. auto.
Qed.

Lemma keeps_try_catch {A} (body handler : M A) :
  keeps_timers body -> keeps_timers handler ->
  keeps_timers (try_catch body handler).
Proof.
  intros Hb Hh w. unfold try_catch. destruct (Hb w) as [H1 H2].
  destruct (body w) as [[a|] w1]; cbn [snd] in *; [auto|].
  destruct (Hh w1) as [H3 H4]. rewrite H3, H4. auto.
Qed.

Lemma keeps_when (b : bool) (c : M unit) :
  keeps_timers c -> keeps_timers (when b c).
Proof. intros Hc. destruct b; [exact Hc | apply keeps_ret]. Qed.

Lemma keeps_draws {A} (c : M A) (tiles : list (Z * Z)) :
  draws c tiles -> keeps_timers c.
Proof.
  intros Hd w. destruct (Hd w) as [evs [(_ & _ & H3 & _ & H5 & _) _]]. auto.
Qed.

Lemma keeps_displayPrecomputedStep decodes (i : Z) (cbs : Callbacks) :
  keeps_timers (displayPrecomputedStep decodes i cbs).
Proof.
  unfold displayPrecomputedStep.
  apply keeps_bind; [apply keeps_get|]. intros w.
  destruct (len (precomputedStates w) =? 0); [apply keeps_ret|].
  destruct ((i <? 0) || (i >=? len (precomputedStates w))); [apply keeps_ret|].
  destruct (precomputedStates w !! Z.to_nat i); [|apply keeps_throw].
  apply keeps_bind; [intros w'; split; reflexivity|]. intros _.
  apply keeps_bind; [eapply keeps_draws, draws_drawMap|]. intros _.
  apply keeps_bind; [apply keeps_get|]. intros w'.
  apply keeps_when, keeps_emit.
Qed.

Lemma keeps_showInitialMap decodes (asciiMap : option string) (cbs : Callbacks) :
  keeps_timers (showInitialMap decodes asciiMap cbs).
Proof.
  unfold showInitialMap.
  apply keeps_bind; [eapply keeps_draws, draws_drawMap|]. intros _.
  apply keeps_when, keeps_emit.
Qed.

Lemma keeps_save (states : list Snapshot) (levelId : string) (saving : SaveResult) :
  keeps_timers (saveStepByStepSolution states levelId saving).
Proof.
  unfold saveStepByStepSolution.
  destruct (len states =? 0); [apply keeps_ret|].
  apply keeps_bind; [apply keeps_emit|]. intros _.
  destruct saving; first [apply keeps_ret | apply keeps_emit].
Qed.

Lemma keeps_showGameView_response decodes (levelId : string)
    (asciiMap : option string) (solutionArray : list string) (cbs : Callbacks)
    (response : Response) (saving : SaveResult) :
  keeps_timers (showGameView_response decodes levelId asciiMap solutionArray
                  cbs response saving).
Proof.
  unfold showGameView_response.
  apply keeps_try_catch; [|apply keeps_showInitialMap].
  destruct response as [|states]; [apply keeps_throw|].
  apply keeps_bind; [intros w; split; reflexivity|]. intros _.
  apply keeps_bind; [intros w; split; reflexivity|]. intros _.
  apply keeps_bind; [apply keeps_when, keeps_save|]. intros _.
  destruct (0 <? len states); [|apply keeps_showInitialMap].
  apply keeps_bind; [intros w; split; reflexivity|]. intros _.
  apply keeps_bind; [apply keeps_displayPrecomputedStep|]. intros _.
  apply keeps_bind; [apply keeps_get|]. intros w.
  apply keeps_when, keeps_emit.
Qed.

Lemma no_leak_kept {A} (c : M A) (w : World) :
  keeps_timers c -> no_leaked_timer w -> no_leaked_timer (snd (c w)).
Proof.
  intros Hc Hw. destruct (Hc w) as [H1 H2].
  unfold no_leaked_timer. rewrite H1, H2. exact Hw.
Qed.

Lemma no_leak_cleared (w : World) :
  no_leaked_timer w ->
  dom (match solutionPlayerInterval w with
       | Some id => delete id (timers w)
       | None => timers w
       end) = ∅.
Proof.
  unfold no_leaked_timer. intros Hw.
  destruct (solutionPlayerInterval w) as [id|]; [|exact Hw].
  rewrite dom_delete_L, Hw. apply difference_diag_L.
Qed.

Lemma no_leak_stopPlayer (w : World) :
  no_leaked_timer w ->
  no_leaked_timer (snd (stopPlayer w))
  /\ solutionPlayerInterval (snd (stopPlayer w)) = None.
Proof.
  intros Hw. pose proof (no_leak_cleared w Hw) as Hc.
  unfold stopPlayer. rewrite bind_get. unfold no_leaked_timer.
  destruct (solutionPlayerInterval w) as [id|] eqn:Hh.
  - cbn. auto.
  - cbn. rewrite Hh. auto.
Qed.

Lemma no_leak_toggle (w : World) (cbs : Callbacks) :
  no_leaked_timer w -> no_leaked_timer (snd (toggleSolutionPlayback cbs w)).
Proof.
  intros Hw. pose proof (no_leak_cleared w Hw) as Hc.
  destruct (solutionPlayerInterval w) as [id|] eqn:Hh.
  - rewrite (toggle_pauses w cbs id Hh). exact Hc.
  - destruct (classic_playable w) as [Hp|Hn].
    + rewrite (toggle_starts w cbs Hh Hp). cbn [snd].
      apply dom_empty_inv_L in Hc.
      unfold no_leaked_timer, started.
      cbn [timers solutionPlayerInterval set_solutionPlayerInterval set_timers].
      destruct (currentStepIndex w >=? playbackLimit w);
        cbn [timers set_currentStepIndex]; rewrite Hc, insert_empty;
        apply dom_singleton_L.
    + rewrite (toggle_nothing_to_play w cbs Hh Hn).
      unfold no_leaked_timer. cbn [snd]. rewrite Hh. exact Hc.
Qed.

Lemma no_leak_tick decodes (w : World) (id : positive) :
  no_leaked_timer w -> no_leaked_timer (snd (tick decodes id w)).
Proof.
  intros Hw. pose proof (no_leak_cleared w Hw) as Hc.
  unfold tick. rewrite bind_get.
  destruct (timers w !! id) as [cl|]; [|exact Hw].
  unfold intervalCallback. rewrite bind_get.
  destruct (currentStepIndex w <? maxStepIndex cl).
  - unfold detached. cbn [snd].
    apply no_leak_kept; [apply keeps_displayPrecomputedStep | exact Hw].
  - unfold no_leaked_timer, clearInterval, when.
    destruct (solutionPlayerInterval w), (onPlaybackEnd (timerCallbacks cl));
      exact Hc.
Qed.

Lemma no_leak_step decodes (s : Step) (w : World) :
  no_leaked_timer w -> no_leaked_timer (step decodes s w).
Proof.
  intros Hw. destruct s as [i cbs|id|cbs]; cbn [step].
  - apply no_leak_kept; [apply keeps_displayPrecomputedStep | exact Hw].
  - now apply no_leak_tick.
  - now apply no_leak_toggle.
Qed.

Lemma no_leak_call decodes (c : Call) (w : World) :
  no_leaked_timer w -> no_leaked_timer (call decodes c w).
Proof.
  intros Hw.
  destruct c as [|asciiMap solution|levelId asciiMap solutionArray cbs response
                  saving|s|]; cbn [call].
  - unfold init. rewrite !bind_modify.
    apply (no_leak_stopPlayer
             (set_currentStepIndex (-1) (set_currentSolution [] w))). exact Hw.
  - unfold showGameView_request, bind at 1.
    destruct (no_leak_stopPlayer w Hw) as [H1 _].
    destruct (stopPlayer w) as [[[]|] w1]; exact H1.
  - apply no_leak_kept; [apply keeps_showGameView_response | exact Hw].
  - now apply no_leak_step.
  - unfold cleanup, bind at 1.
    destruct (no_leak_stopPlayer w Hw) as [H1 _].
    destruct (stopPlayer w) as [[[]|] w1]; exact H1.
Qed.

(** In every world the module can reach, the only active interval is
    the one whose handle the module holds: starting a session, closing
    it and toggling never leave an interval behind. *)
Lemma reachable_no_leak decodes (w : World) :
  reachable decodes w -> no_leaked_timer w.
Proof.
  induction 1 as [|c w _ IH].
  - unfold no_leaked_timer. cbn. apply dom_empty_L.
  - now apply no_leak_call.
Qed.

End TimerFacts.

(** ** The sprite cache *)

Section SpriteFacts.
Import JsString MapDecoder GameVisualization Observations.
Local Open Scope js_scope.

(** A call that has to wait found no cache entry, started a download
    of the image it waits for, and any call for the same name made
    while the cache still has no entry does the same. *)
Lemma loadSprite_start_suspended (spriteName : option string) (img : Image)
    (w : World) :
  fst (loadSprite_start spriteName w) = Ok (Suspended img) ->
  SPRITE_IMAGES w !! key spriteName = None
  /\ forall w', SPRITE_IMAGES w' !! key spriteName = None ->
                loadSprite_start spriteName w'
                = (Ok (Suspended img), add_event (ImageLoad (src img)) w').
Proof.
  unfold loadSprite_start. rewrite bind_get.
  destruct (SPRITE_IMAGES w !! key spriteName) eqn:Hc; [discriminate|].
  destruct (MAP_SPRITES !! key spriteName) as [file|], spriteName as [name|];
    try discriminate.
  - rewrite bind_emit. cbn [fst ret]. intros [= <-].
    split; [reflexivity|]. intros w' Hw'. rewrite bind_get, Hw'. reflexivity.
  - destruct (negb (endsWith name ".png")); [discriminate|].
    rewrite bind_emit. cbn [fst ret]. intros [= <-].
    split; [reflexivity|]. intros w' Hw'. rewrite bind_get, Hw'. reflexivity.
Qed.

Lemma loadSprite_start_cached (spriteName : option string) (img : Image)
    (w : World) :
  SPRITE_IMAGES w !! key spriteName = Some img ->
  loadSprite_start spriteName w = (Ok (Returned (Some img)), w).
Proof. intros H. unfold loadSprite_start. rewrite bind_get, H. reflexivity. Qed.

(** C1, amended.  Two calls for a name that is not cached and can be
    downloaded, the second made before the first download has
    settled, both start a download of the same URL and both wait: two
    downloads, not one.  Only once a download has succeeded is a call
    answered from the cache, without a download. *)
Theorem concurrent_calls_download_twice (w : World) (spriteName : option string)
    (img : Image) :
  fst (loadSprite_start spriteName w) = Ok (Suspended img) ->
  let both := bind (loadSprite_start spriteName) (fun one =>
              bind (loadSprite_start spriteName) (fun other =>
              ret (one, other))) in
  fst (both w) = Ok (Suspended img, Suspended img)
  /\ downloads both w = [src img; src img]
  /\ SPRITE_IMAGES (snd (both w)) = SPRITE_IMAGES w
  /\ let loaded := snd (loadSprite_settle spriteName img true (snd (both w))) in
     loadSprite_start spriteName loaded = (Ok (Returned (Some img)), loaded)
     /\ downloads (loadSprite_start spriteName) loaded = [].
Proof.
  intros Hs both. destruct (loadSprite_start_suspended _ _ _ Hs) as [Hc Hall].
  set (e := ImageLoad (src img)).
  assert (Hboth : both w = (Ok (Suspended img, Suspended img),
                            add_event e (add_event e w))).
  { unfold both, bind. rewrite (Hall w Hc).
    rewrite (Hall (add_event (ImageLoad (src img)) w) Hc). reflexivity. }
  rewrite Hboth. cbn [fst snd].
  split; [reflexivity|].
  split.
  { unfold downloads, new_events. rewrite Hboth. cbn [snd trace add_event].
    rewrite <- app_assoc, drop_app_length. reflexivity. }
  split; [reflexivity|].
  cbn [loadSprite_settle]. rewrite bind_modify. cbn [snd ret].
  match goal with
  | |- loadSprite_start _ ?loaded = _ /\ _ =>
      assert (Hhit : loadSprite_start spriteName loaded
                     = (Ok (Returned (Some img)), loaded))
  end.
  { apply loadSprite_start_cached.
    cbn [SPRITE_IMAGES set_SPRITE_IMAGES add_event]. apply lookup_insert_eq. }
  split; [exact Hhit|].
  unfold downloads, new_events. rewrite Hhit. cbn [snd].
  rewrite drop_all. reflexivity.
Qed.

(** C2, amended.  When the download a call waits for fails, the call
    returns [null] and the world is as it was while waiting: the cache
    has no entry for the name, failed or otherwise.  The next call for
    the name therefore starts a download again, and returns [null]
    again if that one fails and the image if it succeeds. *)
Theorem failed_load_is_retried (w : World) (spriteName : option string)
    (img : Image) :
  fst (loadSprite_start spriteName w) = Ok (Suspended img) ->
  let waiting := snd (loadSprite_start spriteName w) in
  let retrying := add_event (ImageLoad (src img)) waiting in
  loadSprite_settle spriteName img false waiting = (Ok None, waiting)
  /\ SPRITE_IMAGES waiting = SPRITE_IMAGES w
  /\ SPRITE_IMAGES waiting !! key spriteName = None
  /\ loadSprite_start spriteName waiting = (Ok (Suspended img), retrying)
  /\ downloads (loadSprite_start spriteName) waiting = [src img]
  /\ loadSprite_settle spriteName img false retrying = (Ok None, retrying)
  /\ fst (loadSprite_settle spriteName img true retrying) = Ok (Some img).
Proof.
  intros Hs. destruct (loadSprite_start_suspended _ _ _ Hs) as [Hc Hall].
  cbv zeta. rewrite (Hall w Hc). cbn [snd].
  split; [reflexivity|]. split; [reflexivity|]. split; [exact Hc|].
  split; [apply Hall; exact Hc|].
  split; [|split; reflexivity].
  unfold downloads, new_events.
  rewrite (Hall (add_event (ImageLoad (src img)) w) Hc).
  cbn [snd trace add_event]. rewrite drop_app_length. reflexivity.
Qed.

(** *** Cells that are not there *)

Lemma undefined_unmapped : MAP_SPRITES !! "undefined" = None.
Proof. vm_compute. reflexivity. Qed.

Lemma loadSprite_undefined decodes (w : World) :
  no_undefined_entry w -> loadSprite decodes None w = (Throw, w).
Proof.
  intros H. unfold loadSprite, loadSprite_start, bind at 1.
  rewrite bind_get. cbv [key]. rewrite H, undefined_unmapped. reflexivity.
Qed.

Lemma drawTile_missing_cell decodes (g : Grid) (r c : nat) (w : World) :
  cellAt g r c = None -> no_undefined_entry w ->
  fst (drawTile decodes g r c w) = Throw.
Proof.
  intros Hcell Hw. unfold drawTile, bind. rewrite Hcell.
  rewrite (loadSprite_undefined decodes w Hw). reflexivity.
Qed.

Lemma loadSprite_keeps_no_undefined decodes (spriteName : option string)
    (w : World) :
  no_undefined_entry w -> no_undefined_entry (snd (loadSprite decodes spriteName w)).
Proof.
  intros Hw. destruct spriteName as [name|];
    [|rewrite (loadSprite_undefined decodes w Hw); exact Hw].
  unfold loadSprite, loadSprite_start, bind at 1. rewrite bind_get. cbv [key].
  destruct (SPRITE_IMAGES w !! name); [exact Hw|].
  destruct (String.eqb_spec name "undefined") as [->|Hne].
  { rewrite undefined_unmapped. exact Hw. }
  assert (Hins : forall img e,
             no_undefined_entry
               (set_SPRITE_IMAGES (insert name img) (add_event e w))).
  { intros img e. unfold no_undefined_entry.
    cbn [SPRITE_IMAGES set_SPRITE_IMAGES add_event].
    rewrite lookup_insert_ne; [exact Hw | exact Hne]. }
  destruct (MAP_SPRITES !! name) as [file|].
  - rewrite bind_emit. cbn [ret]. rewrite bind_get.
    unfold loadSprite_settle. destruct (decodes _ _); [apply Hins | exact Hw].
  - destruct (negb (endsWith name ".png")); [exact Hw|].
    rewrite bind_emit. cbn [ret]. rewrite bind_get.
    unfold loadSprite_settle. destruct (decodes _ _); [apply Hins | exact Hw].
Qed.

Lemma drawTile_keeps_no_undefined decodes (g : Grid) (r c : nat) (w : World) :
  no_undefined_entry w -> no_undefined_entry (snd (drawTile decodes g r c w)).
Proof.
  intros Hw. unfold drawTile, bind.
  pose proof (loadSprite_keeps_no_undefined decodes (cellAt g r c) w Hw) as H.
  destruct (loadSprite decodes (cellAt g r c) w) as [[[img|]|] w1];
    cbn [snd] in *; exact H.
Qed.

Lemma forEach_keeps {A} (P : World -> Prop) (l : list A) (body : A -> M unit) :
  (forall x w, P w -> P (snd (body x w))) ->
  forall w, P w -> P (snd (forEach l body w)).
Proof.
  intros Hb. induction l as [|x l IH]; intros w Hw; [exact Hw|].
  cbn [forEach]. unfold bind. specialize (Hb x w Hw).
  destruct (body x w) as [[[]|] w1]; cbn [snd] in *; [apply IH|]; exact Hb.
Qed.

Lemma forEach_throws {A} (P : World -> Prop) (l : list A) (body : A -> M unit)
    (x : A) :
  In x l ->
  (forall y w, P w -> P (snd (body y w))) ->
  (forall w, P w -> fst (body x w) = Throw) ->
  forall w, P w -> fst (forEach l body w) = Throw.
Proof.
  intros Hin Hkeep Hx. induction l as [|y l IH]; [contradiction|].
  intros w Hw. cbn [forEach]. unfold bind.
  destruct Hin as [->|Hin].
  - specialize (Hx w Hw). destruct (body x w) as [[[]|] w1];
      cbn [fst] in *; [discriminate | reflexivity].
  - specialize (Hkeep y w Hw). destruct (body y w) as [[[]|] w1];
      cbn [snd] in *; [now apply IH | reflexivity].
Qed.

(** Whatever the downloads do, a grid with a row shorter than its
    first row makes [drawMap] throw. *)
Lemma drawMap_short_row_throws decodes (row0 : list string)
    (rows : list (list string)) (r : nat) (row : list string) (w : World) :
  (row0 :: rows) !! r = Some row -> (length row < length row0)%nat ->
  no_undefined_entry w ->
  fst (drawMap decodes (row0 :: rows) w) = Throw.
Proof.
  intros Hrow Hshort Hw. unfold drawMap. cbv zeta.
  rewrite bind_modify, !bind_emit.
  apply (forEach_throws no_undefined_entry _ _ r).
  - apply in_seq. apply lookup_lt_Some in Hrow. lia.
  - intros r' w' Hw'. apply forEach_keeps; [|exact Hw'].
    intros c w''. apply drawTile_keeps_no_undefined.
  - intros w' Hw'.
    apply (forEach_throws no_undefined_entry _ _ (length row)).
    + apply in_seq. lia.
    + intros c w''. apply drawTile_keeps_no_undefined.
    + intros w'' Hw''. apply drawTile_missing_cell; [|exact Hw''].
      unfold cellAt.
      match goal with
      | |- match ?x with _ => _ end = None =>
          replace x with (Some row) by (symmetry; exact Hrow)
      end.
      apply lookup_ge_None_2. lia.
    + exact Hw'.
  - exact Hw.
Qed.

(** C4, at the failing input.  The two-by-two level ["bb"; "b "]
    loses its final blank to [trim], decodes to a grid whose second row
    is shorter than the first, and [drawMap] throws on it after three
    tiles, whatever happens to the downloads. *)
Theorem drawMap_throws_on_short_row decodes :
  parseAsciiMap (Some levelEndingInSpace) = [["b"; "b"]; ["b"]]
  /\ fst (drawMap decodes (parseAsciiMap (Some levelEndingInSpace)) initialWorld)
     = Throw
  /\ omap tile_position
       (new_events (drawMap decodes (parseAsciiMap (Some levelEndingInSpace)))
                   initialWorld)
     = [(0, 0); (20, 0); (0, 20)].
Proof.
  assert (Hg : parseAsciiMap (Some levelEndingInSpace) = [["b"; "b"]; ["b"]])
    by (vm_compute; reflexivity).
  split; [exact Hg|]. rewrite Hg. split.
  - apply (drawMap_short_row_throws decodes _ _ 1%nat ["b"]);
      [reflexivity | cbn; lia | reflexivity].
  - unfold new_events, drawMap, drawTile, loadSprite. vm_compute.
    repeat match goal with
           | |- context [decodes ?n ?u] => destruct (decodes n u)
           end; reflexivity.
Qed.

End SpriteFacts.

(** ** The progress stream *)

Section StreamFacts.
Import ProgressStream StreamObservations.
Context {R : Rendering}.

(** C10.  While the stream [id] is open, an event whose status is
    "error" and a failure of the connection are both handled to the
    end: the stream is closed and the variable holding it is reset, no
    stream is opened (no retry, no reconnection), the status text
    shows an error message (the event's own message, also raised as an
    alert, or the fixed connection message), the loading indicator is
    hidden, and the results table and the metrics are left as they
    were. *)
Theorem stream_error_stops_stream (p : PageState) (id : positive)
    (progressData : ProgressData) :
  progressEventSource p = Some id ->
  status progressData = Some "error" ->
  (exists p',
      onmessage progressData p = Some p'
      /\ stopped_with p p' id ("Errore: " ++ interpolate (error progressData))%string
      /\ alerts p' = alerts p ++ [("Si è verificato un errore: "
                                   ++ interpolate (error progressData))%string])
  /\ (exists p',
         onerror p = Some p'
         /\ stopped_with p p' id "Errore nella connessione col server. Riprova."
         /\ alerts p' = alerts p).
Proof.
  intros Hopen Hstatus. split.
  - unfold onmessage. rewrite Hstatus.
    rewrite bool_decide_eq_false_2 by discriminate.
    rewrite bool_decide_eq_true_2 by reflexivity.
    unfold closeStream. rewrite Hopen. cbn [mbind option_bind].
    eexists. split; [reflexivity|].
    unfold stopped_with. cbn. repeat split.
  - unfold onerror, closeStream. rewrite Hopen. cbn [mbind option_bind].
    eexists. split; [reflexivity|].
    unfold stopped_with. cbn. repeat split.
Qed.

End StreamFacts.

(** ** Where those statements fail, and instances of the theorems *)

Section Instances.
Import JsString MapDecoder GameVisualization Observations.
Import ProgressStream StreamObservations.
Local Open Scope js_scope.

(** C1, counterexample.  With an empty cache, two calls for ["b"]
    made back to back start two downloads. *)
Lemma loadSprite_calls_do_not_coalesce :
  fst (loadSprite_start (Some "b") initialWorld) = Ok (Suspended babaImage)
  /\ downloads (bind (loadSprite_start (Some "b"))
                     (fun _ => loadSprite_start (Some "b"))) initialWorld
     = [src babaImage; src babaImage]
  /\ ~ coalescing.
Proof.
  assert (H1 : fst (loadSprite_start (Some "b") initialWorld)
               = Ok (Suspended babaImage)) by (vm_compute; reflexivity).
  split; [exact H1|]. split; [vm_compute; reflexivity|].
  intros Hclaim. specialize (Hclaim initialWorld (Some "b") babaImage H1).
  vm_compute in Hclaim. discriminate.
Qed.

(** The page itself makes such calls: [preloadSprites] asks for
    [floor_obj.png] twice (it is the sprite of ['.'] and of ['o'])
    before anything has loaded, and downloads it twice. *)
Lemma preloadSprites_downloads_floor_twice :
  length (imageLoads (trace (snd (preloadSprites_start initialWorld)))) = 35%nat
  /\ length (List.filter (String.eqb "/static/img/floor_obj.png")
               (imageLoads (trace (snd (preloadSprites_start initialWorld)))))
     = 2%nat.
Proof. split; vm_compute; reflexivity. Qed.

(** With every download failing, each tile of a mapped symbol is a
    fallback rectangle and each one tries the download again; an
    unmapped symbol gets its rectangle without a download. *)
Lemma offline_tiles_fall_back :
  drawMap offline [["b"; "b"; "x"]] initialWorld
  = (Ok tt,
     snd (forEach [ImageLoad (src babaImage); FillRect 0 0;
                   ImageLoad (src babaImage); FillRect 20 0; FillRect 40 0]
                  emit
                  (add_event ClearRect
                     (add_event (CanvasResize 60 20)
                        (set_canvasSize 60 20 initialWorld))))).
Proof. vm_compute. reflexivity. Qed.

(** C1, instance: two calls for ["b"] on an empty cache. *)
Lemma concurrent_calls_download_twice_witness :
  fst (loadSprite_start (Some "b") initialWorld) = Ok (Suspended babaImage)
  /\ downloads (bind (loadSprite_start (Some "b")) (fun one =>
                bind (loadSprite_start (Some "b")) (fun other =>
                ret (one, other)))) initialWorld
     = [src babaImage; src babaImage].
Proof.
  assert (H1 : fst (loadSprite_start (Some "b") initialWorld)
               = Ok (Suspended babaImage)) by (vm_compute; reflexivity).
  split; [exact H1|].
  exact (proj1 (proj2 (concurrent_calls_download_twice
                         initialWorld (Some "b") babaImage H1))).
Defined.

(** C2, counterexample.  After the download of ["b"] has failed, the
    next call for ["b"] does not return [null]: it waits for a new
    download. *)
Lemma failed_load_not_remembered :
  (let failed := snd (bind (loadSprite_start (Some "b"))
                        (fun _ => loadSprite_settle (Some "b") babaImage false)
                        initialWorld) in
   fst (loadSprite_start (Some "b") failed) = Ok (Suspended babaImage)
   /\ downloads (loadSprite_start (Some "b")) failed = [src babaImage])
  /\ ~ failure_remembered.
Proof.
  split; [split; vm_compute; reflexivity|].
  intros Hclaim.
  assert (H1 : fst (loadSprite_start (Some "b") initialWorld)
               = Ok (Suspended babaImage)) by (vm_compute; reflexivity).
  specialize (Hclaim initialWorld (Some "b") babaImage H1).
  vm_compute in Hclaim. discriminate.
Qed.

(** C2, instance: the download of ["b"] fails on an empty cache. *)
Lemma failed_load_is_retried_witness :
  fst (loadSprite_start (Some "b") initialWorld) = Ok (Suspended babaImage)
  /\ downloads (loadSprite_start (Some "b"))
               (snd (loadSprite_start (Some "b") initialWorld))
     = [src babaImage].
Proof.
  assert (H1 : fst (loadSprite_start (Some "b") initialWorld)
               = Ok (Suspended babaImage)) by (vm_compute; reflexivity).
  split; [exact H1|].
  destruct (failed_load_is_retried initialWorld (Some "b") babaImage H1)
    as (_ & _ & _ & _ & Hd & _).
  exact Hd.
Defined.

(** C3, counterexample.  The response carries the initial state only
    ([N = 0]); every callback is present.  The only callback invoked is
    the step update: "no solution" is not reported. *)
Lemma single_state_not_reported :
  notifications (showGameView_response online "lvl1" (ascii_map initialSnapshot)
                   [] allCallbacks (Success [initialSnapshot]) Saved)
                initialWorld
  = [StepUpdate 0 0]
  /\ ~ single_state_reported.
Proof.
  split; [vm_compute; reflexivity|].
  intros Hclaim.
  specialize (Hclaim online initialWorld "lvl1"%string (ascii_map initialSnapshot)
                [] initialSnapshot Saved).
  vm_compute in Hclaim. intuition discriminate.
Qed.

(** C3, instance: a response with two states ([N = 1]). *)
Lemma showGameView_reports_solution_witness :
  covers_first_row (parseAsciiMap (ascii_map initialSnapshot))
  /\ notifications (showGameView_response online "lvl1"
                      (ascii_map initialSnapshot) ["r"] allCallbacks
                      (Success [initialSnapshot; afterRight]) Saved)
                   initialWorld
     = [StepUpdate 0 1; SolutionReady 1].
Proof.
  assert (H1 : covers_first_row (parseAsciiMap (ascii_map initialSnapshot))).
  { vm_compute. repeat constructor. }
  split; [exact H1|].
  destruct (showGameView_reports_solution online initialWorld "lvl1"%string
              (ascii_map initialSnapshot) ["r"%string] allCallbacks
              initialSnapshot [afterRight] Saved H1)
    as (shown & evs & _ & _ & _ & _ & _ & _ & Hnotes & _).
  exact Hnotes.
Defined.

(** C5, instance: the session of one move, standing at step [1]. *)
Lemma replay_restarts_at_first_step_witness :
  precomputedStates atLastStep = [initialSnapshot; afterRight]
  /\ currentStepIndex atLastStep = lastIndex atLastStep
  /\ solutionPlayerInterval atLastStep = None
  /\ exists id playing,
       toggleSolutionPlayback allCallbacks atLastStep = (Ok true, playing)
       /\ currentStepIndex playing = -1
       /\ currentStepIndex (snd (tick online id playing)) = 0.
Proof.
  assert (H1 : precomputedStates atLastStep = [initialSnapshot; afterRight])
    by (vm_compute; reflexivity).
  assert (H2 : currentStepIndex atLastStep = lastIndex atLastStep)
    by (vm_compute; reflexivity).
  assert (H3 : solutionPlayerInterval atLastStep = None)
    by (vm_compute; reflexivity).
  split; [exact H1|]. split; [exact H2|]. split; [exact H3|].
  destruct (replay_restarts_at_first_step online atLastStep allCallbacks
              initialSnapshot [afterRight] H1 H2 H3)
    as (id & playing & Ht & Hi & _ & _ & _ & H0 & _).
  exists id, playing. split; [exact Ht|]. split; [exact Hi | exact H0].
Defined.

(** C6, counterexample.  A second [showGameView] is under way when
    play is clicked, and its response carries no states: an interval
    is active with nothing to play.  The first toggle cancels it, the
    second finds nothing to play and starts none: the controller was
    playing and is now paused. *)
Lemma toggle_twice_loses_playback :
  no_leaked_timer playingNothing
  /\ isPlaying (getState playingNothing) = true
  /\ fst (bind (toggleSolutionPlayback allCallbacks)
               (fun _ => toggleSolutionPlayback allCallbacks) playingNothing)
     = Ok false
  /\ isPlaying (getState (snd (bind (toggleSolutionPlayback allCallbacks)
                                (fun _ => toggleSolutionPlayback allCallbacks)
                                playingNothing)))
     = false
  /\ ~ toggle_twice_restores.
Proof.
  assert (H1 : no_leaked_timer playingNothing).
  { unfold no_leaked_timer. vm_compute. reflexivity. }
  split; [exact H1|].
  split; [vm_compute; reflexivity|].
  split; [vm_compute; reflexivity|].
  split; [vm_compute; reflexivity|].
  intros Hclaim. specialize (Hclaim playingNothing allCallbacks H1).
  vm_compute in Hclaim. discriminate.
Qed.

(** The world of that counterexample is one the module reaches by its
    own calls from its initial state. *)
Lemma playingNothing_reachable : reachable online playingNothing.
Proof.
  replace playingNothing with
    (call online (ShowResponse "lvl2" (Some "b") [] allCallbacks (Success []) Saved)
       (call online (Session (Toggle allCallbacks))
          (call online (ShowRequest (Some "b") SolutionAbsent)
             (call online (ShowResponse "lvl1" (ascii_map initialSnapshot) ["r"]
                             allCallbacks
                             (Success [initialSnapshot; afterRight]) Saved)
                (call online (ShowRequest (ascii_map initialSnapshot)
                                (SolutionArray ["r"]))
                   initialWorld)))))
    by (vm_compute; reflexivity).
  repeat apply reachable_call. apply reachable_initial.
Qed.

(** C6, instance: the session of one move, paused. *)
Lemma toggle_twice_restores_playable_witness :
  no_leaked_timer oneMoveShown
  /\ (isPlaying (getState oneMoveShown) = true -> playable oneMoveShown)
  /\ exists r1 w1 r2 w2,
       toggleSolutionPlayback allCallbacks oneMoveShown = (Ok r1, w1)
       /\ toggleSolutionPlayback allCallbacks w1 = (Ok r2, w2)
       /\ isPlaying (getState w2) = isPlaying (getState oneMoveShown)
       /\ no_leaked_timer w2.
Proof.
  assert (H1 : no_leaked_timer oneMoveShown).
  { unfold no_leaked_timer. vm_compute. reflexivity. }
  assert (H2 : isPlaying (getState oneMoveShown) = true -> playable oneMoveShown).
  { intros _. left. vm_compute. discriminate. }
  split; [exact H1|]. split; [exact H2|].
  destruct (toggle_twice_restores_playable oneMoveShown allCallbacks allCallbacks
              H1 H2)
    as (r1 & w1 & r2 & w2 & Ha & Hb & Hc & Hd & _).
  exists r1, w1, r2, w2. auto.
Defined.

(** C7, instances: index [2] of a session whose last index is [1],
    and index [0] when no session is loaded. *)
Lemma displayStep_rejects_out_of_range_witness :
  (lastIndex oneMoveShown < 2
   /\ displayStep online 2 allCallbacks oneMoveShown = (Ok tt, oneMoveShown))
  /\ (lastIndex initialWorld < 0
      /\ displayStep online 0 allCallbacks initialWorld = (Ok tt, initialWorld)).
Proof.
  assert (H1 : lastIndex oneMoveShown < 2) by (vm_compute; reflexivity).
  assert (H2 : lastIndex initialWorld < 0) by (vm_compute; reflexivity).
  split; (split; [assumption|]).
  - exact (proj1 (displayStep_rejects_out_of_range online oneMoveShown 2
                    allCallbacks (or_intror H1))).
  - exact (proj1 (displayStep_rejects_out_of_range online initialWorld 0
                    allCallbacks (or_intror H2))).
Defined.

(** C8, counterexample.  Steps [0] and [1] of a one-move session have
    been displayed and the index is in range; play is clicked, and the
    index is [-1]. *)
Lemma replay_leaves_range :
  in_range atLastStep
  /\ currentStepIndex (steps online [Toggle allCallbacks] atLastStep) = -1
  /\ lastIndex (steps online [Toggle allCallbacks] atLastStep) = 1
  /\ ~ index_stays_in_range.
Proof.
  assert (H1 : in_range atLastStep).
  { unfold in_range. vm_compute. split; discriminate. }
  assert (H2 : currentStepIndex (steps online [Toggle allCallbacks] atLastStep) = -1)
    by (vm_compute; reflexivity).
  split; [exact H1|]. split; [exact H2|]. split; [vm_compute; reflexivity|].
  intros Hclaim.
  specialize (Hclaim online atLastStep [Toggle allCallbacks] H1).
  unfold in_range in Hclaim. rewrite H2 in Hclaim. lia.
Qed.

(** The world of that counterexample is reached by showing a session
    and displaying its last step. *)
Lemma atLastStep_reachable : reachable online atLastStep.
Proof.
  replace atLastStep with
    (call online (Session (DisplayStep 1 allCallbacks))
       (call online (ShowResponse "lvl1" (ascii_map initialSnapshot) ["r"]
                       allCallbacks
                       (Success [initialSnapshot; afterRight]) Saved)
          (call online (ShowRequest (ascii_map initialSnapshot)
                          (SolutionArray ["r"]))
             initialWorld)))
    by (vm_compute; reflexivity).
  repeat apply reachable_call. apply reachable_initial.
Qed.

(** C8, instance: step [1] of the session of one move. *)
Lemma displayStep_shows_valid_index_witness :
  0 <= 1 <= lastIndex oneMoveShown
  /\ precomputedStates oneMoveShown !! Z.to_nat 1 = Some afterRight
  /\ covers_first_row (parseAsciiMap (ascii_map afterRight))
  /\ exists shown evs,
       displayStep online 1 allCallbacks oneMoveShown = (Ok tt, shown)
       /\ currentStepIndex shown = 1
       /\ trace shown = trace oneMoveShown ++ evs ++ [StepUpdate 1 1]
       /\ omap tile_position evs
          = [(0, 0); (20, 0); (40, 0); (0, 20); (20, 20); (40, 20)].
Proof.
  assert (H1 : 0 <= 1 <= lastIndex oneMoveShown).
  { vm_compute. split; discriminate. }
  assert (H2 : precomputedStates oneMoveShown !! Z.to_nat 1 = Some afterRight)
    by (vm_compute; reflexivity).
  assert (H3 : covers_first_row (parseAsciiMap (ascii_map afterRight))).
  { vm_compute. repeat constructor. }
  split; [exact H1|]. split; [exact H2|]. split; [exact H3|].
  destruct (displayStep_shows_valid_index online oneMoveShown 1 allCallbacks
              afterRight H1 H2 H3)
    as (shown & evs & Ha & Hb & _ & _ & Hc & _ & Hd & _).
  exists shown, evs. split; [exact Ha|]. split; [exact Hb|].
  split; [exact Hc | exact Hd].
Defined.

(** C10, instance: a page in the middle of a batch solve. *)
Lemma stream_error_stops_stream_witness :
  progressEventSource solving = Some 1%positive
  /\ status errorEvent = Some "error"
  /\ (exists p', onmessage errorEvent solving = Some p'
                 /\ stopped_with solving p' 1%positive "Errore: solver crashed")
  /\ (exists p', onerror solving = Some p'
                 /\ stopped_with solving p' 1%positive
                      "Errore nella connessione col server. Riprova.").
Proof.
  split; [reflexivity|]. split; [reflexivity|].
  destruct (stream_error_stops_stream solving 1%positive errorEvent
              eq_refl eq_refl)
    as [(p1 & Ha & Hb & _) (p2 & Hc & Hd & _)].
  split; [exists p1 | exists p2]; auto.
Defined.

End Instances.

(** * Further properties *)

(** ** What every call keeps of the sprite cache *)

Section CacheFacts.
Import JsString MapDecoder GameVisualization Observations.
Import Startup PageControls Coverage.
Local Open Scope js_scope.

Lemma preserves_ret (P : World -> Prop) {A} (a : A) : preserves P (ret a).
Proof. intros w Hw. exact Hw. Qed.

Lemma preserves_throw (P : World -> Prop) {A} : preserves P (@throw A).
Proof. intros w Hw. exact Hw. Qed.

Lemma preserves_get (P : World -> Prop) : preserves P get.
Proof. intros w Hw. exact Hw. Qed.

Lemma preserves_bind (P : World -> Prop) {A B} (c : M A) (k : A -> M B) :
  preserves P c -> (forall a, preserves P (k a)) -> preserves P (bind c k).
Proof.
  intros Hc Hk w Hw. unfold bind. specialize (Hc w Hw).
  destruct (c w) as [[a|] w1]; cbn [snd] in *; [now apply Hk | exact Hc].
Qed.

Lemma preserves_try_catch (P : World -> Prop) {A} (body handler : M A) :
  preserves P body -> preserves P handler -> preserves P (try_catch body handler).
Proof.
  intros Hb Hh w Hw. unfold try_catch. specialize (Hb w Hw).
  destruct (body w) as [[a|] w1]; cbn [snd] in *; [exact Hb | now apply Hh].
Qed.

Lemma preserves_when (P : World -> Prop) (b : bool) (c : M unit) :
  preserves P c -> preserves P (when b c).
Proof. intros Hc. destruct b; [exact Hc | apply preserves_ret]. Qed.

Lemma preserves_detached (P : World -> Prop) (c : M unit) :
  preserves P c -> preserves P (detached c).
Proof. intros Hc w Hw. unfold detached. cbn [snd]. now apply Hc. Qed.

Lemma preserves_forEach (P : World -> Prop) {A} (l : list A) (body : A -> M unit) :
  (forall x, preserves P (body x)) -> preserves P (forEach l body).
Proof.
  intros Hb. induction l as [|x l IH]; cbn [forEach].
  - apply preserves_ret.
  - apply preserves_bind; [apply Hb | intros _; exact IH].
Qed.

Lemma preserves_modify (P : World -> Prop) (f : World -> World) :
  cache_property P -> (forall w, SPRITE_IMAGES (f w) = SPRITE_IMAGES w) ->
  preserves P (modify f).
Proof. intros HP Hf w Hw. cbn. now apply (HP w). Qed.

Lemma preserves_emit (P : World -> Prop) (e : Event) :
  cache_property P -> preserves P (emit e).
Proof. intros HP. apply preserves_modify; [exact HP | reflexivity]. Qed.

(** One step of a proof that a computation keeps a property of the
    cache: a rule of the monad, a setter that leaves the cache alone,
    or a case distinction of the code. *)
Ltac keep_cache :=
  repeat match goal with
    | |- preserves _ (ret _) => apply preserves_ret
    | |- preserves _ throw => apply preserves_throw
    | |- preserves _ get => apply preserves_get
    | |- preserves _ (emit _) => apply preserves_emit; assumption
    | |- preserves _ (modify _) =>
        apply preserves_modify; [assumption | reflexivity]
    | |- preserves _ (when _ _) => apply preserves_when
    | |- preserves _ (detached _) => apply preserves_detached
    | |- preserves _ (try_catch _ _) => apply preserves_try_catch
    | |- preserves _ (bind _ _) => apply preserves_bind; [|intros ?]
    | |- preserves _ (match ?x with _ => _ end) => destruct x
    | |- preserves _ (if ?b then _ else _) => destruct b
    end.

Section Kept.
Variable P : World -> Prop.
Hypothesis cache_only : cache_property P.
Hypothesis inserts : insert_stable P.

Lemma sprite_url_mapped (name file : string) :
  MAP_SPRITES !! name = Some file ->
  (if endsWith name ".png" then SPRITE_BASE_PATH ++ name
   else SPRITE_BASE_PATH ++ file)%string = sprite_url name.
Proof. intros H. unfold sprite_url. rewrite H. reflexivity. Qed.

Lemma preserves_loadSprite decodes (spriteName : option string) :
  preserves P (loadSprite decodes spriteName).
Proof.
  intros w Hw. unfold loadSprite, loadSprite_start. rewrite bind_assoc, bind_get.
  destruct (SPRITE_IMAGES w !! key spriteName); [exact Hw|].
  destruct (MAP_SPRITES !! key spriteName) as [file|] eqn:Hm,
           spriteName as [name|]; try exact Hw; cbv [key] in Hm.
  - rewrite bind_assoc, bind_emit, bind_ret, bind_get.
    unfold loadSprite_settle. destruct (decodes _ _); [|now apply (cache_only w)].
    rewrite bind_modify. cbn [snd ret key].
    apply inserts; [now apply (cache_only w) | left; now rewrite Hm | ].
    cbn [src]. now apply sprite_url_mapped.
  - destruct (endsWith name ".png") eqn:He; cbn [negb]; [|exact Hw].
    rewrite bind_assoc, bind_emit, bind_ret, bind_get.
    unfold loadSprite_settle. destruct (decodes _ _); [|now apply (cache_only w)].
    rewrite bind_modify. cbn [snd ret key].
    apply inserts; [now apply (cache_only w) | now right | ].
    cbn [src]. unfold sprite_url. now rewrite He.
Qed.

Lemma preserves_drawMap decodes (g : Grid) : preserves P (drawMap decodes g).
Proof.
  unfold drawMap. destruct g as [|row0 rows]; [keep_cache|].
  cbv zeta. keep_cache.
  apply preserves_forEach. intros r. apply preserves_forEach. intros c.
  unfold drawTile. apply preserves_bind; [apply preserves_loadSprite|].
  intros [img|]; keep_cache.
Qed.

Lemma preserves_displayPrecomputedStep decodes (i : Z) (cbs : Callbacks) :
  preserves P (displayPrecomputedStep decodes i cbs).
Proof.
  unfold displayPrecomputedStep. keep_cache. apply preserves_drawMap.
Qed.

Lemma preserves_showInitialMap decodes (asciiMap : option string) (cbs : Callbacks) :
  preserves P (showInitialMap decodes asciiMap cbs).
Proof.
  unfold showInitialMap.
  apply preserves_bind; [apply preserves_drawMap | intros _; keep_cache].
Qed.

Lemma preserves_stopPlayer : preserves P stopPlayer.
Proof. unfold stopPlayer, clearInterval. keep_cache. Qed.

Lemma preserves_toggle (cbs : Callbacks) : preserves P (toggleSolutionPlayback cbs).
Proof. unfold toggleSolutionPlayback, clearInterval, setInterval. keep_cache. Qed.

Lemma preserves_tick decodes (id : positive) : preserves P (tick decodes id).
Proof.
  unfold tick, intervalCallback, clearInterval. keep_cache.
  apply preserves_displayPrecomputedStep.
Qed.

Lemma preserves_call decodes (c : Call) (w : World) : P w -> P (call decodes c w).
Proof.
  destruct c as [|asciiMap solution|levelId asciiMap solutionArray cbs response
                  saving|[i cbs|id|cbs]|]; cbn [call step].
  - apply (preserves_bind P); [keep_cache|]. intros _.
    apply preserves_bind; [keep_cache | intros _; apply preserves_stopPlayer].
  - unfold showGameView_request.
    apply (preserves_bind P); [apply preserves_stopPlayer | intros _; keep_cache].
  - unfold showGameView_response, saveStepByStepSolution.
    apply (preserves_try_catch P); [|apply preserves_showInitialMap].
    destruct response as [|states]; [apply preserves_throw|].
    keep_cache; first [apply preserves_showInitialMap
                      | apply preserves_displayPrecomputedStep].
  - apply preserves_displayPrecomputedStep.
  - apply preserves_tick.
  - apply preserves_toggle.
  - unfold cleanup.
    apply (preserves_bind P); [apply preserves_stopPlayer | intros _; keep_cache].
Qed.

Lemma preserves_startCalls (names : list (option string)) :
  preserves P (startCalls names).
Proof.
  induction names as [|name rest IH]; cbn [startCalls]; [apply preserves_ret|].
  apply preserves_bind; [|intros step; apply preserves_bind;
                           [exact IH | intros calls; apply preserves_ret]].
  unfold loadSprite_start. keep_cache.
Qed.

Lemma loadSprite_start_well_started (spriteName : option string) (step : LoadStep)
    (w w1 : World) :
  loadSprite_start spriteName w = (Ok step, w1) -> well_started (spriteName, step).
Proof.
  unfold loadSprite_start. rewrite bind_get.
  destruct (SPRITE_IMAGES w !! key spriteName); [intros [= <- _]; exact I|].
  destruct (MAP_SPRITES !! key spriteName) as [file|] eqn:Hm,
           spriteName as [name|]; try discriminate; cbv [key] in Hm.
  - rewrite bind_emit. intros [= <- _]. exists name.
    split; [reflexivity|]. split; [left; now rewrite Hm|].
    cbn [src]. now apply sprite_url_mapped.
  - destruct (endsWith name ".png") eqn:He; cbn [negb]; [|intros [= <- _]; exact I].
    rewrite bind_emit. intros [= <- _]. exists name.
    split; [reflexivity|]. split; [now right|].
    cbn [src]. unfold sprite_url. now rewrite He.
Qed.

Lemma startCalls_well_started (names : list (option string)) (w w1 : World)
    (calls : list (option string * LoadStep)) :
  startCalls names w = (Ok calls, w1) ->
  Forall well_started calls /\ map fst calls = names.
Proof.
  revert w w1 calls. induction names as [|name rest IH]; intros w w1 calls.
  - intros [= <- _]. split; [constructor | reflexivity].
  - cbn [startCalls]. unfold bind at 1.
    destruct (loadSprite_start name w) as [[step|] w2] eqn:Hs; [|discriminate].
    unfold bind at 1.
    destruct (startCalls rest w2) as [[calls'|] w3] eqn:Hr; [|discriminate].
    intros [= <- _]. destruct (IH _ _ _ Hr) as [Hgood Hnames].
    split; [|cbn; now rewrite Hnames].
    constructor; [|exact Hgood].
    eapply loadSprite_start_well_started. exact Hs.
Qed.

Lemma preserves_settleCalls (decoded : nat -> bool)
    (calls : list (option string * LoadStep)) :
  Forall well_started calls ->
  forall i, preserves P (settleCalls decoded i calls).
Proof.
  induction 1 as [|[spriteName step] calls Hgood _ IH]; intros i;
    cbn [settleCalls]; [apply preserves_ret|].
  apply preserves_bind; [|intros _; apply IH].
  destruct step as [result|img]; [apply preserves_ret|].
  destruct Hgood as (name & -> & Hname & Hsrc).
  unfold loadSprite_settle. destruct (decoded i); [|keep_cache].
  apply preserves_bind; [|intros ?; apply preserves_ret].
  apply preserves_bind; [|intros ?; apply preserves_ret].
  intros w Hw. cbn [snd modify key]. now apply inserts.
Qed.

Lemma preserves_preloadSprites (decoded : nat -> bool) :
  preserves P (preloadSprites decoded).
Proof.
  intros w Hw. unfold preloadSprites, bind.
  pose proof (preserves_startCalls preloadedNames w Hw) as H1.
  destruct (startCalls preloadedNames w) as [[calls|] w1] eqn:Hs; [|exact H1].
  destruct (startCalls_well_started _ _ _ _ Hs) as [Hgood _].
  now apply preserves_settleCalls.
Qed.

Lemma preserves_act decodes (a : Action) (w : World) : P w -> P (act decodes a w).
Proof.
  destruct a as [c|decoded|]; cbn [act].
  - apply preserves_call.
  - apply preserves_preloadSprites.
  - unfold drawEmptyMap.
    apply (preserves_bind P); [apply preserves_get | intros w'; keep_cache].
Qed.

Lemma preserves_acts decodes (actions : list Action) (w : World) :
  P w -> P (acts decodes actions w).
Proof.
  revert w. induction actions as [|a actions IH]; intros w Hw; [exact Hw|].
  cbn [acts fold_left]. apply IH. now apply preserves_act.
Qed.

End Kept.

Lemma consistent_cache_property : cache_property cache_consistent.
Proof. intros w w' Heq Hw name img. rewrite Heq. apply Hw. Qed.

Lemma consistent_insert_stable : insert_stable cache_consistent.
Proof.
  intros w name img Hw Hname Hsrc name' img'.
  cbn [SPRITE_IMAGES set_SPRITE_IMAGES].
  destruct (decide (name = name')) as [<-|Hne].
  - rewrite lookup_insert_eq. intros [= <-]. auto.
  - rewrite lookup_insert_ne by exact Hne. apply Hw.
Qed.




Lemma consistent_no_undefined (w : World) :
  cache_consistent w -> no_undefined_entry w.
Proof.
  intros Hc. unfold no_undefined_entry.
  destruct (SPRITE_IMAGES w !! "undefined") as [img|] eqn:H; [|reflexivity].
  destruct (Hc _ _ H) as [[[file Hm]|He] _].
  - rewrite undefined_unmapped in Hm. discriminate.
  - vm_compute in He. discriminate.
Qed.


(** X1.  The sprite cache stays consistent whatever the page does,
    from the start of the module on: each entry sits under a name that
    is mapped or is a file name and holds the image of that name's
    URL; in particular nothing is ever stored under the key of
    [undefined]. *)
Theorem cache_stays_consistent decodes (actions : list Action) :
  cache_consistent (acts decodes actions initialWorld)
  /\ no_undefined_entry (acts decodes actions initialWorld).
Proof.
  assert (H : cache_consistent (acts decodes actions initialWorld)).
  { apply (preserves_acts cache_consistent consistent_cache_property
             consistent_insert_stable).
    intros name img. cbn [SPRITE_IMAGES initialWorld].
    rewrite lookup_empty. discriminate. }
  split; [exact H | now apply consistent_no_undefined].
Qed.


End CacheFacts.

(** ** The controller under everything the page does *)

Section ControllerFacts.
Import JsString MapDecoder GameVisualization Observations.
Import Startup PageControls Coverage.
Local Open Scope js_scope.

Lemma draws_startCalls (names : list (option string)) : draws (startCalls names) [].
Proof.
  induction names as [|name rest IH]; cbn [startCalls]; [apply draws_ret|].
  apply draws_after; [apply draws_loadSprite_start|]. intros step.
  apply draws_after; [exact IH|]. intros calls. apply draws_ret.
Qed.

Lemma draws_settleCalls (decoded : nat -> bool) (calls : list (option string * LoadStep)) :
  forall i, draws (settleCalls decoded i calls) [].
Proof.
  induction calls as [|[name step] rest IH]; intros i; cbn [settleCalls];
    [apply draws_ret|].
  apply draws_after; [|intros _; apply IH].
  destruct step as [result|img]; [apply draws_ret|].
  apply draws_after; [apply draws_loadSprite_settle | intros ?; apply draws_ret].
Qed.

Lemma draws_preloadSprites (decoded : nat -> bool) :
  draws (preloadSprites decoded) [].
Proof.
  unfold preloadSprites.
  apply draws_after; [apply draws_startCalls | intros calls; apply draws_settleCalls].
Qed.

Lemma draws_drawEmptyMap : draws drawEmptyMap [].
Proof. exact (draws_drawMap (fun _ _ => true) []). Qed.

Lemma no_leak_act decodes (a : Action) (w : World) :
  no_leaked_timer w -> no_leaked_timer (act decodes a w).
Proof.
  intros Hw. destruct a as [c|decoded|]; cbn [act].
  - now apply no_leak_call.
  - apply no_leak_kept; [eapply keeps_draws, draws_preloadSprites | exact Hw].
  - apply no_leak_kept; [eapply keeps_draws, draws_drawEmptyMap | exact Hw].
Qed.

Lemma no_leak_acts decodes (actions : list Action) (w : World) :
  no_leaked_timer w -> no_leaked_timer (acts decodes actions w).
Proof.
  revert w. induction actions as [|a actions IH]; intros w Hw; [exact Hw|].
  cbn [acts fold_left]. apply IH. now apply no_leak_act.
Qed.

Lemma no_leak_initial : no_leaked_timer initialWorld.
Proof. unfold no_leaked_timer. cbn. apply dom_empty_L. Qed.

(** X3.  Whatever the page does, from the start of the module on, the
    browser holds no interval but the one whose handle the module
    keeps: [getState().isPlaying] is true exactly when an interval is
    active, and an active interval is the one that a pause, a new
    session or a clean-up will clear. *)
Theorem one_interval_at_most decodes (actions : list Action) :
  no_leaked_timer (acts decodes actions initialWorld)
  /\ (isPlaying (getState (acts decodes actions initialWorld)) = true
      <-> timers (acts decodes actions initialWorld) <> ∅)
  /\ (forall id, is_Some (timers (acts decodes actions initialWorld) !! id) ->
                 solutionPlayerInterval (acts decodes actions initialWorld) = Some id).
Proof.
  pose proof (no_leak_acts decodes actions initialWorld no_leak_initial) as H.
  split; [exact H|]. unfold no_leaked_timer in H. unfold getState. cbn [isPlaying].
  destruct (solutionPlayerInterval (acts decodes actions initialWorld)) as [held|].
  - split.
    + split; [|reflexivity]. intros _ He. rewrite He, dom_empty_L in H.
      assert (held ∈ (∅ : gset positive)) as Hin by (rewrite H; now apply elem_of_singleton).
      now apply not_elem_of_empty in Hin.
    + intros id Hid. apply elem_of_dom in Hid. rewrite H in Hid.
      apply elem_of_singleton in Hid. now subst.
  - apply dom_empty_inv_L in H. rewrite H. split.
    + split; [discriminate | congruence].
    + intros id [cl Hid]. rewrite lookup_empty in Hid. discriminate.
Qed.

(** *** The step index *)











Lemma stopPlayer_frame (w : World) :
  stopPlayer w
  = (Ok tt, snd (stopPlayer w))
  /\ currentStepIndex (snd (stopPlayer w)) = currentStepIndex w
  /\ precomputedStates (snd (stopPlayer w)) = precomputedStates w
  /\ currentSolution (snd (stopPlayer w)) = currentSolution w
  /\ SPRITE_IMAGES (snd (stopPlayer w)) = SPRITE_IMAGES w
  /\ trace (snd (stopPlayer w)) = trace w
  /\ solutionPlayerInterval (snd (stopPlayer w)) = None.
Proof.
  unfold stopPlayer. rewrite bind_get.
  destruct (solutionPlayerInterval w) eqn:H; cbn; rewrite ?H; repeat split.
Qed.





End ControllerFacts.

(** ** Playback from start to end, and closing *)

Section SessionFacts.
Import JsString MapDecoder GameVisualization Observations.
Import Startup PageControls Coverage.
Local Open Scope js_scope.

Lemma ticks_succ decodes (id : positive) (n : nat) (w : World) :
  ticks decodes id (S n) w = snd (tick decodes id (ticks decodes id n w)).
Proof. reflexivity. Qed.

(** One firing below the limit of the interval, in a loaded session:
    the next snapshot is displayed and nothing else moves. *)
Lemma tick_moves_on decodes (w : World) (id : positive) (cl : Closure) :
  timers w !! id = Some cl ->
  -1 <= currentStepIndex w < maxStepIndex cl ->
  maxStepIndex cl <= lastIndex w ->
  currentStepIndex (snd (tick decodes id w)) = currentStepIndex w + 1
  /\ precomputedStates (snd (tick decodes id w)) = precomputedStates w
  /\ currentSolution (snd (tick decodes id w)) = currentSolution w
  /\ solutionPlayerInterval (snd (tick decodes id w)) = solutionPlayerInterval w
  /\ timers (snd (tick decodes id w)) = timers w.
Proof.
  intros Hl Hi Hmax.
  rewrite (tick_advances decodes w id cl Hl) by lia. cbn [snd].
  destruct (displayPrecomputedStep_cases decodes w (currentStepIndex w + 1)
              (timerCallbacks cl)) as [[Hout _]|[_ [state [_ ->]]]]; [lia|].
  apply displayed_frame.
Qed.

Lemma ticks_move_on decodes (w : World) (id : positive) (cl : Closure) (n : nat) :
  timers w !! id = Some cl ->
  -1 <= currentStepIndex w ->
  currentStepIndex w + Z.of_nat n <= maxStepIndex cl ->
  maxStepIndex cl <= lastIndex w ->
  currentStepIndex (ticks decodes id n w) = currentStepIndex w + Z.of_nat n
  /\ precomputedStates (ticks decodes id n w) = precomputedStates w
  /\ currentSolution (ticks decodes id n w) = currentSolution w
  /\ solutionPlayerInterval (ticks decodes id n w) = solutionPlayerInterval w
  /\ timers (ticks decodes id n w) = timers w.
Proof.
  intros Hl Hlow Hn Hmax. induction n as [|n IH].
  - cbn. rewrite Z.add_0_r. repeat split.
  - destruct IH as (H1 & H2 & H3 & H4 & H5); [lia|].
    rewrite ticks_succ.
    destruct (tick_moves_on decodes (ticks decodes id n w) id cl)
      as (K1 & K2 & K3 & K4 & K5).
    + now rewrite H5.
    + rewrite H1. lia.
    + unfold lastIndex in *. now rewrite H2.
    + rewrite K1, K2, K3, K4, K5, H1, H2, H3, H4, H5.
      repeat split. lia.
Qed.

(** X5.  Playback runs to the end and stops by itself.  In a loaded
    session whose interval remembers the last index [N], with the step
    index at [i], the next [N - i] firings display the snapshots
    [i+1], ..., [N] one by one while the interval stays active; the
    firing after that displays nothing, clears the interval, reports
    the end of playback (if that callback was given) and leaves no
    timer behind; any later firing of the cleared interval does
    nothing. *)
Theorem playback_runs_to_the_end decodes (w : World) (id : positive) (cl : Closure) :
  no_leaked_timer w ->
  solutionPlayerInterval w = Some id ->
  timers w !! id = Some cl ->
  maxStepIndex cl = lastIndex w ->
  -1 <= currentStepIndex w <= lastIndex w ->
  (forall k : nat,
      Z.of_nat k <= lastIndex w - currentStepIndex w ->
      currentStepIndex (ticks decodes id k w) = currentStepIndex w + Z.of_nat k
      /\ solutionPlayerInterval (ticks decodes id k w) = Some id)
  /\ exists atEnd finished,
      atEnd = ticks decodes id (Z.to_nat (lastIndex w - currentStepIndex w)) w
      /\ currentStepIndex atEnd = lastIndex w
      /\ tick decodes id atEnd = (Ok tt, finished)
      /\ currentStepIndex finished = lastIndex w
      /\ precomputedStates finished = precomputedStates w
      /\ solutionPlayerInterval finished = None
      /\ timers finished = ∅
      /\ new_events (tick decodes id) atEnd
         = (if onPlaybackEnd (timerCallbacks cl) then [PlaybackEnd] else [])
      /\ tick decodes id finished = (Ok tt, finished).
Proof.
  intros Hleak Hheld Hl Hmax Hi. split.
  - intros k Hk.
    destruct (ticks_move_on decodes w id cl k Hl) as (H1 & _ & _ & H4 & _);
      [lia | lia | lia |].
    rewrite H1, H4. auto.
  - set (n := Z.to_nat (lastIndex w - currentStepIndex w)).
    destruct (ticks_move_on decodes w id cl n Hl) as (H1 & H2 & H3 & H4 & H5);
      [lia | unfold n; lia | lia |].
    set (atEnd := ticks decodes id n w) in *.
    assert (Hend : currentStepIndex atEnd = lastIndex w) by (rewrite H1; unfold n; lia).
    assert (Hempty : delete id (timers w) = ∅).
    { apply dom_empty_inv_L. unfold no_leaked_timer in Hleak.
      rewrite Hheld in Hleak. rewrite dom_delete_L, Hleak.
      apply difference_diag_L. }
    assert (Htick : tick decodes id atEnd
                    = (Ok tt,
                       (if onPlaybackEnd (timerCallbacks cl)
                        then add_event PlaybackEnd else fun w => w)
                         (set_solutionPlayerInterval None
                            (set_timers (delete id) atEnd)))).
    { unfold tick. rewrite bind_get, H5, Hl.
      unfold intervalCallback. rewrite bind_get.
      destruct (Z.ltb_spec (currentStepIndex atEnd) (maxStepIndex cl)); [lia|].
      rewrite H4, Hheld. unfold clearInterval, when.
      destruct (onPlaybackEnd (timerCallbacks cl)); reflexivity. }
    eexists atEnd, _. split; [reflexivity|]. split; [exact Hend|].
    split; [exact Htick|].
    assert (Hgone : forall f : World -> World,
               (forall v, timers (f v) = timers v) ->
               timers (f (set_solutionPlayerInterval None
                            (set_timers (delete id) atEnd))) = ∅).
    { intros f Hf. rewrite Hf. cbn. now rewrite H5. }
    destruct (onPlaybackEnd (timerCallbacks cl)).
    + split; [exact Hend|]. split; [exact H2|]. split; [reflexivity|].
      split; [now apply (Hgone (add_event PlaybackEnd))|].
      split.
      * unfold new_events. rewrite Htick. cbn [snd trace add_event
          set_solutionPlayerInterval set_timers]. apply drop_app_length.
      * apply tick_cleared. rewrite (Hgone (add_event PlaybackEnd)) by reflexivity.
        apply lookup_empty.
    + split; [exact Hend|]. split; [exact H2|]. split; [reflexivity|].
      split; [now apply (Hgone (fun v => v))|].
      split.
      * unfold new_events. rewrite Htick. cbn [snd trace
          set_solutionPlayerInterval set_timers]. apply drop_all.
      * apply tick_cleared. rewrite (Hgone (fun v => v)) by reflexivity.
        apply lookup_empty.
Qed.

(** X6.  Playback started while no states are loaded stands still
    and never ends.  With no states loaded but a solution still
    remembered (a new [showGameView] is waiting for its response, or
    its request has failed), [toggleSolutionPlayback] returns [true]
    and starts an interval; however often that interval fires, nothing
    is displayed, the step index does not move and the interval is not
    cleared. *)
Theorem playback_without_states_stands_still decodes (w : World)
    (callbacks : Callbacks) :
  solutionPlayerInterval w = None ->
  precomputedStates w = [] ->
  currentSolution w <> [] ->
  exists id playing,
    toggleSolutionPlayback callbacks w = (Ok true, playing)
    /\ solutionPlayerInterval playing = Some id
    /\ isPlaying (getState playing) = true
    /\ forall n : nat,
        tick decodes id (ticks decodes id n playing)
        = (Ok tt, ticks decodes id n playing)
        /\ ticks decodes id n playing = playing.
Proof.
  intros Hnone Hstates Hsol.
  assert (Hp : playable w) by now right.
  exists (fresh (dom (timers w))), (started callbacks w).
  split; [now apply toggle_starts|]. split; [reflexivity|].
  split; [reflexivity|].
  assert (Hstill : tick decodes (fresh (dom (timers w))) (started callbacks w)
                   = (Ok tt, started callbacks w)).
  { apply playable_limit in Hp.
    set (cl := {| maxStepIndex := playbackLimit w; timerCallbacks := callbacks |}).
    assert (Hl : timers (started callbacks w) !! fresh (dom (timers w)) = Some cl).
    { unfold started. cbn [timers set_solutionPlayerInterval set_timers].
      destruct (currentStepIndex w >=? playbackLimit w);
        cbn [timers set_currentStepIndex]; apply lookup_insert_eq. }
    assert (Hlt : currentStepIndex (started callbacks w) < maxStepIndex cl).
    { unfold started. cbn [currentStepIndex set_solutionPlayerInterval set_timers
                             maxStepIndex cl].
      destruct (currentStepIndex w >=? playbackLimit w) eqn:E;
        cbn [currentStepIndex set_currentStepIndex];
        [lia | now apply geb_false in E]. }
    rewrite (tick_advances decodes _ _ cl Hl Hlt). f_equal.
    assert (Hs : precomputedStates (started callbacks w) = []).
    { unfold started. cbn [precomputedStates set_solutionPlayerInterval set_timers].
      destruct (currentStepIndex w >=? playbackLimit w); exact Hstates. }
    unfold displayPrecomputedStep. rewrite bind_get, Hs. reflexivity. }
  assert (Hn : forall n, ticks decodes (fresh (dom (timers w))) n (started callbacks w)
                         = started callbacks w).
  { induction n as [|n IH]; [reflexivity|].
    rewrite ticks_succ, IH, Hstill. reflexivity. }
  intros n. rewrite Hn. split; [exact Hstill | reflexivity].
Qed.


Lemma showInitialMap_runs decodes (asciiMap : option string) (cbs : Callbacks)
    (w : World) :
  covers_first_row (parseAsciiMap asciiMap) ->
  exists evs drawn,
    renders w drawn evs
    /\ omap tile_position evs = tile_positions (parseAsciiMap asciiMap)
    /\ SPRITE_IMAGES drawn = SPRITE_IMAGES (snd (drawMap decodes (parseAsciiMap asciiMap) w))
    /\ showInitialMap decodes asciiMap cbs w
       = (Ok tt, if onNoSolution cbs then add_event NoSolution drawn else drawn).
Proof.
  intros Hcov.
  pose proof (drawMap_completes decodes _ w Hcov) as Hok.
  destruct (draws_drawMap decodes (parseAsciiMap asciiMap) w) as [evs [Hr Ht]].
  exists evs, (snd (drawMap decodes (parseAsciiMap asciiMap) w)).
  split; [exact Hr|]. split; [apply Ht; now rewrite Hok|]. split; [reflexivity|].
  unfold showInitialMap, bind.
  destruct (drawMap decodes (parseAsciiMap asciiMap) w) as [[[]|] wd];
    [|discriminate].
  cbn [snd]. unfold when. destruct (onNoSolution cbs); reflexivity.
Qed.

Lemma canvas_events_are_no_messages (evs : list Event) :
  forallb is_canvas_event evs = true -> List.filter is_message evs = [].
Proof.
  induction evs as [|e evs IH]; [reflexivity|]. cbn [forallb List.filter].
  intros H. apply andb_true_iff in H as [He Hrest].
  unfold is_message at 1. rewrite He. now apply IH.
Qed.

(** X8.  [showGameView] without states: when the request for the
    states fails, or succeeds with no states at all, the call still
    completes (for a map none of whose rows is shorter than the
    first).  It stops playback, sends the one request, draws the
    level's initial map tile by tile and reports "no solution" (if
    that callback was given) and nothing else; afterwards no states
    are loaded, the step index is [-1] and no interval is active.  The
    remembered solution is the new one after an empty success, but
    still the previous one after a failure. *)
Theorem showGameView_falls_back decodes (w : World) (levelId : string)
    (asciiMap : option string) (solution : Solution) (callbacks : Callbacks)
    (response : Response) (saving : SaveResult) :
  no_leaked_timer w ->
  covers_first_row (parseAsciiMap asciiMap) ->
  response = Failure \/ response = Success [] ->
  exists shown,
    showGameView decodes levelId asciiMap solution callbacks response saving w
    = (Ok tt, shown)
    /\ List.filter is_message
         (new_events (showGameView decodes levelId asciiMap solution callbacks
                        response saving) w)
       = FetchStates asciiMap (toSolutionArray solution)
         :: (if onNoSolution callbacks then [NoSolution] else [])
    /\ omap tile_position
         (new_events (showGameView decodes levelId asciiMap solution callbacks
                        response saving) w)
       = tile_positions (parseAsciiMap asciiMap)
    /\ precomputedStates shown = []
    /\ currentStepIndex shown = -1
    /\ solutionPlayerInterval shown = None
    /\ timers shown = ∅
    /\ currentSolution shown
       = match response with
         | Failure => currentSolution w
         | Success _ => toSolutionArray solution
         end.
Proof.
  intros Hleak Hcov Hresp.
  destruct (no_leak_stopPlayer w Hleak) as [Hleak1 Hnone].
  destruct (stopPlayer_frame w) as (Hstop & _ & _ & H3 & _ & H5 & _).
  set (w0 := snd (stopPlayer w)) in *.
  assert (Ht0 : timers w0 = ∅).
  { unfold no_leaked_timer in Hleak1. rewrite Hnone in Hleak1.
    now apply dom_empty_inv_L. }
  set (fetch := FetchStates asciiMap (toSolutionArray solution)).
  set (w1 := add_event fetch
               (set_precomputedStates [] (set_currentStepIndex (-1) w0))).
  assert (Hreq : showGameView_request asciiMap solution w
                 = (Ok (toSolutionArray solution), w1)).
  { unfold showGameView_request, bind at 1. rewrite Hstop.
    rewrite !bind_modify, bind_emit. reflexivity. }
  set (w2 := match response with
             | Failure => w1
             | Success _ =>
                 set_currentSolution (toSolutionArray solution)
                   (set_precomputedStates [] w1)
             end).
  assert (Hrun : showGameView decodes levelId asciiMap solution callbacks
                   response saving w
                 = showInitialMap decodes asciiMap callbacks w2).
  { unfold showGameView, bind at 1. rewrite Hreq.
    unfold showGameView_response, try_catch.
    destruct Hresp as [-> | ->].
    - reflexivity.
    - rewrite !bind_modify. change (1 <? len []) with false.
      change (0 <? len []) with false. unfold when. rewrite bind_ret.
      unfold w2.
      destruct (showInitialMap_runs decodes asciiMap callbacks
                  (set_currentSolution (toSolutionArray solution)
                     (set_precomputedStates [] w1)) Hcov)
        as (evs & drawn & _ & _ & _ & ->). reflexivity. }
  destruct (showInitialMap_runs decodes asciiMap callbacks w2 Hcov)
    as (evs & drawn & Hr & Htiles & _ & Hshow).
  destruct Hr as (R1 & R2 & R3 & R4 & R5 & R6 & R7).
  assert (Htrace2 : trace w2 = trace w ++ [fetch]).
  { unfold w2. destruct response; cbn; now rewrite H5. }
  assert (Hnew : new_events (showGameView decodes levelId asciiMap solution
                               callbacks response saving) w
                 = fetch :: evs
                   ++ (if onNoSolution callbacks then [NoSolution] else [])).
  { unfold new_events. rewrite Hrun, Hshow. cbn [snd].
    destruct (onNoSolution callbacks); cbn [trace add_event];
      rewrite R6, Htrace2, <- ?app_assoc, drop_app_length; cbn [app];
      [reflexivity | now rewrite app_nil_r]. }
  exists (if onNoSolution callbacks then add_event NoSolution drawn else drawn).
  split; [now rewrite Hrun|].
  split.
  { rewrite Hnew. cbn [List.filter is_message is_canvas_event negb fetch].
    f_equal. rewrite List.filter_app, (canvas_events_are_no_messages evs R7).
    destruct (onNoSolution callbacks); reflexivity. }
  split.
  { rewrite Hnew. cbn [omap tile_position fetch].
    change (omap tile_position (evs ++ (if onNoSolution callbacks then [NoSolution] else [])) = tile_positions (parseAsciiMap asciiMap)).
    rewrite omap_app, Htiles.
    destruct (onNoSolution callbacks); cbn; now rewrite app_nil_r. }
  assert (Hfields : precomputedStates drawn = []
                    /\ currentStepIndex drawn = -1
                    /\ solutionPlayerInterval drawn = None
                    /\ timers drawn = ∅
                    /\ currentSolution drawn
                       = match response with
                         | Failure => currentSolution w
                         | Success _ => toSolutionArray solution
                         end).
  { rewrite R1, R2, R3, R4, R5. unfold w2.
    destruct response; cbn; rewrite ?Hnone, ?Ht0, ?H3; repeat split. }
  destruct (onNoSolution callbacks); exact Hfields.
Qed.

(** X16.  [toggleSolutionPlayback] always completes, and what it
    returns is the playing flag it leaves: [true] exactly when an
    interval is active afterwards.  It starts playback only from a
    paused controller with something to play, and then the step index
    it leaves is below the limit the interval remembers, so the first
    firing displays a step instead of ending the playback.  The toggle
    itself draws nothing, invokes no callback and leaves the loaded
    states, the solution and the sprite cache alone. *)
Theorem toggle_reports_playing (w : World) (callbacks : Callbacks) :
  exists playing after,
    toggleSolutionPlayback callbacks w = (Ok playing, after)
    /\ playing = isPlaying (getState after)
    /\ (playing = true ->
        isPlaying (getState w) = false
        /\ playable w
        /\ exists id,
            solutionPlayerInterval after = Some id
            /\ timers after !! id = Some {| maxStepIndex := playbackLimit w;
                                            timerCallbacks := callbacks |}
            /\ currentStepIndex after < playbackLimit w)
    /\ precomputedStates after = precomputedStates w
    /\ currentSolution after = currentSolution w
    /\ SPRITE_IMAGES after = SPRITE_IMAGES w
    /\ trace after = trace w.
Proof.
  destruct (solutionPlayerInterval w) as [held|] eqn:Hh.
  - eexists false, _. split; [exact (toggle_pauses w callbacks held Hh)|].
    split; [reflexivity|]. split; [discriminate | repeat split].
  - destruct (classic_playable w) as [Hp|Hn].
    + exists true, (started callbacks w). split; [now apply toggle_starts|].
      split; [reflexivity|].
      split.
      * intros _. split; [unfold getState; cbn; now rewrite Hh|].
        split; [exact Hp|].
        exists (fresh (dom (timers w))).
        apply playable_limit in Hp. unfold started.
        cbn [solutionPlayerInterval timers currentStepIndex
               set_solutionPlayerInterval set_timers].
        destruct (currentStepIndex w >=? playbackLimit w) eqn:E;
          cbn [timers currentStepIndex set_currentStepIndex].
        -- split; [reflexivity|]. split; [apply lookup_insert_eq | lia].
        -- apply geb_false in E.
           split; [reflexivity|]. split; [apply lookup_insert_eq | lia].
      * unfold started. destruct (currentStepIndex w >=? playbackLimit w);
          repeat split.
    + exists false, w. split; [now apply toggle_nothing_to_play|].
      split; [unfold getState; cbn; now rewrite Hh|].
      split; [discriminate | repeat split].
Qed.

End SessionFacts.

(** ** Drawing and preloading *)

Section DrawingFacts.
Import JsString MapDecoder GameVisualization Observations.
Import Startup PageControls Coverage.
Local Open Scope js_scope.

Lemma short_row_found (g : Grid) :
  has_short_row g = true ->
  exists row0 rows r row,
    g = row0 :: rows /\ g !! r = Some row /\ (length row < length row0)%nat.
Proof.
  destruct g as [|row0 rows]; [discriminate|]. unfold has_short_row.
  intros H. apply existsb_exists in H as [row [Hin Hlt]].
  apply Nat.ltb_lt in Hlt. apply list_elem_of_In in Hin.
  apply list_elem_of_lookup_1 in Hin as [r Hr].
  now exists row0, rows, r, row.
Qed.

Lemma no_short_row_covers (g : Grid) :
  has_short_row g = false <-> covers_first_row g.
Proof.
  destruct g as [|row0 rows]; [split; [intros _; exact I | reflexivity]|].
  unfold has_short_row, covers_first_row. rewrite Forall_forall. split.
  - intros H row Hin.
    destruct (Nat.ltb_spec (length row) (length row0)) as [Hlt|Hge]; [|exact Hge].
    assert (existsb (fun row => Nat.ltb (length row) (length row0)) (row0 :: rows)
            = true) as Hex; [|rewrite Hex in H; discriminate].
    apply existsb_exists. exists row.
    split; [now apply list_elem_of_In | now apply Nat.ltb_lt].
  - intros H.
    destruct (existsb (fun row => Nat.ltb (length row) (length row0)) (row0 :: rows))
      eqn:E; [|reflexivity].
    apply existsb_exists in E as [row [Hin Hlt]].
    apply Nat.ltb_lt in Hlt. apply list_elem_of_In in Hin.
    specialize (H row Hin). lia.
Qed.

(** X9.  [drawMap] comes to its end exactly on the grids none of
    whose rows is shorter than the first.  On such a grid, whatever
    the downloads do, it puts one tile (sprite or fallback rectangle)
    at every position of the rows-by-first-row-length rectangle, row by
    row, and nowhere else: cells of a longer row beyond the length of
    the first row are never drawn.  On a grid with a shorter row it
    throws. *)
Theorem drawMap_completes_exactly decodes (g : Grid) (w : World) :
  no_undefined_entry w ->
  (has_short_row g = false <-> covers_first_row g)
  /\ (if has_short_row g
      then fst (drawMap decodes g w) = Throw
      else fst (drawMap decodes g w) = Ok tt
           /\ omap tile_position (new_events (drawMap decodes g) w)
              = tile_positions g
           /\ length (tile_positions g)
              = (length g * length (hd [] g))%nat).
Proof.
  intros Hw. split; [apply no_short_row_covers|].
  destruct (has_short_row g) eqn:E.
  - destruct (short_row_found g E) as (row0 & rows & r & row & -> & Hr & Hlt).
    eapply drawMap_short_row_throws; eassumption.
  - apply no_short_row_covers in E.
    pose proof (drawMap_completes decodes g w E) as Hok.
    split; [exact Hok|].
    destruct (draws_drawMap decodes g w) as [evs [Hr Ht]].
    split.
    + rewrite (renders_new_events _ _ _ Hr). apply Ht. now rewrite Hok.
    + destruct g as [|row0 rows]; [reflexivity|].
      unfold tile_positions. cbn [hd].
      assert (H : forall n k,
                 length (flat_map
                           (fun r => map (fun c => (Z.of_nat c * TILE_SIZE,
                                                    Z.of_nat r * TILE_SIZE))
                                         (seq 0 (length row0)))
                           (seq k n))
                 = (n * length row0)%nat).
      { induction n as [|n IH]; intros k; [reflexivity|].
        cbn [seq flat_map]. rewrite length_app, length_map, length_seq, IH. lia. }
      apply H.
Qed.

(** *** [preloadSprites] *)

Lemma loadSprite_start_cache (spriteName : option string) (w : World) :
  SPRITE_IMAGES (snd (loadSprite_start spriteName w)) = SPRITE_IMAGES w.
Proof.
  unfold loadSprite_start. rewrite bind_get.
  destruct (SPRITE_IMAGES w !! key spriteName); [reflexivity|].
  destruct (MAP_SPRITES !! key spriteName), spriteName as [name|];
    try reflexivity.
  destruct (negb (endsWith name ".png")); reflexivity.
Qed.

(** What a call of the loop of [preloadSprites] for a file name can
    be doing at its [await]: it waits for its download, or it has
    returned the cached image. *)
Lemma loadSprite_start_file (file : string) (w w1 : World) (step : LoadStep) :
  endsWith file ".png" = true ->
  loadSprite_start (Some file) w = (Ok step, w1) ->
  match step with
  | Suspended _ => True
  | Returned result => is_Some result /\ is_Some (SPRITE_IMAGES w !! file)
  end.
Proof.
  intros He. unfold loadSprite_start. rewrite bind_get. cbv [key].
  destruct (SPRITE_IMAGES w !! file) as [img|].
  - intros [= <- _]. split; eexists; reflexivity.
  - destruct (MAP_SPRITES !! file).
    + rewrite bind_emit. now intros [= <- _].
    + rewrite He. cbn [negb]. rewrite bind_emit. now intros [= <- _].
Qed.

Lemma startCalls_files (names : list (option string)) :
  Forall is_file names ->
  forall w, exists calls w1,
    startCalls names w = (Ok calls, w1)
    /\ map fst calls = names
    /\ SPRITE_IMAGES w1 = SPRITE_IMAGES w
    /\ Forall (fun call =>
                 match snd call with
                 | Suspended _ => True
                 | Returned _ => is_Some (SPRITE_IMAGES w !! key (fst call))
                 end) calls.
Proof.
  induction 1 as [|name rest [file [-> He]] _ IH]; intros w.
  - exists [], w. repeat split. constructor.
  - cbn [startCalls]. unfold bind at 1.
    pose proof (loadSprite_start_cache (Some file) w) as Hc.
    destruct (loadSprite_start_named file w) as [step Hs].
    destruct (loadSprite_start (Some file) w) as [[st|] w1] eqn:Hstart;
      cbn [fst] in Hs; [|discriminate].
    cbn [snd] in Hc.
    pose proof (loadSprite_start_file file w w1 st He Hstart) as Hst.
    destruct (IH w1) as (calls & w2 & Hrun & Hnames & Hcache & Hcalls).
    unfold bind at 1. rewrite Hrun.
    exists ((Some file, st) :: calls), w2. cbn [snd fst map].
    split; [reflexivity|]. split; [now rewrite Hnames|].
    split; [now rewrite Hcache|].
    constructor.
    + cbn [snd fst key]. destruct st; [apply Hst | exact I].
    + rewrite Hc in Hcalls. exact Hcalls.
Qed.

Lemma settleCalls_completes (decoded : nat -> bool)
    (calls : list (option string * LoadStep)) :
  forall i w, fst (settleCalls decoded i calls w) = Ok tt.
Proof.
  induction calls as [|[name step] rest IH]; intros i w; [reflexivity|].
  cbn [settleCalls]. unfold bind at 1.
  destruct step as [result|img]; [apply IH|].
  unfold loadSprite_settle. destruct (decoded i); cbn; apply IH.
Qed.

Lemma settleCalls_elsewhere (decoded : nat -> bool)
    (calls : list (option string * LoadStep)) (name : string) :
  Forall (fun call => key (fst call) <> name) calls ->
  forall i w,
    SPRITE_IMAGES (snd (settleCalls decoded i calls w)) !! name
    = SPRITE_IMAGES w !! name.
Proof.
  induction 1 as [|[spriteName step] rest Hne _ IH]; intros i w; [reflexivity|].
  cbn [settleCalls]. unfold bind at 1.
  destruct step as [result|img]; [apply IH|].
  unfold loadSprite_settle. destruct (decoded i); cbn [bind ret modify fst snd].
  - unfold bind, modify, ret. cbn [fst snd]. rewrite IH.
    cbn [SPRITE_IMAGES set_SPRITE_IMAGES]. now apply lookup_insert_ne.
  - unfold bind, ret. apply IH.
Qed.

Lemma settleCalls_grows (decoded : nat -> bool)
    (calls : list (option string * LoadStep)) (name : string) :
  forall i w,
    is_Some (SPRITE_IMAGES w !! name) ->
    is_Some (SPRITE_IMAGES (snd (settleCalls decoded i calls w)) !! name).
Proof.
  induction calls as [|[spriteName step] rest IH]; intros i w Hin; [exact Hin|].
  cbn [settleCalls]. unfold bind at 1.
  destruct step as [result|img]; [now apply IH|].
  unfold loadSprite_settle. destruct (decoded i).
  - unfold bind, modify, ret. cbn [fst snd]. apply IH.
    cbn [SPRITE_IMAGES set_SPRITE_IMAGES].
    destruct (decide (key spriteName = name)) as [->|Hne].
    + rewrite lookup_insert_eq. now eexists.
    + now rewrite lookup_insert_ne.
  - unfold bind, ret. now apply IH.
Qed.

Lemma settleCalls_all (decoded : nat -> bool)
    (calls : list (option string * LoadStep)) :
  (forall i, decoded i = true) ->
  forall i w,
    Forall (fun call =>
              match snd call with
              | Suspended _ => True
              | Returned _ => is_Some (SPRITE_IMAGES w !! key (fst call))
              end) calls ->
    Forall (fun call =>
              is_Some (SPRITE_IMAGES (snd (settleCalls decoded i calls w))
                         !! key (fst call))) calls.
Proof.
  intros Hall. induction calls as [|[spriteName step] rest IH]; intros i w Hcalls;
    [constructor|].
  inversion Hcalls as [|? ? Hhead Hrest]; subst. cbn [fst snd] in Hhead.
  cbn [settleCalls]. unfold bind at 1.
  destruct step as [result|img].
  - constructor; [now apply settleCalls_grows | now apply IH].
  - unfold loadSprite_settle. rewrite Hall.
    unfold bind, modify, ret. cbn [fst snd].
    assert (Hnow : is_Some (SPRITE_IMAGES
                              (set_SPRITE_IMAGES (insert (key spriteName) img) w)
                            !! key spriteName)).
    { cbn [SPRITE_IMAGES set_SPRITE_IMAGES]. rewrite lookup_insert_eq. now eexists. }
    constructor; [now apply settleCalls_grows|].
    apply IH. eapply Forall_impl; [exact Hrest|].
    intros [n st] Hc. cbn [fst snd] in *. destruct st; [|exact I].
    cbn [SPRITE_IMAGES set_SPRITE_IMAGES].
    destruct (decide (key spriteName = key n)) as [->|Hne].
    + rewrite lookup_insert_eq. now eexists.
    + now rewrite lookup_insert_ne.
Qed.

Lemma preloadedNames_files : Forall is_file preloadedNames.
Proof.
  assert (H : forallb (fun name => match name with
                                   | Some file => endsWith file ".png"
                                   | None => false
                                   end) preloadedNames = true)
    by (vm_compute; reflexivity).
  rewrite forallb_forall in H. apply Forall_forall. intros name Hin.
  apply list_elem_of_In in Hin. specialize (H name Hin).
  destruct name as [file|]; [|discriminate]. now exists file.
Qed.

Lemma mapped_entry (symbol file : string) :
  MAP_SPRITES !! symbol = Some file ->
  endsWith symbol ".png" = false
  /\ endsWith file ".png" = true
  /\ Some file ∈ preloadedNames.
Proof.
  intros H. apply elem_of_list_to_map_2 in H.
  assert (Hall : forallb (fun entry =>
                            negb (endsWith (fst entry) ".png")
                            && endsWith (snd entry) ".png"
                            && existsb (fun name =>
                                          match name with
                                          | Some file => String.eqb file (snd entry)
                                          | None => false
                                          end) preloadedNames)
                         MAP_SPRITES_entries = true)
    by (vm_compute; reflexivity).
  rewrite forallb_forall in Hall. apply list_elem_of_In in H.
  specialize (Hall _ H). cbn [fst snd] in Hall.
  apply andb_true_iff in Hall as [Hall Hex].
  apply andb_true_iff in Hall as [Hs Hf].
  apply negb_true_iff in Hs.
  split; [exact Hs|]. split; [exact Hf|].
  apply existsb_exists in Hex as [[f|] [Hin Heq]]; [|discriminate].
  apply String.eqb_eq in Heq. subst f. now apply list_elem_of_In.
Qed.

(** X10.  [preloadSprites] never throws and fills the cache under
    file names only.  Entries under other names are left as they were,
    so a map symbol that was not cached before is not cached after
    preloading either, and the first [loadSprite] for it (the one
    [drawMap] makes) downloads its sprite again.  When every image
    decodes, the file of every map symbol is in the cache. *)
Theorem preloadSprites_caches_file_names (decoded : nat -> bool) (w : World) :
  fst (preloadSprites decoded w) = Ok tt
  /\ (forall name, endsWith name ".png" = false ->
        SPRITE_IMAGES (snd (preloadSprites decoded w)) !! name
        = SPRITE_IMAGES w !! name)
  /\ (forall decodes symbol file,
        MAP_SPRITES !! symbol = Some file ->
        SPRITE_IMAGES w !! symbol = None ->
        downloads (loadSprite decodes (Some symbol)) (snd (preloadSprites decoded w))
        = [(SPRITE_BASE_PATH ++ file)%string])
  /\ ((forall i, decoded i = true) ->
      forall symbol file,
        MAP_SPRITES !! symbol = Some file ->
        is_Some (SPRITE_IMAGES (snd (preloadSprites decoded w)) !! file)).
Proof.
  destruct (startCalls_files preloadedNames preloadedNames_files w)
    as (calls & w1 & Hrun & Hnames & Hcache & Hcalls).
  assert (Hpre : preloadSprites decoded w = settleCalls decoded 0 calls w1).
  { unfold preloadSprites, bind. now rewrite Hrun. }
  assert (Hother : forall name, endsWith name ".png" = false ->
                     SPRITE_IMAGES (snd (preloadSprites decoded w)) !! name
                     = SPRITE_IMAGES w !! name).
  { intros name Hname. rewrite Hpre, <- Hcache.
    apply settleCalls_elsewhere.
    apply Forall_forall. intros [n st] Hin Heq. cbn [fst] in Heq.
    assert (n ∈ preloadedNames) as Hn.
    { rewrite <- Hnames. apply list_elem_of_fmap. exists (n, st).
      split; [reflexivity | exact Hin]. }
    pose proof preloadedNames_files as Hfiles.
    rewrite Forall_forall in Hfiles.
    destruct (Hfiles n Hn) as [file [-> He]]. cbn [key] in Heq. congruence. }
  split; [rewrite Hpre; apply settleCalls_completes|].
  split; [exact Hother|].
  split.
  - intros decodes symbol file Hm Hnone.
    destruct (mapped_entry symbol file Hm) as (Hs & _ & _).
    specialize (Hother symbol Hs). rewrite Hnone in Hother.
    set (after := snd (preloadSprites decoded w)) in *.
    unfold downloads, new_events, loadSprite, loadSprite_start.
    rewrite bind_assoc, bind_get. cbv [key]. rewrite Hother, Hm, Hs.
    rewrite bind_assoc, bind_emit, bind_ret, bind_get.
    unfold loadSprite_settle.
    destruct (decodes _ _); cbn [snd trace add_event set_SPRITE_IMAGES bind modify
                                  ret fst];
      rewrite drop_app_length; reflexivity.
  - intros Hall symbol file Hm.
    destruct (mapped_entry symbol file Hm) as (_ & _ & Hin).
    rewrite Hpre.
    rewrite <- Hnames in Hin. apply list_elem_of_fmap in Hin as [[n st] [Hn Hin]].
    cbn [fst] in Hn. subst n.
    assert (Hpremise : Forall (fun call =>
                match snd call with
                | Suspended _ => True
                | Returned _ => is_Some (SPRITE_IMAGES w1 !! key (fst call))
                end) calls).
    { eapply Forall_impl; [exact Hcalls|]. intros [n s0] Hc. cbn [fst snd] in *.
      destruct s0; [|exact I]. now rewrite Hcache. }
    pose proof (settleCalls_all decoded calls Hall 0%nat w1 Hpremise) as Hdone.
    rewrite Forall_forall in Hdone. exact (Hdone _ Hin).
Qed.

End DrawingFacts.

(** ** The buttons of the game view *)

Section ControlsFacts.
Import JsString MapDecoder GameVisualization Observations.
Import Startup PageControls Coverage.
Local Open Scope js_scope.

(** The world and the callbacks after a response with states whose
    first snapshot can be drawn. *)
Lemma session_shown decodes (w : World) (levelId : string)
    (asciiMap : option string) (solutionArray : list string)
    (callbacks : Callbacks) (first : Snapshot) (rest : list Snapshot)
    (saving : SaveResult) :
  covers_first_row (parseAsciiMap (ascii_map first)) ->
  let call := showGameView_response decodes levelId asciiMap solutionArray
                callbacks (Success (first :: rest)) saving in
  let N := len rest in
  let reports :=
    (if onStepUpdate callbacks then [StepUpdate 0 N] else [])
    ++ (if (0 <? N) && onSolutionReady callbacks then [SolutionReady N] else []) in
  exists shown,
    call w = (Ok tt, shown)
    /\ precomputedStates shown = first :: rest
    /\ currentStepIndex shown = 0
    /\ notifications call w = reports.
Proof.
  intros Hcov call N reports.
  set (states := first :: rest).
  assert (Hlen : len states = N + 1).
  { unfold len, states, N, len. rewrite length_cons. lia. }
  assert (HN : 0 <= N) by (unfold N, len; lia).
  set (w1 := set_currentSolution solutionArray (set_precomputedStates states w)).
  (* the save request *)
  assert (Hsave : exists w2,
             when (1 <? len states) (saveStepByStepSolution states levelId saving) w1
             = (Ok tt, w2)
             /\ precomputedStates w2 = states
             /\ trace w2 = trace w
                           ++ (if 0 <? N then save_requests levelId N saving else [])).
  { replace (1 <? len states) with (0 <? N)
      by (rewrite Hlen; destruct (Z.ltb_spec 0 N), (Z.ltb_spec 1 (N + 1)); lia).
    destruct (0 <? N); cbn [when].
    - destruct (save_completes states levelId saving w1) as (w2 & E & F & T);
        [discriminate|].
      exists w2. split; [exact E|]. split; [exact F|].
      rewrite T. replace (len states - 1) with N by lia. reflexivity.
    - exists w1. split; [reflexivity|]. split; [reflexivity|].
      cbn [trace w1 set_currentSolution set_precomputedStates].
      now rewrite app_nil_r. }
  destruct Hsave as (w2 & Esave & Fsave & Tsave).
  set (w3 := set_currentStepIndex 0 w2).
  assert (Hlast : lastIndex w3 = N).
  { unfold lastIndex, w3. cbn [precomputedStates set_currentStepIndex].
    rewrite Fsave. lia. }
  (* the first snapshot *)
  destruct (displayPrecomputedStep_cases decodes w3 0 callbacks)
    as [[Hout _]|[_ [state [Hs Heq]]]]; [rewrite Hlast in Hout; lia|].
  assert (state = first) as ->.
  { unfold w3 in Hs. cbn [precomputedStates set_currentStepIndex] in Hs.
    rewrite Fsave in Hs. unfold states in Hs.
    change ((first :: rest) !! Z.to_nat 0) with (Some first) in Hs. congruence. }
  destruct (displayed_completes decodes 0 callbacks first w3 Hcov)
    as (shown0 & evs & Hd & _ & Htr & Hcanvas & Htiles).
  destruct (displayed_frame decodes 0 callbacks first w3) as (F1 & F2 & _).
  rewrite Hd in F1, F2. cbn [snd] in F1, F2.
  rewrite Hlast in Htr.
  assert (Fstates : precomputedStates shown0 = states).
  { rewrite F2. unfold w3. cbn [precomputedStates set_currentStepIndex]. exact Fsave. }
  (* the call *)
  set (ready := (0 <? N) && onSolutionReady callbacks).
  set (shown := if ready then add_event (SolutionReady N) shown0 else shown0).
  assert (Hcall : call w = (Ok tt, shown)).
  { unfold call, showGameView_response, try_catch.
    rewrite !bind_modify. fold states. fold w1.
    unfold bind at 1. rewrite Esave.
    replace (0 <? len states) with true
      by (rewrite Hlen; destruct (Z.ltb_spec 0 (N + 1)); [reflexivity | lia]).
    rewrite bind_modify. fold w3.
    unfold bind at 1. rewrite Heq, Hd. rewrite bind_get, Fstates.
    replace (1 <? len states) with (0 <? N)
      by (rewrite Hlen; destruct (Z.ltb_spec 0 N), (Z.ltb_spec 1 (N + 1)); lia).
    replace (len states - 1) with N by lia.
    fold ready. unfold shown, when. destruct ready; reflexivity. }
  assert (Htrace : trace shown
                   = trace w
                     ++ ((if 0 <? N then save_requests levelId N saving else [])
                         ++ evs ++ reports)).
  { unfold shown, reports. fold ready.
    destruct ready; cbn [trace add_event]; rewrite Htr;
      unfold w3; cbn [trace set_currentStepIndex]; rewrite Tsave;
      rewrite <- ?app_assoc; rewrite ?app_nil_r; reflexivity. }
  assert (Hnew : new_events call w
                 = (if 0 <? N then save_requests levelId N saving else [])
                   ++ evs ++ reports).
  { unfold new_events. rewrite Hcall. cbn [snd]. rewrite Htrace.
    apply drop_app_length. }
  assert (Hsavenote : List.filter is_notification
                        (if 0 <? N then save_requests levelId N saving else []) = []).
  { destruct (0 <? N); [|reflexivity]. destruct saving; reflexivity. }
  assert (Hreports : List.filter is_notification reports = reports).
  { unfold reports.
    destruct (onStepUpdate callbacks), ((0 <? N) && onSolutionReady callbacks);
      reflexivity. }
  assert (Hnotes : notifications call w = reports).
  { unfold notifications. rewrite Hnew, !List.filter_app, Hsavenote,
      (filter_notifications_canvas evs Hcanvas), Hreports. reflexivity. }
  exists shown.
  split; [exact Hcall|].
  split; [unfold shown; destruct ready; exact Fstates|].
  split; [unfold shown; destruct ready; exact F1|].
  exact Hnotes.
Qed.

Lemma next_click_cases decodes (w : World) :
  in_range w ->
  (currentStepIndex w = lastIndex w /\ nextStepClick decodes w = (Ok tt, w))
  \/ (currentStepIndex w < lastIndex w
      /\ nextStepClick decodes w
         = (Ok tt, snd (displayPrecomputedStep decodes (currentStepIndex w + 1)
                          visualizationCallbacks w))
      /\ currentStepIndex (afterNext decodes w) = currentStepIndex w + 1
      /\ precomputedStates (afterNext decodes w) = precomputedStates w).
Proof.
  intros Hr. pose proof (in_range_session w Hr) as Hne.
  unfold in_range in Hr.
  assert (Htotal : totalSteps (getState w) = lastIndex w).
  { unfold getState, lastIndex. cbn [totalSteps].
    destruct (Z.ltb_spec 0 (len (precomputedStates w))) as [_|Hz]; [reflexivity|].
    unfold lastIndex in Hr. lia. }
  assert (Hhas : hasSolution (getState w) = (0 <? lastIndex w)).
  { unfold getState, lastIndex. cbn [hasSolution].
    destruct (Z.ltb_spec 0 (len (precomputedStates w))) as [_|Hz]; [reflexivity|].
    unfold lastIndex in Hr. lia. }
  unfold afterNext, nextStepClick. rewrite bind_get. cbv zeta.
  rewrite Hhas, Htotal.
  change (currentStep (getState w)) with (currentStepIndex w).
  destruct (Z.ltb_spec (currentStepIndex w) (lastIndex w)) as [Hlt|Hge].
  - right. split; [exact Hlt|].
    destruct (Z.ltb_spec 0 (lastIndex w)); [|lia].
    cbn [andb]. unfold detached, displayStep. cbn [snd].
    split; [reflexivity|].
    destruct (displayPrecomputedStep_cases decodes w (currentStepIndex w + 1)
                visualizationCallbacks) as [[Hout _]|[_ [state [_ ->]]]]; [lia|].
    destruct (displayed_frame decodes (currentStepIndex w + 1)
                visualizationCallbacks state w) as (H1 & H2 & _). auto.
  - left. split; [lia|]. rewrite andb_false_r. reflexivity.
Qed.

Lemma prev_click_cases decodes (w : World) :
  in_range w ->
  (currentStepIndex w = 0 /\ prevStepClick decodes w = (Ok tt, w))
  \/ (0 < currentStepIndex w
      /\ prevStepClick decodes w
         = (Ok tt, snd (displayPrecomputedStep decodes (currentStepIndex w - 1)
                          visualizationCallbacks w))
      /\ currentStepIndex (afterPrev decodes w) = currentStepIndex w - 1
      /\ precomputedStates (afterPrev decodes w) = precomputedStates w).
Proof.
  intros Hr. unfold in_range in Hr.
  unfold afterPrev, prevStepClick. rewrite bind_get.
  change (currentStep (getState w)) with (currentStepIndex w).
  destruct (Z.ltb_spec 0 (currentStepIndex w)) as [Hlt|Hge].
  - right. split; [exact Hlt|].
    unfold detached, displayStep. cbn [snd]. split; [reflexivity|].
    destruct (displayPrecomputedStep_cases decodes w (currentStepIndex w - 1)
                visualizationCallbacks) as [[Hout _]|[_ [state [_ ->]]]]; [lia|].
    destruct (displayed_frame decodes (currentStepIndex w - 1)
                visualizationCallbacks state w) as (H1 & H2 & _). auto.
  - left. split; [lia | reflexivity].
Qed.

(** X11.  The step buttons move by one and stop at the ends.  In a
    loaded session standing at a step [i] of [0..N], a click on
    "previous" displays step [i-1] and a click on "next" step [i+1];
    at [i = 0] "previous" does nothing and at [i = N] "next" does
    nothing.  Either click completes whatever happens while drawing,
    leaves the index in [0..N], and "previous" after "next" is back at
    [i]. *)
Theorem step_buttons_move_by_one decodes (w : World) :
  in_range w ->
  prevStepClick decodes w = (Ok tt, afterPrev decodes w)
  /\ nextStepClick decodes w = (Ok tt, afterNext decodes w)
  /\ currentStepIndex (afterPrev decodes w) = Z.max 0 (currentStepIndex w - 1)
  /\ currentStepIndex (afterNext decodes w)
     = Z.min (lastIndex w) (currentStepIndex w + 1)
  /\ in_range (afterPrev decodes w)
  /\ in_range (afterNext decodes w)
  /\ (currentStepIndex w = 0 -> afterPrev decodes w = w)
  /\ (currentStepIndex w = lastIndex w -> afterNext decodes w = w)
  /\ (currentStepIndex w < lastIndex w ->
      currentStepIndex (afterPrev decodes (afterNext decodes w))
      = currentStepIndex w).
Proof.
  intros Hr. pose proof Hr as Hr'. unfold in_range in Hr'.
  assert (Hp : prevStepClick decodes w = (Ok tt, afterPrev decodes w)).
  { unfold afterPrev.
    destruct (prev_click_cases decodes w Hr) as [[_ ->]|(_ & -> & _)]; reflexivity. }
  assert (Hn : nextStepClick decodes w = (Ok tt, afterNext decodes w)).
  { unfold afterNext.
    destruct (next_click_cases decodes w Hr) as [[_ ->]|(_ & -> & _)]; reflexivity. }
  assert (Hprev : currentStepIndex (afterPrev decodes w)
                  = Z.max 0 (currentStepIndex w - 1)
                  /\ precomputedStates (afterPrev decodes w) = precomputedStates w
                  /\ (currentStepIndex w = 0 -> afterPrev decodes w = w)).
  { destruct (prev_click_cases decodes w Hr) as [[H0 He]|(Hlt & _ & H1 & H2)].
    - unfold afterPrev. rewrite He. cbn [snd]. split; [lia | auto].
    - split; [lia|]. split; [exact H2 | lia]. }
  assert (Hnext : currentStepIndex (afterNext decodes w)
                  = Z.min (lastIndex w) (currentStepIndex w + 1)
                  /\ precomputedStates (afterNext decodes w) = precomputedStates w
                  /\ (currentStepIndex w = lastIndex w -> afterNext decodes w = w)).
  { destruct (next_click_cases decodes w Hr) as [[H0 He]|(Hlt & _ & H1 & H2)].
    - unfold afterNext. rewrite He. cbn [snd]. split; [lia | auto].
    - split; [lia|]. split; [exact H2 | lia]. }
  destruct Hprev as (P1 & P2 & P3). destruct Hnext as (N1 & N2 & N3).
  assert (Rp : in_range (afterPrev decodes w)).
  { unfold in_range, lastIndex in *. rewrite P1, P2. lia. }
  assert (Rn : in_range (afterNext decodes w)).
  { unfold in_range, lastIndex in *. rewrite N1, N2. lia. }
  repeat (split; [assumption|]).
  intros Hlt.
  destruct (prev_click_cases decodes (afterNext decodes w) Rn)
    as [[H0 He]|(_ & _ & H1 & _)].
  - unfold afterPrev at 1. rewrite He. cbn [snd]. lia.
  - rewrite H1, N1. lia.
Qed.

(** X12.  The buttons after a solution has been shown.  When the
    response carries [N+1] states (the first of which can be drawn)
    the page's callbacks leave "previous" disabled and the play label
    as the playing flag has it; with [N >= 1] moves the play button is
    enabled and "next" is enabled only when [N >= 2].  With exactly one
    move "next" is therefore disabled although step [1] exists and the
    handler of the button would display it: only playback shows the
    final state.  With no move ([N = 0]) "next" is disabled and the
    play button keeps the state the previous level left it in. *)
Theorem buttons_after_solution_shown decodes (w : World) (levelId : string)
    (asciiMap : option string) (solutionArray : list string)
    (first : Snapshot) (rest : list Snapshot) (saving : SaveResult)
    (b : Buttons) :
  covers_first_row (parseAsciiMap (ascii_map first)) ->
  buttonsAfter (showGameView_response decodes levelId asciiMap solutionArray
                  visualizationCallbacks (Success (first :: rest)) saving) w b
  = {| prevDisabled := true;
       nextDisabled := len rest <=? 1;
       playDisabled := if 0 <? len rest then false else playDisabled b;
       playShowsPause := isPlaying (getState w) |}
  /\ (len rest = 1 ->
      nextDisabled
        (buttonsAfter (showGameView_response decodes levelId asciiMap
                         solutionArray visualizationCallbacks
                         (Success (first :: rest)) saving) w b) = true
      /\ currentStepIndex
           (afterNext decodes
              (snd (showGameView_response decodes levelId asciiMap
                      solutionArray visualizationCallbacks
                      (Success (first :: rest)) saving w))) = 1).
Proof.
  intros Hcov.
  destruct (session_shown decodes w levelId asciiMap solutionArray
              visualizationCallbacks first rest saving Hcov)
    as (shown & Hcall & Hstates & Hidx & Hnotes).
  cbv zeta in Hcall, Hnotes.
  assert (Hbuttons :
            buttonsAfter (showGameView_response decodes levelId asciiMap
                            solutionArray visualizationCallbacks
                            (Success (first :: rest)) saving) w b
            = {| prevDisabled := true;
                 nextDisabled := len rest <=? 1;
                 playDisabled := if 0 <? len rest then false else playDisabled b;
                 playShowsPause := isPlaying (getState w) |}).
  { unfold buttonsAfter. rewrite Hnotes.
    cbn [onStepUpdate onSolutionReady visualizationCallbacks andb].
    rewrite andb_true_r.
    assert (0 <= len rest) by (unfold len; lia).
    destruct (Z.ltb_spec 0 (len rest)) as [Hpos|Hzero];
      cbn [app fold_left notify playDisabled playShowsPause].
    - reflexivity.
    - f_equal. replace (len rest) with 0 by lia. reflexivity. }
  split; [exact Hbuttons|].
  intros Hone. rewrite Hbuttons. cbn [nextDisabled]. rewrite Hone.
  split; [reflexivity|].
  rewrite Hcall. cbn [snd].
  assert (Hr : in_range shown).
  { unfold in_range, lastIndex. rewrite Hidx, Hstates.
    unfold len in *. rewrite length_cons. lia. }
  destruct (next_click_cases decodes shown Hr) as [[Hlast _]|(_ & _ & H1 & _)].
  - unfold lastIndex in Hlast. rewrite Hidx, Hstates in Hlast.
    unfold len in *. rewrite length_cons in Hlast. lia.
  - rewrite H1, Hidx. reflexivity.
Qed.

End ControlsFacts.

(** ** Decoding a grid's own text *)

Section RoundTrip.
Import JsString MapDecoder GameVisualization Observations.
Import Startup PageControls Coverage.

Lemma trimStart_fixed (s : string) :
  starts_with_whitespace s = false -> trimStart s = s.
Proof.
  unfold starts_with_whitespace. destruct s as [|a s]; [reflexivity|].
  cbn [first_char trimStart]. now intros ->.
Qed.

Lemma trimEnd_fixed (s : string) :
  ends_with_whitespace s = false -> trimEnd s = s.
Proof.
  unfold ends_with_whitespace. induction s as [|a s IH]; [reflexivity|].
  cbn [trimEnd]. destruct s as [|b s].
  - cbn [last_char trimEnd is_empty]. intros ->. reflexivity.
  - intros H. rewrite IH by exact H.
    cbn [is_empty]. now rewrite andb_false_r.
Qed.

Lemma trim_fixed (s : string) :
  starts_with_whitespace s = false -> ends_with_whitespace s = false ->
  trim s = s.
Proof.
  intros Hs He. unfold trim. rewrite (trimStart_fixed s Hs).
  now apply trimEnd_fixed.
Qed.

Lemma split_one (sep : ascii) (p : string) :
  count_char sep p = O -> split sep p = [p].
Proof.
  induction p as [|a p IH]; [reflexivity|]. cbn [count_char split].
  destruct (Ascii.eqb a sep); [discriminate|]. intros H.
  rewrite IH by exact H. reflexivity.
Qed.

Lemma split_app (sep : ascii) (p t : string) :
  count_char sep p = O ->
  split sep (p ++ String sep t)%string = p :: split sep t.
Proof.
  induction p as [|a p IH].
  - intros _. rewrite append_nil. cbn [split]. now rewrite Ascii.eqb_refl.
  - cbn [count_char]. rewrite append_cons. cbn [split].
    destruct (Ascii.eqb a sep); [discriminate|]. intros H.
    rewrite IH by exact H. reflexivity.
Qed.

Lemma split_join (sep : ascii) (pieces : list string) :
  pieces <> [] ->
  Forall (fun piece => count_char sep piece = O) pieces ->
  split sep (join (String sep EmptyString) pieces) = pieces.
Proof.
  intros Hne Hall. induction Hall as [|p rest Hp Hrest IH]; [congruence|].
  destruct rest as [|q rest].
  - cbn [join]. now apply split_one.
  - change (join (String sep "") (p :: q :: rest))
      with (p ++ String sep "" ++ join (String sep "") (q :: rest))%string.
    rewrite append_cons, append_nil, split_app by exact Hp.
    rewrite IH by discriminate. reflexivity.
Qed.

Lemma symbol_shape (cell : string) :
  is_symbol cell = true ->
  exists a, cell = String a EmptyString /\ Ascii.eqb a newline = false.
Proof.
  destruct cell as [|a [|b rest]]; try discriminate. cbn [is_symbol].
  intros H. exists a. split; [reflexivity | now apply negb_true_iff].
Qed.

Lemma chars_join (cells : list string) :
  forallb is_symbol cells = true ->
  chars (join EmptyString cells) = cells
  /\ count_char newline (join EmptyString cells) = O.
Proof.
  induction cells as [|c cells IH]; [now split|].
  cbn [forallb]. intros H. apply andb_true_iff in H as [Hc Hrest].
  destruct (symbol_shape c Hc) as [a [-> Ha]].
  destruct (IH Hrest) as [IH1 IH2].
  destruct cells as [|d cells].
  - cbn [join chars count_char]. rewrite Ha. now split.
  - change (join "" (String a "" :: d :: cells))
      with (String a "" ++ "" ++ join "" (d :: cells))%string.
    rewrite append_cons, !append_nil. cbn [chars count_char].
    rewrite IH1, IH2, Ha. now split.
Qed.

Lemma rows_join (g : Grid) :
  forallb (forallb is_symbol) g = true ->
  map chars (map (join EmptyString) g) = g
  /\ Forall (fun piece => count_char newline piece = O) (map (join EmptyString) g).
Proof.
  induction g as [|row g IH]; [split; [reflexivity | constructor]|].
  cbn [forallb]. intros H. apply andb_true_iff in H as [Hrow Hrest].
  destruct (chars_join row Hrow) as [H1 H2]. destruct (IH Hrest) as [IH1 IH2].
  cbn [map]. rewrite H1, IH1. split; [reflexivity | now constructor].
Qed.

(** X13.  The decoder gives back every grid it can produce from a
    visible text: a grid with at least one row, whose cells are single
    characters other than the line feed and whose text (rows glued,
    separated by line feeds) is not empty and neither starts nor ends
    with whitespace, is the decoding of its own text. *)
Theorem parseAsciiMap_of_unparse (g : Grid) :
  g <> [] ->
  forallb (forallb is_symbol) g = true ->
  is_empty (unparse g) = false ->
  starts_with_whitespace (unparse g) = false ->
  ends_with_whitespace (unparse g) = false ->
  parseAsciiMap (Some (unparse g)) = g.
Proof.
  intros Hne Hcells Hvisible Hstart Hend.
  unfold parseAsciiMap. rewrite Hvisible, (trim_fixed _ Hstart Hend).
  destruct (rows_join g Hcells) as [Hrows Hlines].
  unfold unparse. rewrite split_join; [exact Hrows | | exact Hlines].
  destruct g; [congruence | discriminate].
Qed.

End RoundTrip.

(** ** A batch solve from click to completion *)

Section SolveFacts.
Import ProgressStream StreamObservations SolveSession.
Context {R : Rendering}.










End SolveFacts.

(** ** The filter of the leaderboard *)

Section LeaderboardFacts.
Import Leaderboard.
Variable Item : Type.
Variable level_set : Item -> string.

Lemma unique_from (values seen : list string) :
  NoDup seen ->
  NoDup (fold_left (fun seen v => if bool_decide (v ∈ seen) then seen
                                  else seen ++ [v]) values seen)
  /\ forall v,
      v ∈ fold_left (fun seen v => if bool_decide (v ∈ seen) then seen
                                   else seen ++ [v]) values seen
      <-> v ∈ seen \/ v ∈ values.
Proof.
  revert seen. induction values as [|x values IH]; intros seen Hnd.
  - cbn. split; [exact Hnd|]. intros v. split; [auto|].
    intros [H|H]; [exact H | now apply elem_of_nil in H].
  - cbn [fold_left]. destruct (bool_decide_reflect (x ∈ seen)) as [Hin|Hnot].
    + destruct (IH seen Hnd) as [H1 H2]. split; [exact H1|].
      intros v. rewrite H2, elem_of_cons. split; [tauto|].
      intros [H|[->|H]]; auto.
    + assert (Hnd' : NoDup (seen ++ [x])).
      { apply NoDup_app. split; [exact Hnd|]. split.
        - intros y Hy Hx. apply list_elem_of_singleton in Hx. now subst.
        - apply NoDup_singleton. }
      destruct (IH (seen ++ [x]) Hnd') as [H1 H2]. split; [exact H1|].
      intros v. rewrite H2, elem_of_app, list_elem_of_singleton, elem_of_cons.
      tauto.
Qed.

(** X17.  The level-set filter of the leaderboard.  The options
    offered after "all" are the level sets of the loaded entries, each
    once.  "all" shows every entry, in the order of the data.  Any
    option other than "all" shows at least one entry, and shows
    exactly the entries of that level set.  (Entries whose level set
    is itself named "all" can therefore only be seen together with all
    the others.) *)
Theorem leaderboard_filter_options (leaderboardData : list Item) :
  NoDup (unique (map level_set leaderboardData))
  /\ (forall v, v ∈ unique (map level_set leaderboardData)
                <-> exists item, item ∈ leaderboardData /\ level_set item = v)
  /\ filterRows Item level_set "all" leaderboardData = leaderboardData
  /\ (forall option,
        option ∈ updateFilters Item level_set leaderboardData ->
        option <> "all"%string ->
        filterRows Item level_set option leaderboardData <> []
        /\ forall item,
            item ∈ filterRows Item level_set option leaderboardData
            <-> item ∈ leaderboardData /\ level_set item = option).
Proof.
  assert (Hall : filterRows Item level_set "all" leaderboardData = leaderboardData).
  { unfold filterRows. cbn [String.eqb].
    induction leaderboardData as [|item rest IH]; [reflexivity|].
    cbn [List.filter]. now rewrite IH. }
  destruct (unique_from (map level_set leaderboardData) [] (NoDup_nil_2))
    as [Hnd Hin].
  assert (Hsets : forall v, v ∈ unique (map level_set leaderboardData)
                            <-> exists item, item ∈ leaderboardData
                                             /\ level_set item = v).
  { intros v. unfold unique. rewrite Hin. split.
    - intros [H|H]; [now apply elem_of_nil in H|].
      apply list_elem_of_fmap in H as [item [-> Hitem]]. now exists item.
    - intros [item [Hitem <-]]. right. apply list_elem_of_fmap. now exists item. }
  split; [exact Hnd|]. split; [exact Hsets|]. split; [exact Hall|].
  intros option Hopt Hne.
  assert (Hrows : forall item,
             item ∈ filterRows Item level_set option leaderboardData
             <-> item ∈ leaderboardData /\ level_set item = option).
  { intros item. unfold filterRows.
    rewrite list_elem_of_In, List.filter_In, <- list_elem_of_In.
    destruct (String.eqb_spec option "all") as [->|_]; [congruence|].
    now rewrite String.eqb_eq. }
  split; [|exact Hrows].
  unfold updateFilters in Hopt. apply elem_of_cons in Hopt as [->|Hopt];
    [congruence|].
  apply Hsets in Hopt as [item Hitem]. apply Hrows in Hitem.
  intros Hempty. rewrite Hempty in Hitem. now apply elem_of_nil in Hitem.
Qed.

End LeaderboardFacts.

(** ** Instances of the further properties *)

Section FurtherInstances.
Import JsString MapDecoder GameVisualization Observations.
Import ProgressStream StreamObservations.
Import Startup PageControls SolveSession SolveExamples Coverage.
Local Open Scope js_scope.


(** X5, instance: the one-move session, playing from step [0]. *)
Lemma playback_runs_to_the_end_witness :
  no_leaked_timer playingSession
  /\ solutionPlayerInterval playingSession = Some 1%positive
  /\ timers playingSession !! 1%positive
     = Some {| maxStepIndex := 1; timerCallbacks := allCallbacks |}
  /\ 1 = lastIndex playingSession
  /\ -1 <= currentStepIndex playingSession <= lastIndex playingSession
  /\ exists atEnd finished,
       currentStepIndex atEnd = lastIndex playingSession
       /\ tick online 1%positive atEnd = (Ok tt, finished)
       /\ solutionPlayerInterval finished = None
       /\ timers finished = ∅.
Proof.
  assert (H1 : no_leaked_timer playingSession) by (vm_compute; reflexivity).
  assert (H2 : solutionPlayerInterval playingSession = Some 1%positive)
    by (vm_compute; reflexivity).
  assert (H3 : timers playingSession !! 1%positive
               = Some {| maxStepIndex := 1; timerCallbacks := allCallbacks |})
    by (vm_compute; reflexivity).
  assert (H4 : 1 = lastIndex playingSession) by (vm_compute; reflexivity).
  assert (H5 : -1 <= currentStepIndex playingSession <= lastIndex playingSession).
  { vm_compute. split; discriminate. }
  split; [exact H1|]. split; [exact H2|]. split; [exact H3|].
  split; [exact H4|]. split; [exact H5|].
  destruct (playback_runs_to_the_end online playingSession 1%positive
              {| maxStepIndex := 1; timerCallbacks := allCallbacks |}
              H1 H2 H3 H4 H5)
    as [_ (atEnd & finished & _ & Ha & Hb & _ & _ & Hc & Hd & _)].
  exists atEnd, finished. auto.
Defined.

(** X6, instance: the states of a second level are awaited while the
    solution of the first is still remembered. *)
Lemma playback_without_states_stands_still_witness :
  solutionPlayerInterval awaitingStates = None
  /\ precomputedStates awaitingStates = []
  /\ currentSolution awaitingStates <> []
  /\ exists id playing,
       toggleSolutionPlayback allCallbacks awaitingStates = (Ok true, playing)
       /\ ticks online id 3 playing = playing.
Proof.
  assert (H1 : solutionPlayerInterval awaitingStates = None) by (vm_compute; reflexivity).
  assert (H2 : precomputedStates awaitingStates = []) by (vm_compute; reflexivity).
  assert (H3 : currentSolution awaitingStates <> []) by (vm_compute; discriminate).
  split; [exact H1|]. split; [exact H2|]. split; [exact H3|].
  destruct (playback_without_states_stands_still online awaitingStates
              allCallbacks H1 H2 H3) as (id & playing & Ha & _ & _ & Hb).
  exists id, playing. split; [exact Ha | exact (proj2 (Hb 3%nat))].
Defined.


(** X8, instance: the request for the states of a second level
    fails. *)
Lemma showGameView_falls_back_witness :
  no_leaked_timer oneMoveShown
  /\ covers_first_row (parseAsciiMap (Some "b"))
  /\ exists shown,
       showGameView online "lvl2" (Some "b") SolutionAbsent allCallbacks
         Failure Saved oneMoveShown = (Ok tt, shown)
       /\ precomputedStates shown = []
       /\ currentSolution shown = currentSolution oneMoveShown.
Proof.
  assert (H1 : no_leaked_timer oneMoveShown) by (vm_compute; reflexivity).
  assert (H2 : covers_first_row (parseAsciiMap (Some "b"))).
  { vm_compute. repeat constructor. }
  split; [exact H1|]. split; [exact H2|].
  destruct (showGameView_falls_back online oneMoveShown "lvl2" (Some "b")
              SolutionAbsent allCallbacks Failure Saved H1 H2 (or_introl eq_refl))
    as (shown & Ha & _ & _ & Hb & _ & _ & _ & Hc).
  exists shown. auto.
Defined.

(** X9, instance: a two-by-two grid on the empty cache. *)
Lemma drawMap_completes_exactly_witness :
  no_undefined_entry initialWorld
  /\ has_short_row smallGrid = false
  /\ fst (drawMap online smallGrid initialWorld) = Ok tt
  /\ omap tile_position (new_events (drawMap online smallGrid) initialWorld)
     = tile_positions smallGrid.
Proof.
  assert (H1 : no_undefined_entry initialWorld) by reflexivity.
  split; [exact H1|]. split; [reflexivity|].
  destruct (drawMap_completes_exactly online smallGrid initialWorld H1)
    as [_ (Ha & Hb & _)].
  split; [exact Ha | exact Hb].
Defined.

(** X11, instance: the one-move session at step [0]. *)
Lemma step_buttons_move_by_one_witness :
  in_range oneMoveShown
  /\ currentStepIndex (afterNext online oneMoveShown)
     = Z.min (lastIndex oneMoveShown) (currentStepIndex oneMoveShown + 1)
  /\ in_range (afterNext online oneMoveShown)
  /\ in_range (afterPrev online oneMoveShown).
Proof.
  assert (H1 : in_range oneMoveShown).
  { vm_compute. split; discriminate. }
  split; [exact H1|].
  destruct (step_buttons_move_by_one online oneMoveShown H1)
    as (_ & _ & _ & Ha & Hb & Hc & _).
  auto.
Defined.

(** X12, instance: the response with the two states of the one-move
    session. *)
Lemma buttons_after_solution_shown_witness :
  covers_first_row (parseAsciiMap (ascii_map initialSnapshot))
  /\ nextDisabled
       (buttonsAfter (showGameView_response online "lvl1"
                        (ascii_map initialSnapshot) ["r"]
                        visualizationCallbacks
                        (Success [initialSnapshot; afterRight]) Saved)
                     initialWorld allDisabled) = true
  /\ currentStepIndex
       (afterNext online
          (snd (showGameView_response online "lvl1"
                  (ascii_map initialSnapshot) ["r"]
                  visualizationCallbacks
                  (Success [initialSnapshot; afterRight]) Saved
                  initialWorld))) = 1.
Proof.
  assert (H1 : covers_first_row (parseAsciiMap (ascii_map initialSnapshot))).
  { vm_compute. repeat constructor. }
  split; [exact H1|].
  exact (proj2 (buttons_after_solution_shown online initialWorld "lvl1"
                  (ascii_map initialSnapshot) ["r"%string] initialSnapshot
                  [afterRight] Saved allDisabled H1) eq_refl).
Defined.

(** X13, instance: a two-by-two grid. *)
Lemma parseAsciiMap_of_unparse_witness :
  smallGrid <> []
  /\ forallb (forallb is_symbol) smallGrid = true
  /\ is_empty (unparse smallGrid) = false
  /\ starts_with_whitespace (unparse smallGrid) = false
  /\ ends_with_whitespace (unparse smallGrid) = false
  /\ parseAsciiMap (Some (unparse smallGrid)) = smallGrid.
Proof.
  assert (H1 : smallGrid <> []) by discriminate.
  assert (H2 : forallb (forallb is_symbol) smallGrid = true) by reflexivity.
  assert (H3 : is_empty (unparse smallGrid) = false) by reflexivity.
  assert (H4 : starts_with_whitespace (unparse smallGrid) = false) by reflexivity.
  assert (H5 : ends_with_whitespace (unparse smallGrid) = false) by reflexivity.
  repeat (split; [assumption|]).
  exact (parseAsciiMap_of_unparse smallGrid H1 H2 H3 H4 H5).
Defined.



End FurtherInstances.
